(** * Array-backed heaps and the key/index tracking priority queue

  A shallow embedding of [Heap.h], [BinaryHeap.h], [KHeap.h] and
  [PriorityQueue.h].  Indices are [std::size_t] values, modelled as [Z]
  with the 64-bit wrap-around written out.  Every member function is a
  function from the object to a [result]: an object after the call, or the
  fault that ended the call (failed [assert], exception, [std::terminate]
  for an exception leaving a [noexcept] function). *)

From stdpp Require Import gmap list strings sorting.
From Stdlib Require Import ZArith Lia Ascii.

Local Open Scope Z_scope.

(** ** [std::size_t] arithmetic *)

Module SizeT.
Definition modulus : Z := 2 ^ 64.
Definition wrap (z : Z) : Z := z mod modulus.
Definition add (a b : Z) : Z := wrap (a + b).
Definition sub (a b : Z) : Z := wrap (a - b).
Definition mul (a b : Z) : Z := wrap (a * b).
Definition shl (a n : Z) : Z := wrap (Z.shiftl a n).
Definition shr (a n : Z) : Z := Z.shiftr a n.
Definition div (a b : Z) : Z := a / b.
End SizeT.

(** [std::vector<T>::max_size()]: at most [PTRDIFF_MAX] elements. *)
Definition max_size : Z := 2 ^ 63 - 1.

(** ** Outcomes of a call *)

Inductive fault : Set :=
| AssertionFailed   (* assert(...) evaluated to false: abort *)
| OutOfRange        (* std::out_of_range thrown by an at() *)
| LengthError       (* std::length_error thrown by a growing vector *)
| Terminated        (* an exception reached a noexcept boundary *)
| IllFormed         (* a template constraint failed: rejected by the compiler *)
| OutOfFuel.        (* the loop bound of the model was too small *)

Inductive result (A : Type) : Type :=
| Ok (a : A)
| Fail (f : fault).
Arguments Ok {A} a.
Arguments Fail {A} f.

#[global] Instance result_ret : MRet result := λ A a, Ok a.
#[global] Instance result_bind : MBind result := λ A B k m,
  match m with Ok a => k a | Fail f => Fail f end.

Definition is_exception (f : fault) : bool :=
  match f with OutOfRange | LengthError => true | _ => false end.

(** A [noexcept] function turns an escaping exception into [std::terminate]. *)
Definition noexcept {A} (m : result A) : result A :=
  match m with
  | Fail f => if is_exception f then Fail Terminated else Fail f
  | Ok a => Ok a
  end.

Definition assert (b : bool) : result unit :=
  if b then Ok () else Fail AssertionFailed.

(** [std::vector<T>::at]: bounds-checked read. *)
Definition vector_at {T} (v : list T) (i : Z) : result T :=
  if (0 <=? i) && (i <? Z.of_nat (length v)) then
    match v !! Z.to_nat i with Some x => Ok x | None => Fail OutOfRange end
  else Fail OutOfRange.

(** [std::unordered_map<T, V>::at]: checked lookup. *)
Definition map_at `{Countable T} {V} (m : gmap T V) (e : T) : result V :=
  match m !! e with Some v => Ok v | None => Fail OutOfRange end.

(** Monadic left fold, for the [for] loops of the source. *)
Fixpoint foldlM {A B} (f : A → B → result A) (a : A) (l : list B) : result A :=
  match l with
  | [] => Ok a
  | b :: l' => a' ← f a b; foldlM f a' l'
  end.

(** An object of the class hierarchy: the [nodes] vector of [Heap<T>] and
  the data members added by the most derived class. *)
Record object (T S : Type) : Type := Object { nodes : list T; fields : S }.
Arguments Object {T S} nodes fields.
Arguments nodes {T S} o.
Arguments fields {T S} o.

Definition with_nodes {T S} (v : list T) (o : object T S) : object T S :=
  Object v (fields o).

(** [v.at(i) = x]: bounds-checked write. *)
Definition vector_set_at {T} (v : list T) (i : Z) (x : T) : result (list T) :=
  if (0 <=? i) && (i <? Z.of_nat (length v)) then Ok (<[Z.to_nat i := x]> v)
  else Fail OutOfRange.

(** [v.back()]; every call site is behind an emptiness check. *)
Definition vector_back {T} (v : list T) : result T :=
  match last v with Some x => Ok x | None => Fail OutOfRange end.

(** [v.emplace_back(x)]: grows by one unless [max_size()] is reached. *)
Definition vector_emplace_back {T} (v : list T) (x : T) : result (list T) :=
  if Z.of_nat (length v) <? max_size then Ok (v ++ [x]) else Fail LengthError.

(** ** Heap.h *)

Module Heap.
Section Heap.
Context {T S : Type}.
#[local] Abbreviation obj := (object T S).

(** [this->comp], a closure that may read the derived members. *)
Variable comp : S → T → T → result bool.
(** The pure virtual members and the overridable swap hook, as seen through
  dynamic dispatch. *)
Variable parent : Z → Z.
Variable swap_nodes : Z → Z → obj → result obj.
Variable heapify_down : Z → obj → result obj.
Variable build_heap : obj → result obj.
Variable IsAlreadyHeap : bool.

Definition size (o : obj) : Z := Z.of_nat (length (nodes o)).

Definition empty (o : obj) : bool := size o =? 0.

(** [Heap::swap_nodes]: [std::swap(nodes.at(i), nodes.at(j))]. *)
Definition base_swap_nodes (i j : Z) (o : obj) : result obj :=
  noexcept (
    x ← vector_at (nodes o) i;
    y ← vector_at (nodes o) j;
    Ok (with_nodes (<[Z.to_nat j := x]> (<[Z.to_nat i := y]> (nodes o))) o)).

Fixpoint heapify_up_loop (fuel : nat) (i : Z) (o : obj) : result obj :=
  match fuel with
  | O => Fail OutOfFuel
  | Datatypes.S fuel' =>
    if 0 <? i then
      a ← vector_at (nodes o) (parent i);
      b ← vector_at (nodes o) i;
      c ← comp (fields o) a b;
      if c : bool then
        let p := parent i in
        o' ← swap_nodes i p o;
        heapify_up_loop fuel' p o'
      else Ok o
    else Ok o
  end.

Definition heapify_up (index_to_fix : Z) (o : obj) : result obj :=
  noexcept (heapify_up_loop (Datatypes.S (Z.to_nat index_to_fix)) index_to_fix o).

Definition init (o : obj) : result obj :=
  noexcept (if negb IsAlreadyHeap then build_heap o else Ok o).

Definition top (o : obj) : result T :=
  _ ← assert (0 <? size o);
  vector_at (nodes o) 0.

Definition pop (o : obj) : result obj :=
  _ ← assert (0 <? size o);
  back ← vector_back (nodes o);
  v ← vector_set_at (nodes o) 0 back;
  heapify_down 0 (with_nodes (removelast v) o).

Definition push (x : T) (o : obj) : result obj :=
  let index_to_fix := size o in
  v ← vector_emplace_back (nodes o) x;
  heapify_up index_to_fix (with_nodes v o).

(** The public constructor [Heap(inputs, comp)] of a concrete subclass,
  whose body is [this->init()]. *)
Definition construct (s : S) (inputs : list T) : result obj :=
  noexcept (init (Object inputs s)).

(** The client loop [while (!h.empty()) { x = h.top(); h.pop(); }]. *)
Fixpoint drain (fuel : nat) (o : obj) : result (list T) :=
  match fuel with
  | O => Fail OutOfFuel
  | Datatypes.S fuel' =>
    if empty o then Ok []
    else
      x ← top o;
      o' ← pop o;
      rest ← drain fuel' o';
      Ok (x :: rest)
  end.

Definition pop_all (o : obj) : result (list T) :=
  drain (Datatypes.S (length (nodes o))) o.
End Heap.
End Heap.

(** What a concrete heap class supplies to its base and to a class derived
  from it: the overrides of the pure virtual members, still open in the
  comparator and in the swap hook of the most derived class. *)
Record heap_class (T S : Type) : Type := HeapClass {
  hc_parent : Z → Z;
  hc_heapify_down :
    (S → T → T → result bool) → (Z → Z → object T S → result (object T S)) →
    Z → object T S → result (object T S);
  hc_build_heap :
    (S → T → T → result bool) → (Z → Z → object T S → result (object T S)) →
    object T S → result (object T S)
}.
Arguments HeapClass {T S} _ _ _.
Arguments hc_parent {T S} _ _.
Arguments hc_heapify_down {T S} _ _ _ _ _.
Arguments hc_build_heap {T S} _ _ _ _.

(** ** BinaryHeap.h *)

Module BinaryHeap.
Section BinaryHeap.
Context {T S : Type}.
#[local] Abbreviation obj := (object T S).
Variable comp : S → T → T → result bool.
Variable swap_nodes : Z → Z → obj → result obj.

Definition left (i : Z) : Z := SizeT.add (SizeT.shl i 1) 1.

Definition right (i : Z) : Z := SizeT.add (SizeT.shl i 1) 2.

Definition is_leaf (o : obj) (i : Z) : bool :=
  SizeT.add (SizeT.shr (Heap.size o) 1) 1 <=? i.

Definition parent (i : Z) : Z := SizeT.shr (SizeT.sub i 1) 1.

(** One evaluation of [k < len && comp(nodes.at(c), nodes.at(k))], giving
  the new value of [comp_est]. *)
Definition challenge (len : Z) (o : obj) (comp_est k : Z) : result Z :=
  if k <? len then
    a ← vector_at (nodes o) comp_est;
    b ← vector_at (nodes o) k;
    c ← comp (fields o) a b;
    Ok (if c : bool then k else comp_est)
  else Ok comp_est.

Fixpoint heapify_down_loop (fuel : nat) (len i : Z) (o : obj) : result obj :=
  match fuel with
  | O => Fail OutOfFuel
  | Datatypes.S fuel' =>
    if is_leaf o i then Ok o
    else
      let l := left i in
      let r := right i in
      comp_est ← challenge len o i l;
      comp_est ← challenge len o comp_est r;
      if i =? comp_est then Ok o
      else
        o' ← swap_nodes i comp_est o;
        heapify_down_loop fuel' len comp_est o'
  end.

Definition heapify_down (index_to_fix : Z) (o : obj) : result obj :=
  noexcept (heapify_down_loop (Datatypes.S (length (nodes o))) (Heap.size o) index_to_fix o).

(** [for (i = (size() >> 1) + 1; i > 0; --i) heapify_down(i - 1)]:
  the indices [size() >> 1] down to [0]. *)
Definition build_heap (o : obj) : result obj :=
  noexcept (
    foldlM (λ o i, heapify_down (SizeT.sub i 1) o) o
      (reverse (seqZ 1 (SizeT.add (SizeT.shr (Heap.size o) 1) 1)))).
End BinaryHeap.

Definition class {T S} : heap_class T S :=
  HeapClass parent heapify_down build_heap.

(** [std::greater<>] and [std::less<>] on integers, as comparators of a
  plain heap, which has no members of its own. *)
Definition std_greater (_ : unit) (a b : Z) : result bool := Ok (b <? a).
Definition std_less (_ : unit) (a b : Z) : result bool := Ok (a <? b).

Definition make_min_heap (IsAlreadyHeap : bool) (inputs : list Z)
  : result (object Z unit) :=
  Heap.construct (build_heap std_greater Heap.base_swap_nodes) IsAlreadyHeap () inputs.

Definition make_max_heap (IsAlreadyHeap : bool) (inputs : list Z)
  : result (object Z unit) :=
  Heap.construct (build_heap std_less Heap.base_swap_nodes) IsAlreadyHeap () inputs.
End BinaryHeap.

(** ** KHeap.h *)

(** [std::enable_if<B>::type] names a type only when [B] holds. *)
Definition enable_if (b : bool) : result unit :=
  if b then Ok () else Fail IllFormed.

Module KHeap.
Section KHeap.
Context {T S : Type}.
#[local] Abbreviation obj := (object T S).
(** The arity, a [std::size_t] template argument. *)
Variable K : Z.
Variable comp : S → T → T → result bool.
Variable swap_nodes : Z → Z → obj → result obj.

Definition child (i j : Z) : Z := SizeT.add (SizeT.add (SizeT.mul K i) j) 1.

Definition is_leaf (o : obj) (i : Z) : bool :=
  SizeT.div (SizeT.sub (Heap.size o) 2) K <? i.

Definition parent (i : Z) : Z := SizeT.div (SizeT.sub i 1) K.

(** One pass of the inner [for (j = 0; j < K; ++j)] loop body.  The
  source declares [comp_est] before the [while]; it equals [i] whenever
  an iteration of the [while] starts. *)
Definition challenge (len i : Z) (o : obj) (comp_est j : Z) : result Z :=
  let son := child i j in
  if son <? len then
    a ← vector_at (nodes o) comp_est;
    b ← vector_at (nodes o) son;
    c ← comp (fields o) a b;
    Ok (if c : bool then son else comp_est)
  else Ok comp_est.

Fixpoint heapify_down_loop (fuel : nat) (len i : Z) (o : obj) : result obj :=
  match fuel with
  | O => Fail OutOfFuel
  | Datatypes.S fuel' =>
    if is_leaf o i then Ok o
    else
      comp_est ← foldlM (challenge len i o) i (seqZ 0 K);
      if i =? comp_est then Ok o
      else
        o' ← swap_nodes i comp_est o;
        heapify_down_loop fuel' len comp_est o'
  end.

Definition heapify_down (index_to_fix : Z) (o : obj) : result obj :=
  noexcept (heapify_down_loop (Datatypes.S (length (nodes o))) (Heap.size o) index_to_fix o).

(** [for (i = (size() / K) + 1; i > 0; --i) heapify_down(i - 1)]. *)
Definition build_heap (o : obj) : result obj :=
  noexcept (
    foldlM (λ o i, heapify_down (SizeT.sub i 1) o) o
      (reverse (seqZ 1 (SizeT.add (SizeT.div (Heap.size o) K) 1)))).
End KHeap.

(** Naming the class [KHeap<K, T, IsAlreadyHeap>] instantiates the default
  template argument [std::enable_if<(K > 2)>::type]. *)
Definition class {T S} (K : Z) : result (heap_class T S) :=
  _ ← enable_if (2 <? K);
  Ok (HeapClass (parent K) (heapify_down K) (build_heap K)).

Definition make_min_k_heap (K : Z) (IsAlreadyHeap : bool) (inputs : list Z)
  : result (object Z unit) :=
  cls ← class K;
  Heap.construct (hc_build_heap cls BinaryHeap.std_greater Heap.base_swap_nodes)
    IsAlreadyHeap () inputs.

Definition make_max_k_heap (K : Z) (IsAlreadyHeap : bool) (inputs : list Z)
  : result (object Z unit) :=
  cls ← class K;
  Heap.construct (hc_build_heap cls BinaryHeap.std_less Heap.base_swap_nodes)
    IsAlreadyHeap () inputs.
End KHeap.

(** ** PriorityQueue.h *)

Module PriorityQueue.
(** [enum class Type]. *)
Inductive Type_ : Set := min_heap | max_heap.

(** Keys are integers, as in the examples of the repository. *)
Abbreviation Key := Z (only parsing).

Section PriorityQueue.
Context `{Countable T}.

Record members : Type := Members {
    key_map : gmap T Key;
    index_map : gmap T Z
  }.

#[local] Abbreviation obj := (object T members).

(** Template arguments and the constructor's comparator factory. *)
Variable Heap : heap_class T members.
Variable IsAlreadyHeap : bool.
Variable HeapType : Type_.
Variable comp_factory : gmap T Key → T → T → result bool.

Definition with_key_map (km : gmap T Key) (o : obj) : obj :=
  Object (nodes o) (Members km (index_map (fields o))).

Definition with_index_map (im : gmap T Z) (o : obj) : obj :=
  Object (nodes o) (Members (key_map (fields o)) im).

(** [this->comp = comp_factory(key_map)]: the closure holds a reference
  to the live [key_map]. *)
Definition comp (s : members) : T → T → result bool := comp_factory (key_map s).

Definition build_key_map (keys : list Key) (node_list : list T) : result (gmap T Key) :=
  _ ← assert (bool_decide (length keys = length node_list));
  Ok (foldl (λ local_key_map '(node, key), <[node := key]> local_key_map) ∅
            (zip node_list keys)).

Definition build_index_map (node_list : list T) : gmap T Z :=
  foldl (λ local_index_map '(index, node), <[node := index]> local_index_map) ∅
        (zip (seqZ 0 (Z.of_nat (length node_list))) node_list).

Definition swap_nodes (i j : Z) (o : obj) : result obj :=
  noexcept (
    node_i ← vector_at (nodes o) i;
    node_j ← vector_at (nodes o) j;
    index_i ← map_at (index_map (fields o)) node_i;
    index_j ← map_at (index_map (fields o)) node_j;
    let swapped := <[node_j := index_i]> (<[node_i := index_j]> (index_map (fields o))) in
    Heap.base_swap_nodes i j (with_index_map swapped o)).

Definition heapify_up : Z → obj → result obj :=
  Heap.heapify_up comp (hc_parent Heap) swap_nodes.

Definition heapify_down : Z → obj → result obj :=
  hc_heapify_down Heap comp swap_nodes.

Definition init (o : obj) : result obj :=
  Heap.init (hc_build_heap Heap comp swap_nodes) IsAlreadyHeap o.

Definition construct (keys : list Key) (inputs : list T) : result obj :=
  km ← build_key_map keys inputs;
  let im := build_index_map inputs in
  init (Object inputs (Members km im)).

Definition size (o : obj) : Z := Heap.size o.

Definition empty (o : obj) : bool := Heap.empty o.

Definition push (key : Key) (element : T) (o : obj) : result obj :=
  let index_to_fix := size o in
  let o1 := with_index_map (<[element := index_to_fix]> (index_map (fields o))) o in
  let o2 := with_key_map (<[element := key]> (key_map (fields o1))) o1 in
  Heap.push comp (hc_parent Heap) swap_nodes element o2.

Definition update_key (key : Key) (element : T) (o : obj) : result obj :=
  index_to_fix ← map_at (index_map (fields o)) element;
  _ ← map_at (key_map (fields o)) element;
  let o1 := with_key_map (<[element := key]> (key_map (fields o))) o in
  match HeapType with
  | min_heap => heapify_up index_to_fix o1
  | max_heap => heapify_down index_to_fix o1
  end.

Definition key_at (element : T) (o : obj) : result Key :=
  map_at (key_map (fields o)) element.

Definition contains (element : T) (o : obj) : bool :=
  bool_decide (is_Some (index_map (fields o) !! element)).

Definition top (o : obj) : result T := Heap.top o.

Definition top_key_value (o : obj) : result (Key * T) :=
  top_value ← Heap.top o;
  top_key ← key_at top_value o;
  Ok (top_key, top_value).

Definition pop (o : obj) : result obj :=
  _ ← assert (0 <? size o);
  node ← vector_at (nodes o) 0;
  let o1 := with_index_map (delete node (index_map (fields o))) o in
  let o2 := with_key_map (delete node (key_map (fields o1))) o1 in
  back ← vector_back (nodes o2);
  v ← vector_set_at (nodes o2) 0 back;
  let o3 := with_nodes (removelast v) o2 in
  if 0 <? size o3 then
    front ← vector_at (nodes o3) 0;
    _ ← map_at (index_map (fields o3)) front;
    let o4 := with_index_map (<[front := 0]> (index_map (fields o3))) o3 in
    heapify_down 0 o4
  else Ok o3.

(** The client loop
  [while (!q.empty()) { kv = q.top_key_value(); q.pop(); }]. *)
Fixpoint drain (fuel : nat) (o : obj) : result (list (Key * T)) :=
  match fuel with
  | O => Fail OutOfFuel
  | Datatypes.S fuel' =>
    if empty o then Ok []
    else
      kv ← top_key_value o;
      o' ← pop o;
      rest ← drain fuel' o';
      Ok (kv :: rest)
  end.

Definition pop_all (o : obj) : result (list (Key * T)) :=
  drain (Datatypes.S (length (nodes o))) o.
End PriorityQueue.

Arguments members T {_ _}.

Definition min_heap_comp_factory `{Countable T} (key_map : gmap T Key) (a b : T)
  : result bool :=
  ka ← map_at key_map a;
  kb ← map_at key_map b;
  Ok (kb <? ka).

Definition max_heap_comp_factory `{Countable T} (key_map : gmap T Key) (a b : T)
  : result bool :=
  ka ← map_at key_map a;
  kb ← map_at key_map b;
  Ok (ka <? kb).

Definition comp_factory_of `{Countable T} (t : Type_) :=
  match t with
  | min_heap => min_heap_comp_factory (T:=T)
  | max_heap => max_heap_comp_factory (T:=T)
  end.

Definition make_min_priority_queue `{Countable T} (IsAlreadyHeap : bool)
    (keys : list Key) (inputs : list T) : result (object T (members T)) :=
  construct BinaryHeap.class IsAlreadyHeap min_heap_comp_factory keys inputs.

Definition make_max_priority_queue `{Countable T} (IsAlreadyHeap : bool)
    (keys : list Key) (inputs : list T) : result (object T (members T)) :=
  construct BinaryHeap.class IsAlreadyHeap max_heap_comp_factory keys inputs.

Definition make_min_k_priority_queue `{Countable T} (K : Z) (IsAlreadyHeap : bool)
    (keys : list Key) (inputs : list T) : result (object T (members T)) :=
  cls ← KHeap.class K;
  construct cls IsAlreadyHeap min_heap_comp_factory keys inputs.

Definition make_max_k_priority_queue `{Countable T} (K : Z) (IsAlreadyHeap : bool)
    (keys : list Key) (inputs : list T) : result (object T (members T)) :=
  cls ← KHeap.class K;
  construct cls IsAlreadyHeap max_heap_comp_factory keys inputs.
End PriorityQueue.

(** * Verification *)

(** ** The result monad *)

Lemma bind_Ok {A B} (m : result A) (k : A → result B) (b : B) :
  m ≫= k = Ok b ↔ ∃ a, m = Ok a ∧ k a = Ok b.
Proof.
  destruct m as [a|f]; simpl; split.
  - eauto.
  - by intros (a' & [= ->] & ?).
  - done.
  - by intros (a' & [=] & ?).
Qed.

Lemma bind_of_Ok {A B} (a : A) (k : A → result B) : Ok a ≫= k = k a.
Proof. done. Qed.

Lemma noexcept_Ok {A} (m : result A) (a : A) : noexcept m = Ok a ↔ m = Ok a.
Proof.
  destruct m as [a'|f]; simpl; [done|].
  destruct (is_exception f); split; done.
Qed.

Lemma noexcept_of_Ok {A} (m : result A) (a : A) : m = Ok a → noexcept m = Ok a.
Proof. by intros ->. Qed.

(** Facts about the result of a closed computation are read off by running
  it, without naming the object it returns. *)
Definition is_Ok {A} (m : result A) : bool :=
  match m with Ok _ => true | Fail _ => false end.

Lemma is_Ok_inv {A} (m : result A) : is_Ok m = true → ∃ a, m = Ok a.
Proof. destruct m as [a|]; [by exists a|done]. Qed.

Lemma eval_Ok {A B} (m : result A) (a : A) (f : A → B) (v : B) :
  m = Ok a → (x ← m; Ok (f x)) = Ok v → f a = v.
Proof. intros ->. simpl. by intros [= ->]. Qed.

Ltac eval_at m q Hq :=
  lazymatch goal with
  | |- ?lhs = ?rhs =>
    let f := eval pattern q in lhs in
    lazymatch f with
    | ?g _ => apply (eval_Ok m q g rhs Hq); vm_compute; reflexivity
    end
  end.

(** ** Vectors *)

Section Vectors.
Context {T : Type}.
Implicit Types (v : list T) (i j k : Z).

Lemma vector_at_Ok v i x :
  vector_at v i = Ok x ↔ 0 ≤ i < Z.of_nat (length v) ∧ v !! Z.to_nat i = Some x.
Proof.
  unfold vector_at.
  destruct (Z.leb_spec 0 i), (Z.ltb_spec i (Z.of_nat (length v))); simpl;
    try (split; [done | lia]).
  destruct (v !! Z.to_nat i) eqn:E; split; try done.
  - intros [= ->]. split; [lia | done].
  - by intros [_ [= ->]].
  - by intros [_ ?].
Qed.

Lemma vector_at_in_range v i : 0 ≤ i < Z.of_nat (length v) → ∃ x, vector_at v i = Ok x.
Proof.
  intros Hi. destruct (lookup_lt_is_Some_2 v (Z.to_nat i)) as [x Hx]; [lia|].
  exists x. by apply vector_at_Ok.
Qed.

Lemma vector_at_range v i x : vector_at v i = Ok x → 0 ≤ i < Z.of_nat (length v).
Proof. by intros [? _]%vector_at_Ok. Qed.

Lemma vector_at_elem_of v i x : vector_at v i = Ok x → x ∈ v.
Proof. intros [_ ?]%vector_at_Ok. by eapply list_elem_of_lookup_2. Qed.

Lemma elem_of_vector_at v x : x ∈ v → ∃ i, vector_at v i = Ok x.
Proof.
  intros [n Hn]%list_elem_of_lookup_1. exists (Z.of_nat n).
  apply vector_at_Ok. rewrite Nat2Z.id. split; [|done].
  apply lookup_lt_Some in Hn. lia.
Qed.

(** The effect of [std::swap(v.at(i), v.at(j))] on the sequence. *)
Definition exchange v i j : list T :=
  match v !! Z.to_nat i, v !! Z.to_nat j with
  | Some x, Some y => <[Z.to_nat j := x]> (<[Z.to_nat i := y]> v)
  | _, _ => v
  end.

Lemma length_exchange v i j : length (exchange v i j) = length v.
Proof.
  unfold exchange. destruct (v !! Z.to_nat i), (v !! Z.to_nat j); try done.
  by rewrite !length_insert.
Qed.

Lemma vector_at_exchange v i j k :
  0 ≤ i < Z.of_nat (length v) → 0 ≤ j < Z.of_nat (length v) →
  vector_at (exchange v i j) k =
    if decide (k = i) then vector_at v j
    else if decide (k = j) then vector_at v i
    else vector_at v k.
Proof.
  intros Hi Hj.
  destruct (vector_at_in_range v i Hi) as [x Hx].
  destruct (vector_at_in_range v j Hj) as [y Hy].
  pose proof Hx as [_ Hx']%vector_at_Ok. pose proof Hy as [_ Hy']%vector_at_Ok.
  unfold exchange. rewrite Hx', Hy'.
  unfold vector_at at 1. rewrite !length_insert.
  destruct (decide (k = i)) as [->|Hki].
  - rewrite Hy. destruct (Z.leb_spec 0 i), (Z.ltb_spec i (Z.of_nat (length v))); try lia.
    simpl. destruct (decide (i = j)) as [->|Hij].
    + rewrite list_lookup_insert_eq by (rewrite length_insert; lia). congruence.
    + rewrite list_lookup_insert_ne by lia.
      by rewrite list_lookup_insert_eq by lia.
  - destruct (decide (k = j)) as [->|Hkj].
    + rewrite Hx. destruct (Z.leb_spec 0 j), (Z.ltb_spec j (Z.of_nat (length v))); try lia.
      simpl. by rewrite list_lookup_insert_eq by (rewrite length_insert; lia).
    + unfold vector_at.
      destruct (Z.leb_spec 0 k), (Z.ltb_spec k (Z.of_nat (length v))); simpl; try done.
      by rewrite !list_lookup_insert_ne by lia.
Qed.

Lemma exchange_Permutation v i j : exchange v i j ≡ₚ v.
Proof.
  unfold exchange.
  destruct (v !! Z.to_nat i) as [x|] eqn:Hx; [|done].
  destruct (v !! Z.to_nat j) as [y|] eqn:Hy; [|done].
  pose proof (lookup_lt_Some _ _ _ Hx). pose proof (lookup_lt_Some _ _ _ Hy).
  set (a := Z.to_nat i) in *. set (b := Z.to_nat j) in *.
  apply Permutation_inj. split; [by rewrite !length_insert|].
  exists (λ n, if decide (n = a) then b else if decide (n = b) then a else n).
  split.
  - intros n m. repeat case_decide; lia.
  - intros n. destruct (decide (n = b)) as [->|Hnb].
    + rewrite list_lookup_insert_eq by (rewrite length_insert; lia).
      repeat case_decide; subst; congruence.
    + rewrite list_lookup_insert_ne by done.
      destruct (decide (n = a)) as [->|Hna].
      * rewrite list_lookup_insert_eq by lia. congruence.
      * by rewrite list_lookup_insert_ne.
Qed.

Lemma exchange_same v i : exchange v i i = v.
Proof.
  unfold exchange. destruct (v !! Z.to_nat i) as [x|] eqn:Hx; [|done].
  rewrite list_insert_insert_eq. by apply list_insert_id.
Qed.
End Vectors.

(** ** Index arithmetic without overflow *)

Lemma wrap_small z : 0 ≤ z < SizeT.modulus → SizeT.wrap z = z.
Proof. intros. unfold SizeT.wrap. by apply Z.mod_small. Qed.

Lemma modulus_eq : SizeT.modulus = 18446744073709551616.
Proof. reflexivity. Qed.

Lemma max_size_eq : max_size = 9223372036854775807.
Proof. reflexivity. Qed.

Lemma shr_1 z : SizeT.shr z 1 = z / 2.
Proof. unfold SizeT.shr. by rewrite Z.shiftr_div_pow2. Qed.

Lemma shl_1 z : 0 ≤ 2 * z < SizeT.modulus → SizeT.shl z 1 = 2 * z.
Proof.
  intros. unfold SizeT.shl. rewrite Z.shiftl_mul_pow2 by lia.
  rewrite wrap_small; lia.
Qed.

Ltac div_lia := Z.div_mod_to_equations; lia.

Ltac size_t_simpl :=
  unfold SizeT.add, SizeT.sub, SizeT.mul, SizeT.div;
  rewrite ?shr_1;
  repeat first
    [ rewrite shl_1 by (rewrite ?modulus_eq, ?max_size_eq in *; lia)
    | rewrite wrap_small by (rewrite ?modulus_eq, ?max_size_eq in *; lia) ].

Module BinaryIndex.
Import BinaryHeap.

Lemma left_exact i : 0 ≤ i ≤ max_size → left i = 2 * i + 1.
Proof. intros. unfold left. by size_t_simpl. Qed.

Lemma right_exact i : 0 ≤ i < max_size → right i = 2 * i + 2.
Proof. intros. unfold right. by size_t_simpl. Qed.

Lemma parent_exact i : 0 < i < SizeT.modulus → parent i = (i - 1) / 2.
Proof. intros. unfold parent. by size_t_simpl. Qed.

Lemma parent_root : parent 0 = max_size.
Proof. reflexivity. Qed.

Lemma is_leaf_exact {T S} (o : object T S) i :
  Heap.size o ≤ max_size → is_leaf o i = (Heap.size o / 2 + 1 <=? i).
Proof.
  intros. unfold is_leaf. assert (0 ≤ Heap.size o) by (unfold Heap.size; lia).
  assert (0 ≤ Heap.size o / 2 ≤ Heap.size o) by div_lia.
  by size_t_simpl.
Qed.

Lemma parent_lt i : 0 < i < SizeT.modulus → 0 ≤ parent i < i.
Proof. intros. rewrite parent_exact by done. div_lia. Qed.

Lemma parent_left i : 0 ≤ i < max_size → parent (left i) = i.
Proof.
  intros. rewrite left_exact by lia.
  rewrite parent_exact by (rewrite ?modulus_eq, ?max_size_eq in *; lia). div_lia.
Qed.

Lemma parent_right i : 0 ≤ i < max_size → parent (right i) = i.
Proof.
  intros. rewrite right_exact by lia.
  rewrite parent_exact by (rewrite ?modulus_eq, ?max_size_eq in *; lia). div_lia.
Qed.

Lemma children c i :
  0 < c < SizeT.modulus → 0 ≤ i < max_size → parent c = i → c = left i ∨ c = right i.
Proof.
  intros Hc Hi. rewrite parent_exact, left_exact, right_exact by lia. div_lia.
Qed.
End BinaryIndex.

Module KIndex.
Import KHeap.
Section KIndex.
Variable K : Z.
Hypothesis K_arity : 2 < K < SizeT.modulus.

Lemma k_parent_exact i : 0 < i < SizeT.modulus → parent K i = (i - 1) / K.
Proof. intros. unfold parent. by size_t_simpl. Qed.

Lemma k_parent_lt i : 0 < i < SizeT.modulus → 0 ≤ parent K i < i.
Proof.
  intros. rewrite k_parent_exact by done. split.
  - apply Z.div_pos; lia.
  - apply Z.div_lt_upper_bound; nia.
Qed.

Lemma child_exact i j :
  0 ≤ i → 0 ≤ j → K * i + j + 1 < SizeT.modulus → child K i j = K * i + j + 1.
Proof.
  intros. unfold child, SizeT.add, SizeT.mul. assert (0 ≤ K * i) by nia.
  rewrite (wrap_small (K * i)) by lia.
  rewrite (wrap_small (K * i + j)) by lia.
  by rewrite wrap_small by lia.
Qed.

Lemma parent_child i j :
  0 ≤ i → 0 ≤ j < K → K * i + j + 1 < SizeT.modulus → parent K (child K i j) = i.
Proof.
  intros. rewrite child_exact by lia. rewrite k_parent_exact by nia.
  replace (K * i + j + 1 - 1) with (i * K + j) by lia.
  rewrite Z.div_add_l by lia. rewrite Z.div_small by lia. lia.
Qed.

Lemma k_is_leaf_exact {T S} (o : object T S) i :
  2 ≤ Heap.size o ≤ max_size → is_leaf K o i = ((Heap.size o - 2) / K <? i).
Proof. intros. unfold is_leaf. by size_t_simpl. Qed.

(** Below two elements the subtraction wraps around, and the root is not
  classified as a leaf. *)
Lemma is_leaf_wrapped {T S} (o : object T S) i :
  Heap.size o < 2 → i ≤ 0 → is_leaf K o i = false.
Proof.
  intros. unfold is_leaf. assert (0 ≤ Heap.size o) by (unfold Heap.size; lia).
  unfold SizeT.sub, SizeT.div, SizeT.wrap.
  replace (Heap.size o - 2) with (Heap.size o + SizeT.modulus - 2 + (-1) * SizeT.modulus) by lia.
  rewrite modulus_eq in *.
  rewrite Z.mod_add by lia.
  generalize dependent (Heap.size o). intros n ? ?.
  rewrite Z.mod_small by lia.
  apply Z.ltb_ge.
  assert (0 ≤ (n + 18446744073709551616 - 2) / K); [|lia].
  apply Z.div_pos; lia.
Qed.
End KIndex.
End KIndex.

(** ** The heap property *)

(** The comparators of the library are strict weak orders. *)
Record strict_weak_order {T} (cmp : T → T → bool) : Prop := {
  swo_asym : ∀ a b, cmp a b = true → cmp b a = false;
  swo_negtrans : ∀ a b c, cmp a b = false → cmp b c = false → cmp a c = false
}.

Section HeapOrder.
Context {T : Type}.
Variable parent : Z → Z.
Variable cmp : T → T → bool.
Implicit Types (v : list T) (c i m : Z).

(** For every non-root index [c], [comp(nodes[parent(c)], nodes[c])] is
  false. *)
Definition heap_ordered v : Prop :=
  ∀ c x y, 0 < c → vector_at v c = Ok x → vector_at v (parent c) = Ok y →
           cmp y x = false.

(** The same, for the edges whose upper end is at index [b] or below it
  in the tree. *)
Definition heap_from b v : Prop :=
  ∀ c x y, 0 < c → b ≤ parent c →
           vector_at v c = Ok x → vector_at v (parent c) = Ok y → cmp y x = false.

(** The element at [m] is not displaced by the one at [i] nor by a child
  of [i]. *)
Definition best v i m : Prop :=
  ∀ c x y, c = i ∨ (0 < c ∧ parent c = i) →
           vector_at v c = Ok x → vector_at v m = Ok y → cmp y x = false.

Definition grand_ok b v i : Prop :=
  ∀ c x y, 0 < i → b ≤ parent i → 0 < c → parent c = i →
           vector_at v c = Ok x → vector_at v (parent i) = Ok y → cmp y x = false.

(** Every edge is in order except, possibly, the one above [i]. *)
Definition up_inv v i : Prop :=
  (∀ c x y, 0 < c → c ≠ i →
            vector_at v c = Ok x → vector_at v (parent c) = Ok y → cmp y x = false)
  ∧ grand_ok 0 v i.

(** Every edge from [b] on is in order except, possibly, those below [i]. *)
Definition down_inv b v i : Prop :=
  (∀ c x y, 0 < c → b ≤ parent c → parent c ≠ i →
            vector_at v c = Ok x → vector_at v (parent c) = Ok y → cmp y x = false)
  ∧ grand_ok b v i.

Lemma heap_from_0 v : heap_from 0 v ↔ heap_ordered v.
Proof.
  split; intros Hh c x y Hc.
  - intros Hx Hy. eapply Hh; eauto. by apply vector_at_range in Hy as [? _].
  - intros _. by apply Hh.
Qed.

Hypothesis parent_lt : ∀ c, 0 < c < SizeT.modulus → 0 ≤ parent c < c.
Hypothesis cmp_swo : strict_weak_order cmp.

Lemma cmp_irrefl a : cmp a a = false.
Proof. destruct (cmp a a) eqn:E; [|done]. by rewrite (swo_asym _ cmp_swo a a E) in E. Qed.

Section Bounded.
Variable v : list T.
Hypothesis v_bounded : Z.of_nat (length v) ≤ max_size.

Lemma in_range_lt_modulus c x : vector_at v c = Ok x → c < SizeT.modulus.
Proof. intros ?%vector_at_range. rewrite modulus_eq, max_size_eq in *. lia. Qed.

Lemma parent_below c x : 0 < c → vector_at v c = Ok x → 0 ≤ parent c < c.
Proof. intros ? ?%in_range_lt_modulus. apply parent_lt. lia. Qed.

Lemma up_inv_root : up_inv v 0 → heap_ordered v.
Proof. intros [He _] c x y Hc. apply He; lia. Qed.

Lemma up_inv_stop i a b :
  vector_at v (parent i) = Ok a → vector_at v i = Ok b → cmp a b = false →
  up_inv v i → heap_ordered v.
Proof.
  intros Ha Hb Hab [He _] c x y Hc Hx Hy.
  destruct (decide (c = i)) as [->|]; [congruence|]. by eapply He.
Qed.

Lemma up_inv_step i a b :
  0 < i → vector_at v (parent i) = Ok a → vector_at v i = Ok b → cmp a b = true →
  up_inv v i → up_inv (exchange v i (parent i)) (parent i).
Proof.
  intros Hi Ha Hb Hab [He Hg].
  pose proof (parent_below i b Hi Hb) as Hp.
  pose proof (vector_at_range _ _ _ Ha) as Hra.
  pose proof (vector_at_range _ _ _ Hb) as Hrb.
  pose proof (swo_asym _ cmp_swo _ _ Hab) as Hba.
  split.
  - intros c x y Hc Hcp Hx Hy.
    assert (0 ≤ parent c < c) as Hpc.
    { apply parent_lt. apply vector_at_range in Hx. rewrite length_exchange in Hx.
      rewrite modulus_eq, max_size_eq in *. lia. }
    rewrite vector_at_exchange in Hx, Hy by done.
    destruct (decide (c = i)) as [->|Hci].
    + rewrite decide_False, decide_True in Hy by lia. congruence.
    + rewrite decide_False in Hx by done.
      destruct (decide (parent c = i)) as [Hq|Hq].
      * eapply (Hg c x y); eauto; lia.
      * destruct (decide (parent c = parent i)) as [Hq'|Hq'].
        -- apply (swo_negtrans _ cmp_swo _ a); [congruence|].
           eapply (He c); eauto. congruence.
        -- by eapply (He c).
  - intros c x y Hp0 _ Hc Hcp Hx Hy.
    assert (0 ≤ parent (parent i) < parent i) as Hpp.
    { apply parent_lt. rewrite modulus_eq, max_size_eq in *. lia. }
    assert (0 ≤ parent c < c) as Hpc.
    { apply parent_lt. apply vector_at_range in Hx. rewrite length_exchange in Hx.
      rewrite modulus_eq, max_size_eq in *. lia. }
    rewrite vector_at_exchange in Hx, Hy by done.
    rewrite !decide_False in Hy by lia.
    assert (cmp y a = false) as Hya by (eapply (He (parent i)); eauto; lia).
    destruct (decide (c = i)) as [->|Hci]; [congruence|].
    rewrite decide_False in Hx by lia.
    apply (swo_negtrans _ cmp_swo _ a); [done|].
    eapply (He c); eauto. congruence.
Qed.

Lemma down_inv_leaf b i :
  (∀ c x, 0 < c → parent c = i → vector_at v c ≠ Ok x) →
  down_inv b v i → heap_from b v.
Proof.
  intros Hleaf [He _] c x y Hc Hb Hx Hy.
  destruct (decide (parent c = i)) as [Hq|Hq]; [by destruct (Hleaf c x)|].
  by eapply He.
Qed.

Lemma down_inv_stop b i : best v i i → down_inv b v i → heap_from b v.
Proof.
  intros Hbest [He _] c x y Hc Hb Hx Hy.
  destruct (decide (parent c = i)) as [Hq|Hq].
  - eapply (Hbest c); eauto. congruence.
  - by eapply He.
Qed.

Lemma down_inv_step b i m :
  0 ≤ i → b ≤ i → i < m < Z.of_nat (length v) → parent m = i → best v i m →
  down_inv b v i → down_inv b (exchange v i m) m.
Proof.
  intros Hi Hbi Hm Hpm Hbest [He Hg].
  destruct (vector_at_in_range v m) as [xm Hxm]; [lia|].
  destruct (vector_at_in_range v i) as [xi Hxi]; [lia|].
  split.
  - intros c x y Hc Hb Hcm Hx Hy.
    assert (0 ≤ parent c < c) as Hpc.
    { apply parent_lt. apply vector_at_range in Hx. rewrite length_exchange in Hx.
      rewrite modulus_eq, max_size_eq in *. lia. }
    rewrite vector_at_exchange in Hx, Hy by lia.
    destruct (decide (c = i)) as [->|Hci].
    + rewrite !decide_False in Hy by lia.
      eapply (Hg m x y); eauto; lia.
    + destruct (decide (c = m)) as [->|Hcm'].
      * rewrite Hpm, decide_True in Hy by done.
        eapply (Hbest i); eauto.
      * destruct (decide (parent c = i)) as [Hq|Hq].
        -- eapply (Hbest c); eauto.
        -- rewrite decide_False in Hy by done. by eapply (He c).
  - intros c x y Hm0 _ Hc Hcm Hx Hy.
    assert (0 ≤ parent c < c) as Hpc.
    { apply parent_lt. apply vector_at_range in Hx. rewrite length_exchange in Hx.
      rewrite modulus_eq, max_size_eq in *. lia. }
    rewrite vector_at_exchange in Hx, Hy by lia.
    rewrite Hpm, decide_True in Hy by done.
    rewrite !decide_False in Hx by lia.
    eapply (He c); eauto; try lia. congruence.
Qed.
End Bounded.
End HeapOrder.

(** The heap property as a check that runs. *)
Definition heap_orderedb {T} (parent : Z → Z) (cmp : T → T → bool) (v : list T) : bool :=
  forallb (λ c, match vector_at v c, vector_at v (parent c) with
                | Ok x, Ok y => negb (cmp y x)
                | _, _ => true
                end)
          (seqZ 1 (Z.of_nat (length v) - 1)).

Lemma heap_orderedb_spec {T} (parent : Z → Z) (cmp : T → T → bool) (v : list T) :
  heap_orderedb parent cmp v = true ↔ heap_ordered parent cmp v.
Proof.
  unfold heap_orderedb. rewrite forallb_forall. split.
  - intros Hall c x y Hc Hx Hy.
    pose proof (vector_at_range _ _ _ Hx) as Hr.
    specialize (Hall c). rewrite Hx, Hy in Hall.
    apply negb_true_iff, Hall, list_elem_of_In, elem_of_seqZ. lia.
  - intros Hh c Hin%list_elem_of_In%elem_of_seqZ.
    destruct (vector_at v c) as [x|] eqn:Hx; [|done].
    destruct (vector_at v (parent c)) as [y|] eqn:Hy; [|done].
    apply negb_true_iff. apply (Hh c x y); [lia|done..].
Qed.

(** In an ordered heap nothing displaces the root. *)
Lemma heap_root_best {T} (parent : Z → Z) (cmp : T → T → bool) (v : list T) :
  (∀ c, 0 < c < SizeT.modulus → 0 ≤ parent c < c) →
  strict_weak_order cmp → Z.of_nat (length v) ≤ max_size →
  heap_ordered parent cmp v →
  ∀ c x r, vector_at v c = Ok x → vector_at v 0 = Ok r → cmp r x = false.
Proof.
  intros Hpar Hswo Hmax Hh c x r Hx Hr.
  assert (0 ≤ c) as Hc by (by apply vector_at_range in Hx as [? _]).
  revert x Hx. pattern c. apply (Zlt_0_ind _); [|done]. clear c Hc.
  intros c IH Hc x Hx.
  destruct (decide (c = 0)) as [->|Hc0].
  { rewrite Hx in Hr. simplify_eq. by apply cmp_irrefl. }
  pose proof (vector_at_range _ _ _ Hx) as Hrange.
  assert (0 ≤ parent c < c) as Hp
    by (apply Hpar; rewrite modulus_eq, max_size_eq in *; lia).
  destruct (vector_at_in_range v (parent c)) as [y Hy]; [lia|].
  apply (swo_negtrans _ Hswo _ y).
  - apply (IH (parent c)); [lia|done].
  - apply (Hh c x y); [lia|done..].
Qed.

(** ** The generic repair loops *)

(** The algorithms of [Heap] reach the most derived class only through the
  comparator and the swap hook.  [hooks_ok] is what they rely on: on the
  objects described by [P], comparing two stored elements never faults
  and agrees with a pure comparison [cmp], and the hook exchanges the two
  positions and re-establishes [P]. *)
Section Hooks.
Context {T S : Type}.
#[local] Abbreviation obj := (object T S).
Variable comp : S → T → T → result bool.
Variable swap_nodes : Z → Z → obj → result obj.
Variable P : obj → Prop.
Variable cmp : T → T → bool.

Record hooks_ok : Prop := {
    hooks_comp : ∀ o i j a b,
      P o → vector_at (nodes o) i = Ok a → vector_at (nodes o) j = Ok b →
      comp (fields o) a b = Ok (cmp a b);
    hooks_swap : ∀ o i j,
      P o → 0 ≤ i < Heap.size o → 0 ≤ j < Heap.size o → i ≠ j →
      ∃ o', swap_nodes i j o = Ok o' ∧ P o' ∧ nodes o' = exchange (nodes o) i j
  }.

(** The call returns an object that satisfies [P], stores the same
  elements, and satisfies [Q]. *)
Definition sifts (o : obj) (m : result obj) (Q : obj → Prop) : Prop :=
  ∃ o', m = Ok o' ∧ P o' ∧ nodes o' ≡ₚ nodes o ∧ Q o'.

Lemma sifts_noexcept o m Q : sifts o m Q → sifts o (noexcept m) Q.
Proof. intros (o' & -> & ?). by exists o'. Qed.

Lemma sifts_size o m Q :
  sifts o m Q → sifts o m (λ o', Heap.size o' = Heap.size o ∧ Q o').
Proof.
  intros (o' & -> & ? & Hp & ?). exists o'. repeat split; try done.
  unfold Heap.size. by rewrite Hp.
Qed.

Hypothesis hooks : hooks_ok.

Section Up.
Variable parent : Z → Z.
Hypothesis parent_lt : ∀ c, 0 < c < SizeT.modulus → 0 ≤ parent c < c.

Lemma heapify_up_loop_sifts fuel : ∀ i o,
  P o → Heap.size o ≤ max_size → 0 ≤ i → i < Heap.size o ∨ i = 0 →
  (Z.to_nat i < fuel)%nat →
  sifts o (Heap.heapify_up_loop comp parent swap_nodes fuel i o)
    (λ o', strict_weak_order cmp → up_inv parent cmp (nodes o) i →
           heap_ordered parent cmp (nodes o')).
Proof.
  induction fuel as [|fuel IH]; intros i o HP Hmax Hi Hrange Hfuel; [lia|].
  simpl. destruct (Z.ltb_spec 0 i) as [Hpos|Hz].
  - assert (0 ≤ parent i < i) as Hp.
    { apply parent_lt. unfold Heap.size in *. rewrite modulus_eq, max_size_eq in *. lia. }
    unfold Heap.size in *.
    destruct (vector_at_in_range (nodes o) (parent i)) as [a Ha]; [lia|].
    destruct (vector_at_in_range (nodes o) i) as [b Hb]; [lia|].
    rewrite Ha, Hb. simpl.
    rewrite (hooks_comp hooks o _ _ a b HP Ha Hb). simpl.
    destruct (cmp a b) eqn:Hab.
    + destruct (hooks_swap hooks o i (parent i) HP) as (o1 & -> & HP1 & Hn1);
        [unfold Heap.size; lia..|].
      simpl.
      assert (length (nodes o1) = length (nodes o)) as Hlen
        by (by rewrite Hn1, length_exchange).
      destruct (IH (parent i) o1) as (o' & -> & HP' & Hperm & Hheap);
        [done|unfold Heap.size; lia|lia|unfold Heap.size; lia|lia|].
      exists o'. repeat split; [done|..].
      * by rewrite Hperm, Hn1, exchange_Permutation.
      * intros Hswo Hinv. apply Hheap; [done|]. rewrite Hn1.
        by eapply up_inv_step.
    + exists o. repeat split; [done..|].
      intros Hswo Hinv. eapply up_inv_stop; eauto.
  - exists o. repeat split; [done..|].
    intros Hswo Hinv. assert (i = 0) as -> by lia.
    by apply up_inv_root.
Qed.

Lemma heapify_up_sifts i o :
  P o → Heap.size o ≤ max_size → 0 ≤ i → i < Heap.size o ∨ i = 0 →
  sifts o (Heap.heapify_up comp parent swap_nodes i o)
    (λ o', strict_weak_order cmp → up_inv parent cmp (nodes o) i →
           heap_ordered parent cmp (nodes o')).
Proof.
  intros. apply sifts_noexcept, heapify_up_loop_sifts; auto; lia.
Qed.
End Up.

(** The common shape of [BinaryHeap::heapify_down] and
  [KHeap::heapify_down]: a leaf test and a selection of the position
  that takes the place of [i]. *)
Section Down.
Variable parent : Z → Z.
Variable is_leaf : obj → Z → bool.
Variable select : Z → Z → obj → result Z.
Hypothesis parent_lt : ∀ c, 0 < c < SizeT.modulus → 0 ≤ parent c < c.

Fixpoint sift_down_loop (fuel : nat) (len i : Z) (o : obj) : result obj :=
  match fuel with
  | O => Fail OutOfFuel
  | Datatypes.S fuel' =>
    if is_leaf o i then Ok o
    else
      m ← select len i o;
      if i =? m then Ok o
      else
        o' ← swap_nodes i m o;
        sift_down_loop fuel' len m o'
  end.

Hypothesis leaf_ok : ∀ o i c x,
  Heap.size o ≤ max_size → 0 ≤ i → is_leaf o i = true →
  0 < c → parent c = i → vector_at (nodes o) c ≠ Ok x.
Hypothesis select_ok : ∀ o i,
  P o → Heap.size o ≤ max_size → 0 ≤ i → i < Heap.size o ∨ i = 0 →
  is_leaf o i = false →
  ∃ m, select (Heap.size o) i o = Ok m
     ∧ (m = i ∨ (i < m < Heap.size o ∧ parent m = i))
     ∧ (heap_ordered parent cmp (nodes o) → m = i)
     ∧ (strict_weak_order cmp → best parent cmp (nodes o) i m).

Lemma sift_down_loop_sifts b fuel : ∀ i o,
  P o → Heap.size o ≤ max_size → 0 ≤ i → i < Heap.size o ∨ i = 0 →
  (Z.to_nat (Heap.size o - i) < fuel)%nat →
  sifts o (sift_down_loop fuel (Heap.size o) i o)
    (λ o', (heap_ordered parent cmp (nodes o) → o' = o)
         ∧ (strict_weak_order cmp → b ≤ i → down_inv parent cmp b (nodes o) i →
            heap_from parent cmp b (nodes o'))).
Proof.
  induction fuel as [|fuel IH]; intros i o HP Hmax Hi Hrange Hfuel; [lia|].
  simpl. destruct (is_leaf o i) eqn:Hleaf.
  { exists o. repeat split; [done..|].
    intros Hswo Hb Hinv. eapply down_inv_leaf; eauto. }
  destruct (select_ok o i) as (m & -> & Hm & Hid & Hbest); [done..|]. simpl.
  destruct (Z.eqb_spec i m) as [<-|Hne].
  { exists o. repeat split; [done..|].
    intros Hswo Hb Hinv. eapply down_inv_stop; eauto. }
  destruct Hm as [->|[Hm Hpm]]; [done|].
  destruct (hooks_swap hooks o i m HP) as (o1 & -> & HP1 & Hn1); [lia..|].
  simpl.
  assert (Heap.size o1 = Heap.size o) as Hsize
    by (unfold Heap.size; by rewrite Hn1, length_exchange).
  destruct (IH m o1) as (o' & Ho' & HP' & Hperm & Hid' & Hheap);
    [done|lia|lia|lia|lia|].
  rewrite Hsize in Ho'. rewrite Ho'.
  exists o'. repeat split; [done|..].
  - by rewrite Hperm, Hn1, exchange_Permutation.
  - intros Hh. apply Hid in Hh. lia.
  - intros Hswo Hb Hinv. apply Hheap; [done|lia|]. rewrite Hn1.
    eapply down_inv_step; eauto; unfold Heap.size in *; lia.
Qed.
End Down.
End Hooks.

(** ** What a concrete heap class guarantees *)

(** [class_ok cls]: for every most derived class with sound hooks, the
  overrides of [cls] return, keep [P] and the stored elements, leave an
  ordered heap untouched, and repair the order below the index they are
  given. *)
Record class_ok {T S} (cls : heap_class T S) : Prop := {
  class_parent_lt : ∀ c, 0 < c < SizeT.modulus → 0 ≤ hc_parent cls c < c;
  class_heapify_down : ∀ comp swap_nodes P cmp,
    hooks_ok comp swap_nodes P cmp →
    ∀ b i o, P o → Heap.size o ≤ max_size → 0 ≤ i → i < Heap.size o ∨ i = 0 →
    sifts P o (hc_heapify_down cls comp swap_nodes i o)
      (λ o', (heap_ordered (hc_parent cls) cmp (nodes o) → o' = o)
           ∧ (strict_weak_order cmp → b ≤ i →
              down_inv (hc_parent cls) cmp b (nodes o) i →
              heap_from (hc_parent cls) cmp b (nodes o')));
  class_build_heap : ∀ comp swap_nodes P cmp,
    hooks_ok comp swap_nodes P cmp →
    ∀ o, P o → Heap.size o ≤ max_size →
    sifts P o (hc_build_heap cls comp swap_nodes o)
      (λ o', (heap_ordered (hc_parent cls) cmp (nodes o) → o' = o)
           ∧ (strict_weak_order cmp → heap_ordered (hc_parent cls) cmp (nodes o')))
}.

(** ** BinaryHeap *)

Module BinaryProofs.
Import BinaryHeap BinaryIndex.
Section BinaryProofs.
Context {T S : Type}.
#[local] Abbreviation obj := (object T S).
Variable comp : S → T → T → result bool.
Variable swap_nodes : Z → Z → obj → result obj.
Variable P : obj → Prop.
Variable cmp : T → T → bool.
Hypothesis hooks : hooks_ok comp swap_nodes P cmp.

(** The two guarded comparisons of one iteration. *)
Definition select (len i : Z) (o : obj) : result Z :=
  comp_est ← challenge comp len o i (left i);
  challenge comp len o comp_est (right i).

Lemma heapify_down_loop_shape fuel : ∀ len i o,
  heapify_down_loop comp swap_nodes fuel len i o =
  sift_down_loop swap_nodes is_leaf select fuel len i o.
Proof.
  induction fuel as [|fuel IH]; intros len i o; [done|].
  simpl. destruct (is_leaf o i); [done|]. unfold select.
  destruct (challenge comp len o i (left i)) as [c1|]; simpl; [|done].
  destruct (challenge comp len o c1 (right i)) as [c2|]; simpl; [|done].
  destruct (i =? c2); [done|].
  destruct (swap_nodes i c2 o); simpl; [|done]. apply IH.
Qed.

Lemma challenge_in o c k a b :
  P o → k < Heap.size o →
  vector_at (nodes o) c = Ok a → vector_at (nodes o) k = Ok b →
  challenge comp (Heap.size o) o c k = Ok (if cmp a b then k else c).
Proof.
  intros HP Hk Ha Hb. unfold challenge.
  destruct (Z.ltb_spec k (Heap.size o)); [|lia].
  rewrite Ha, Hb. simpl. by rewrite (hooks_comp _ _ _ _ hooks o _ _ a b HP Ha Hb).
Qed.

Lemma challenge_out o c k :
  Heap.size o ≤ k → challenge comp (Heap.size o) o c k = Ok c.
Proof. intros. unfold challenge. by destruct (Z.ltb_spec k (Heap.size o)); [lia|]. Qed.

Lemma leaf_ok (o : obj) i c x :
  Heap.size o ≤ max_size → 0 ≤ i → is_leaf o i = true →
  0 < c → parent c = i → vector_at (nodes o) c ≠ Ok x.
Proof.
  intros Hmax Hi Hleaf Hc Hpc Hx%vector_at_range.
  rewrite is_leaf_exact in Hleaf by done. apply Z.leb_le in Hleaf.
  unfold Heap.size in *.
  rewrite parent_exact in Hpc by (rewrite modulus_eq, max_size_eq in *; lia).
  div_lia.
Qed.

Ltac order_facts Hswo :=
  repeat match goal with
  | H : cmp ?a ?b = true |- _ =>
    lazymatch goal with
    | _ : cmp b a = false |- _ => fail
    | _ => pose proof (swo_asym _ Hswo _ _ H)
    end
  end;
  pose proof (cmp_irrefl cmp Hswo);
  pose proof (swo_negtrans _ Hswo).

(** Settles [best] once the candidates are known: the position compared
  is [i] or one of its two children. *)
Ltac best_cases Hkids :=
  let Hswo := fresh "Hswo" in
  intros Hswo c x y Hc Hx Hy; order_facts Hswo;
  (destruct Hc as [->|[Hc Hpc]];
    [|destruct (Hkids c x Hc Hpc Hx) as [->| ->]]);
  try (apply vector_at_range in Hx; unfold Heap.size in *; lia);
  repeat match goal with
  | H1 : vector_at ?v ?k = Ok ?a, H2 : vector_at ?v ?k = Ok ?b |- _ =>
    rewrite H1 in H2; simplify_eq
  end;
  eauto.

Lemma select_ok o i :
  P o → Heap.size o ≤ max_size → 0 ≤ i → i < Heap.size o ∨ i = 0 →
  is_leaf o i = false →
  ∃ m, select (Heap.size o) i o = Ok m
     ∧ (m = i ∨ (i < m < Heap.size o ∧ parent m = i))
     ∧ (heap_ordered parent cmp (nodes o) → m = i)
     ∧ (strict_weak_order cmp → best parent cmp (nodes o) i m).
Proof.
  intros HP Hmax Hi _ Hleaf.
  rewrite is_leaf_exact in Hleaf by done. apply Z.leb_gt in Hleaf.
  assert (0 ≤ Heap.size o) as Hsz by (unfold Heap.size; lia).
  assert (i < max_size) as Hi' by (rewrite max_size_eq in *; div_lia).
  pose proof (left_exact i ltac:(lia)) as Hl.
  pose proof (right_exact i ltac:(lia)) as Hr.
  pose proof (parent_left i ltac:(lia)) as Hpl.
  pose proof (parent_right i ltac:(lia)) as Hpr.
  assert (∀ c x, 0 < c → parent c = i → vector_at (nodes o) c = Ok x →
                 c = left i ∨ c = right i) as Hkids.
  { intros c x Hc Hpc Hx%vector_at_range. apply children; [|lia|done].
    unfold Heap.size in *. rewrite modulus_eq, max_size_eq in *. lia. }
  unfold select.
  destruct (Z.lt_ge_cases (left i) (Heap.size o)) as [Hlin|Hlout].
  - destruct (vector_at_in_range (nodes o) i) as [xi Hxi]; [unfold Heap.size in *; lia|].
    destruct (vector_at_in_range (nodes o) (left i)) as [xl Hxl];
      [unfold Heap.size in *; lia|].
    rewrite (challenge_in o i (left i) xi xl) by done. simpl.
    destruct (Z.lt_ge_cases (right i) (Heap.size o)) as [Hrin|Hrout].
    + destruct (vector_at_in_range (nodes o) (right i)) as [xr Hxr];
        [unfold Heap.size in *; lia|].
      destruct (cmp xi xl) eqn:Hil.
      * rewrite (challenge_in o (left i) (right i) xl xr) by done.
        destruct (cmp xl xr) eqn:Hlr; eexists; (split; [done|]);
          (split; [right; lia|]); (split; [intros Hh; specialize (Hh (left i) xl xi);
            rewrite Hpl in Hh; rewrite Hh in Hil by (done || lia); done|]);
          best_cases Hkids.
      * rewrite (challenge_in o i (right i) xi xr) by done.
        destruct (cmp xi xr) eqn:Hir; eexists; (split; [done|]).
        -- split; [right; lia|].
           split; [intros Hh; specialize (Hh (right i) xr xi);
             rewrite Hpr in Hh; rewrite Hh in Hir by (done || lia); done|].
           best_cases Hkids.
        -- split; [by left|]. split; [done|].
           best_cases Hkids.
    + rewrite challenge_out by done.
      destruct (cmp xi xl) eqn:Hil; eexists; (split; [done|]).
      * split; [right; lia|].
        split; [intros Hh; specialize (Hh (left i) xl xi);
          rewrite Hpl in Hh; rewrite Hh in Hil by (done || lia); done|].
        best_cases Hkids.
      * split; [by left|]. split; [done|].
        best_cases Hkids.
  - rewrite challenge_out by done. simpl. rewrite challenge_out by lia.
    eexists. split; [done|]. split; [by left|]. split; [done|].
    best_cases Hkids.
Qed.
End BinaryProofs.
End BinaryProofs.

(** ** The bottom-up build, for any arity *)

Section BuildLoop.
Context {T S : Type}.
#[local] Abbreviation obj := (object T S).
Variable P : obj → Prop.
Variable cmp : T → T → bool.
Variable parent : Z → Z.
Variable heapify_down : Z → obj → result obj.
Hypothesis parent_lt : ∀ c, 0 < c < SizeT.modulus → 0 ≤ parent c < c.
Hypothesis down_ok : ∀ b i o,
  P o → Heap.size o ≤ max_size → 0 ≤ i → i < Heap.size o ∨ i = 0 →
  sifts P o (heapify_down i o)
    (λ o', (heap_ordered parent cmp (nodes o) → o' = o)
         ∧ (strict_weak_order cmp → b ≤ i → down_inv parent cmp b (nodes o) i →
            heap_from parent cmp b (nodes o'))).

Lemma heap_from_down_inv (v : list T) n :
  0 ≤ n < SizeT.modulus → heap_from parent cmp (n + 1) v → down_inv parent cmp n v n.
Proof.
  intros Hn Hh. split.
  - intros c x y Hc Hb Hne. apply Hh; [done|lia].
  - intros c x y Hn0 Hb. pose proof (parent_lt n). lia.
Qed.

Lemma build_loop_sifts (n : nat) : ∀ o,
  P o → Heap.size o ≤ max_size →
  Z.of_nat n ≤ Heap.size o ∨ n = 1%nat →
  sifts P o
    (foldlM (λ o i, heapify_down (SizeT.sub i 1) o) o (reverse (seqZ 1 (Z.of_nat n))))
    (λ o', (heap_ordered parent cmp (nodes o) → o' = o)
         ∧ (strict_weak_order cmp → heap_from parent cmp (Z.of_nat n) (nodes o) →
            heap_ordered parent cmp (nodes o'))).
Proof.
  induction n as [|n IH]; intros o HP Hmax Hn.
  { simpl. exists o. repeat split; [done..|]. intros _ Hh. by apply heap_from_0. }
  rewrite seqZ_S, reverse_snoc. simpl.
  replace (SizeT.sub (1 + Z.of_nat n) 1) with (Z.of_nat n); cycle 1.
  { unfold SizeT.sub. rewrite wrap_small; [lia|].
    unfold Heap.size in *. rewrite modulus_eq, max_size_eq in *. lia. }
  destruct (sifts_size P _ _ _ (down_ok (Z.of_nat n) (Z.of_nat n) o HP Hmax ltac:(lia) ltac:(lia)))
    as (o1 & -> & HP1 & Hperm1 & Hsize1 & Hid1 & Hheap1).
  simpl.
  destruct (IH o1) as (o' & -> & HP' & Hperm' & Hid' & Hheap');
    [done|lia|unfold Heap.size in *; lia|].
  exists o'. repeat split; [done|..].
  - by rewrite Hperm'.
  - intros Hh. specialize (Hid1 Hh). subst o1. by apply Hid'.
  - intros Hswo Hh. apply Hheap'; [done|]. apply Hheap1; [done|lia|].
    apply heap_from_down_inv.
    + unfold Heap.size in *. rewrite modulus_eq, max_size_eq in *. lia.
    + by replace (Z.of_nat n + 1) with (Z.of_nat (Datatypes.S n)) by lia.
Qed.
End BuildLoop.

Module BinaryClass.
Import BinaryHeap BinaryIndex BinaryProofs.
Section BinaryClass.
Context {T S : Type}.
#[local] Abbreviation obj := (object T S).
Variable comp : S → T → T → result bool.
Variable swap_nodes : Z → Z → obj → result obj.
Variable P : obj → Prop.
Variable cmp : T → T → bool.
Hypothesis hooks : hooks_ok comp swap_nodes P cmp.

Lemma heapify_down_sifts b i o :
  P o → Heap.size o ≤ max_size → 0 ≤ i → i < Heap.size o ∨ i = 0 →
  sifts P o (heapify_down comp swap_nodes i o)
    (λ o', (heap_ordered parent cmp (nodes o) → o' = o)
         ∧ (strict_weak_order cmp → b ≤ i → down_inv parent cmp b (nodes o) i →
            heap_from parent cmp b (nodes o'))).
Proof.
  intros HP Hmax Hi Hrange. unfold heapify_down.
  rewrite heapify_down_loop_shape. apply sifts_noexcept.
  apply (sift_down_loop_sifts comp swap_nodes P cmp hooks parent is_leaf (select comp));
    [apply parent_lt | apply leaf_ok | apply (select_ok comp swap_nodes P cmp hooks)
    | done.. | unfold Heap.size; lia].
Qed.

Lemma heap_from_leaves (v : list T) n :
  Z.of_nat (length v) ≤ max_size → Z.of_nat (length v) / 2 + 1 ≤ n →
  heap_from parent cmp n v.
Proof.
  intros Hmax Hn c x y Hc Hb Hx%vector_at_range _.
  rewrite parent_exact in Hb by (rewrite modulus_eq, max_size_eq in *; lia).
  div_lia.
Qed.

Lemma build_heap_sifts o :
  P o → Heap.size o ≤ max_size →
  sifts P o (build_heap comp swap_nodes o)
    (λ o', (heap_ordered parent cmp (nodes o) → o' = o)
         ∧ (strict_weak_order cmp → heap_ordered parent cmp (nodes o'))).
Proof.
  intros HP Hmax. unfold build_heap. apply sifts_noexcept.
  assert (0 ≤ Heap.size o) as Hsz by (unfold Heap.size; lia).
  assert (0 ≤ Heap.size o / 2 ≤ Heap.size o) as Hhalf by div_lia.
  replace (SizeT.add (SizeT.shr (Heap.size o) 1) 1)
    with (Z.of_nat (Z.to_nat (Heap.size o / 2 + 1))) by (size_t_simpl; lia).
  destruct (build_loop_sifts P cmp parent (heapify_down comp swap_nodes) parent_lt
              heapify_down_sifts (Z.to_nat (Heap.size o / 2 + 1)) o HP Hmax)
    as (o' & -> & HP' & Hperm & Hid & Hheap).
  { destruct (decide (Heap.size o ≤ 1)); [right|left]; div_lia. }
  exists o'. repeat split; [done..|].
  intros Hswo. apply Hheap; [done|]. apply heap_from_leaves; unfold Heap.size in *; lia.
Qed.
End BinaryClass.

(** [BinaryHeap] meets the contract of a heap class. *)
Lemma binary_class_ok {T S} : class_ok (BinaryHeap.class (T:=T) (S:=S)).
Proof.
  split; simpl.
  - apply parent_lt.
  - intros. by apply heapify_down_sifts.
  - intros. by apply build_heap_sifts.
Qed.
End BinaryClass.

(** ** KHeap *)

Lemma foldlM_snoc {A B} (f : A → B → result A) (a : A) (l : list B) (b : B) :
  foldlM f a (l ++ [b]) = (a' ← foldlM f a l; f a' b).
Proof.
  revert a. induction l as [|b' l IH]; intros a; simpl.
  - by destruct (f a b).
  - destruct (f a b'); simpl; [apply IH|done].
Qed.

Module KProofs.
Import KHeap KIndex.
Section KProofs.
Context {T S : Type}.
#[local] Abbreviation obj := (object T S).
Variable K : Z.
Hypothesis K_arity : 2 < K < SizeT.modulus.
Variable comp : S → T → T → result bool.
Variable swap_nodes : Z → Z → obj → result obj.
Variable P : obj → Prop.
Variable cmp : T → T → bool.
Hypothesis hooks : hooks_ok comp swap_nodes P cmp.

(** The inner [for] loop over the [K] k_children. *)
Definition select (len i : Z) (o : obj) : result Z :=
  foldlM (challenge K comp len i o) i (seqZ 0 K).

Lemma k_heapify_down_loop_shape fuel : ∀ len i o,
  heapify_down_loop K comp swap_nodes fuel len i o =
  sift_down_loop swap_nodes (is_leaf K) select fuel len i o.
Proof.
  induction fuel as [|fuel IH]; intros len i o; [done|].
  simpl. destruct (is_leaf K o i); [done|]. unfold select.
  destruct (foldlM _ _ _) as [m|]; simpl; [|done].
  destruct (i =? m); [done|].
  destruct (swap_nodes i m o); simpl; [|done]. apply IH.
Qed.

Lemma k_leaf_ok (o : obj) i c x :
  Heap.size o ≤ max_size → 0 ≤ i → is_leaf K o i = true →
  0 < c → parent K c = i → vector_at (nodes o) c ≠ Ok x.
Proof.
  intros Hmax Hi Hleaf Hc Hpc Hx%vector_at_range.
  assert (2 ≤ Heap.size o) as Hsz by (unfold Heap.size; lia).
  rewrite k_is_leaf_exact in Hleaf by (done || lia). apply Z.ltb_lt in Hleaf.
  rewrite k_parent_exact in Hpc
    by (done || unfold Heap.size in *; rewrite modulus_eq, max_size_eq in *; lia).
  assert ((c - 1) / K ≤ (Heap.size o - 2) / K); [|lia].
  apply Z.div_le_mono; unfold Heap.size; lia.
Qed.

(** No child index of a position that is not a leaf overflows. *)
Lemma child_in_loop (o : obj) i j :
  Heap.size o ≤ max_size → 0 ≤ i → i < Heap.size o ∨ i = 0 →
  is_leaf K o i = false → 0 ≤ j < K →
  child K i j = K * i + j + 1 ∧ parent K (child K i j) = i.
Proof.
  intros Hmax Hi Hrange Hleaf Hj.
  assert (K * i + j + 1 < SizeT.modulus) as Hfit.
  { destruct (decide (i = 0)) as [->|Hi0]; [lia|].
    assert (2 ≤ Heap.size o) as Hsz by lia.
    rewrite k_is_leaf_exact in Hleaf by (done || lia). apply Z.ltb_ge in Hleaf.
    assert (K * i ≤ Heap.size o - 2).
    { etransitivity; [|apply (Z.mul_div_le (Heap.size o - 2) K); lia]. nia. }
    assert (K ≤ K * i) by nia.
    rewrite modulus_eq, max_size_eq in *. lia. }
  split; [by apply child_exact; try lia|]. by apply parent_child; try lia.
Qed.

Lemma k_children (o : obj) i c x :
  Heap.size o ≤ max_size → 0 ≤ i → 0 < c → parent K c = i →
  vector_at (nodes o) c = Ok x → ∃ j, 0 ≤ j < K ∧ c = K * i + j + 1.
Proof.
  intros Hmax Hi Hc Hpc Hx%vector_at_range.
  rewrite k_parent_exact in Hpc
    by (done || unfold Heap.size in *; rewrite modulus_eq, max_size_eq in *; lia).
  exists ((c - 1) mod K). split; [apply Z.mod_pos_bound; lia|].
  pose proof (Z.div_mod (c - 1) K ltac:(lia)). lia.
Qed.

Ltac order_facts Hswo :=
  repeat match goal with
  | H : cmp ?a ?b = true |- _ =>
    lazymatch goal with
    | _ : cmp b a = false |- _ => fail
    | _ => pose proof (swo_asym _ Hswo _ _ H)
    end
  end;
  pose proof (cmp_irrefl cmp Hswo);
  pose proof (swo_negtrans _ Hswo).

(** What holds of [comp_est] after the first [n] k_children are examined. *)
Definition picked (o : obj) (i : Z) (n : Z) (m : Z) : Prop :=
  (m = i ∨ (i < m < Heap.size o ∧ parent K m = i))
  ∧ (heap_ordered (parent K) cmp (nodes o) → m = i)
  ∧ (strict_weak_order cmp → ∀ c x y,
       c = i ∨ (∃ j, 0 ≤ j < n ∧ c = K * i + j + 1) →
       vector_at (nodes o) c = Ok x → vector_at (nodes o) m = Ok y → cmp y x = false).

Lemma select_prefix o i :
  P o → Heap.size o ≤ max_size → 0 ≤ i → i < Heap.size o ∨ i = 0 →
  is_leaf K o i = false →
  ∀ n : nat, Z.of_nat n ≤ K →
  ∃ m, foldlM (challenge K comp (Heap.size o) i o) i (seqZ 0 (Z.of_nat n)) = Ok m
     ∧ picked o i (Z.of_nat n) m.
Proof.
  intros HP Hmax Hi Hrange Hleaf.
  induction n as [|n IH]; intros Hn.
  { exists i. split; [done|]. split; [by left|]. split; [done|].
    intros Hswo c x y [->|(j & Hj & _)] Hx Hy; [|lia].
    rewrite Hx in Hy. simplify_eq. by apply cmp_irrefl. }
  destruct IH as (m & Hm & Hin & Hid & Hbest); [lia|].
  rewrite seqZ_S, foldlM_snoc, Hm. simpl. unfold challenge.
  destruct (child_in_loop o i (Z.of_nat n)) as [Hson Hpson]; [done..|lia|].
  rewrite Z.add_0_l.
  destruct (Z.ltb_spec (child K i (Z.of_nat n)) (Heap.size o)) as [Hlt|Hge].
  - assert (i ≤ K * i) by nia.
    destruct (vector_at_in_range (nodes o) m) as [xm Hxm];
      [unfold Heap.size in *; lia|].
    destruct (vector_at_in_range (nodes o) (child K i (Z.of_nat n))) as [xs Hxs];
      [unfold Heap.size in *; lia|].
    rewrite Hxm, Hxs. simpl.
    rewrite (hooks_comp _ _ _ _ hooks o _ _ xm xs HP Hxm Hxs). simpl.
    destruct (cmp xm xs) eqn:Hms; eexists; (split; [done|]).
    + split; [right; lia|]. split.
      * intros Hh. specialize (Hid Hh). subst m.
        rewrite (Hh (child K i (Z.of_nat n)) xs xm) in Hms; [done|lia|done|].
        by rewrite Hpson.
      * intros Hswo c x y Hc Hx Hy. order_facts Hswo.
        rewrite Hxs in Hy. simplify_eq.
        assert (c = child K i (Z.of_nat n) ∨
                (c = i ∨ ∃ j, 0 ≤ j < Z.of_nat n ∧ c = K * i + j + 1)) as [->|Hc'].
        { destruct Hc as [->|(j & Hj & ->)]; [by right; left|].
          destruct (decide (j = Z.of_nat n)) as [->|]; [by left|].
          right; right. exists j. split; [lia|done]. }
        -- rewrite Hxs in Hx. simplify_eq. eauto.
        -- specialize (Hbest Hswo c x xm Hc' Hx Hxm). eauto.
    + split; [done|]. split; [done|].
      intros Hswo c x y Hc Hx Hy. rewrite Hxm in Hy. simplify_eq.
      assert (c = child K i (Z.of_nat n) ∨
              (c = i ∨ ∃ j, 0 ≤ j < Z.of_nat n ∧ c = K * i + j + 1)) as [->|Hc'].
      { destruct Hc as [->|(j & Hj & ->)]; [by right; left|].
        destruct (decide (j = Z.of_nat n)) as [->|]; [by left|].
        right; right. exists j. split; [lia|done]. }
      * rewrite Hxs in Hx. by simplify_eq.
      * by apply (Hbest Hswo c x y Hc' Hx Hxm).
  - exists m. split; [done|]. split; [done|]. split; [done|].
    intros Hswo c x y Hc Hx Hy.
    apply (Hbest Hswo c x y); [|done..].
    destruct Hc as [->|(j & Hj & ->)]; [by left|].
    destruct (decide (j = Z.of_nat n)) as [->|].
    + apply vector_at_range in Hx. unfold Heap.size in *. lia.
    + right. exists j. split; [lia|done].
Qed.

Lemma k_select_ok o i :
  P o → Heap.size o ≤ max_size → 0 ≤ i → i < Heap.size o ∨ i = 0 →
  is_leaf K o i = false →
  ∃ m, select (Heap.size o) i o = Ok m
     ∧ (m = i ∨ (i < m < Heap.size o ∧ parent K m = i))
     ∧ (heap_ordered (parent K) cmp (nodes o) → m = i)
     ∧ (strict_weak_order cmp → best (parent K) cmp (nodes o) i m).
Proof.
  intros HP Hmax Hi Hrange Hleaf.
  destruct (select_prefix o i HP Hmax Hi Hrange Hleaf (Z.to_nat K))
    as (m & Hm & Hin & Hid & Hbest); [lia|].
  rewrite Z2Nat.id in Hm, Hbest by lia.
  exists m. repeat split; [done..|].
  intros Hswo c x y Hc Hx Hy. apply (Hbest Hswo c x y); [|done..].
  destruct Hc as [->|[Hc Hpc]]; [by left|]. right. by eapply k_children.
Qed.
End KProofs.
End KProofs.

Module KClass.
Import KHeap KIndex KProofs.
Section KClass.
Context {T S : Type}.
#[local] Abbreviation obj := (object T S).
Variable K : Z.
Hypothesis K_arity : 2 < K < SizeT.modulus.
Variable comp : S → T → T → result bool.
Variable swap_nodes : Z → Z → obj → result obj.
Variable P : obj → Prop.
Variable cmp : T → T → bool.
Hypothesis hooks : hooks_ok comp swap_nodes P cmp.

Lemma k_heapify_down_sifts b i o :
  P o → Heap.size o ≤ max_size → 0 ≤ i → i < Heap.size o ∨ i = 0 →
  sifts P o (heapify_down K comp swap_nodes i o)
    (λ o', (heap_ordered (parent K) cmp (nodes o) → o' = o)
         ∧ (strict_weak_order cmp → b ≤ i → down_inv (parent K) cmp b (nodes o) i →
            heap_from (parent K) cmp b (nodes o'))).
Proof.
  intros HP Hmax Hi Hrange. unfold heapify_down.
  rewrite k_heapify_down_loop_shape. apply sifts_noexcept.
  apply (sift_down_loop_sifts comp swap_nodes P cmp hooks (parent K) (is_leaf K)
           (select K comp));
    [by apply k_parent_lt | by apply k_leaf_ok
    | by apply (k_select_ok K K_arity comp swap_nodes P cmp hooks)
    | done.. | unfold Heap.size; lia].
Qed.

Lemma k_heap_from_leaves (v : list T) n :
  Z.of_nat (length v) ≤ max_size → Z.of_nat (length v) / K + 1 ≤ n →
  heap_from (parent K) cmp n v.
Proof.
  intros Hmax Hn c x y Hc Hb Hx%vector_at_range _.
  rewrite k_parent_exact in Hb by (done || rewrite modulus_eq, max_size_eq in *; lia).
  assert ((c - 1) / K ≤ Z.of_nat (length v) / K); [|lia].
  apply Z.div_le_mono; lia.
Qed.

Lemma k_build_heap_sifts o :
  P o → Heap.size o ≤ max_size →
  sifts P o (build_heap K comp swap_nodes o)
    (λ o', (heap_ordered (parent K) cmp (nodes o) → o' = o)
         ∧ (strict_weak_order cmp → heap_ordered (parent K) cmp (nodes o'))).
Proof.
  intros HP Hmax. unfold build_heap. apply sifts_noexcept.
  assert (0 ≤ Heap.size o) as Hsz by (unfold Heap.size; lia).
  assert (0 ≤ Heap.size o / K) as Hq0 by (apply Z.div_pos; lia).
  assert (Heap.size o / K + 1 ≤ Heap.size o ∨ Heap.size o / K = 0) as Hq.
  { destruct (decide (Heap.size o < K)); [right; by apply Z.div_small|left].
    assert (K * (Heap.size o / K) ≤ Heap.size o) by (apply Z.mul_div_le; lia).
    nia. }
  replace (SizeT.add (SizeT.div (Heap.size o) K) 1)
    with (Z.of_nat (Z.to_nat (Heap.size o / K + 1))); cycle 1.
  { unfold SizeT.add, SizeT.div. rewrite wrap_small; [lia|].
    rewrite modulus_eq, max_size_eq in *. lia. }
  destruct (build_loop_sifts P cmp (parent K) (heapify_down K comp swap_nodes)
              (k_parent_lt K K_arity) k_heapify_down_sifts
              (Z.to_nat (Heap.size o / K + 1)) o HP Hmax)
    as (o' & -> & HP' & Hperm & Hid & Hheap); [lia|].
  exists o'. repeat split; [done..|].
  intros Hswo. apply Hheap; [done|]. apply k_heap_from_leaves; unfold Heap.size in *; lia.
Qed.
End KClass.

(** Every [KHeap<K>] that can be named meets the contract of a heap class. *)
Lemma k_class_ok {T S} (K : Z) (cls : heap_class T S) :
  K < SizeT.modulus → KHeap.class K = Ok cls → class_ok cls.
Proof.
  intros HK. unfold KHeap.class, enable_if.
  destruct (Z.ltb_spec 2 K) as [HK2|]; simpl; [|done].
  intros [= <-]. split; simpl.
  - by apply k_parent_lt.
  - intros. by apply k_heapify_down_sifts.
  - intros. by apply k_build_heap_sifts.
Qed.
End KClass.

(** [Heap::swap_nodes] exchanges two positions that are in range. *)
Lemma base_swap_nodes_exchange {T S} (o : object T S) i j :
  0 ≤ i < Heap.size o → 0 ≤ j < Heap.size o →
  Heap.base_swap_nodes i j o = Ok (with_nodes (exchange (nodes o) i j) o).
Proof.
  intros Hi Hj. unfold Heap.base_swap_nodes, exchange.
  destruct (vector_at_in_range (nodes o) i Hi) as [x Hx].
  destruct (vector_at_in_range (nodes o) j Hj) as [y Hy].
  rewrite Hx, Hy. simpl.
  apply vector_at_Ok in Hx as [_ ->]. by apply vector_at_Ok in Hy as [_ ->].
Qed.

(** A heap that is not extended by a derived class: the hooks are the
  pure comparator and [Heap::swap_nodes]. *)
Lemma plain_hooks {T S} (cmp : T → T → bool) :
  hooks_ok (λ (_ : S) a b, Ok (cmp a b)) Heap.base_swap_nodes (λ _, True) cmp.
Proof.
  split; [done|]. intros o i j _ Hi Hj _. eexists.
  split; [by apply base_swap_nodes_exchange|done].
Qed.

(** ** PriorityQueue: the maps follow the backing sequence *)

Module PQInv.
Import PriorityQueue.
Section PQInv.
Context `{Countable T}.
#[local] Abbreviation obj := (object T (members T)).
Implicit Types (o : obj) (e : T) (km : gmap T Z) (im : gmap T Z).

(** [index_map] is exactly the graph of the backing sequence. *)
Definition indexed o : Prop :=
  ∀ e i, index_map (fields o) !! e = Some i ↔ vector_at (nodes o) i = Ok e.

(** [key_map] has an entry exactly for the stored elements. *)
Definition keyed o : Prop :=
  ∀ e, is_Some (key_map (fields o) !! e) ↔ e ∈ nodes o.

Definition pq_inv o : Prop := indexed o ∧ keyed o.

(** The invariant, with the contents of [key_map] named. *)
Definition pq_with km o : Prop := pq_inv o ∧ key_map (fields o) = km.

(** The key the comparator reads for a stored element. *)
Definition key_of km e : Z := default 0 (km !! e).

(** The comparison made by the closure a factory returns, on elements
  that have a key. *)
Definition cmp_of (t : Type_) km (a b : T) : bool :=
  match t with
  | min_heap => key_of km b <? key_of km a
  | max_heap => key_of km a <? key_of km b
  end.

Lemma cmp_of_swo t km : strict_weak_order (cmp_of t km).
Proof. split; intros *; destruct t; simpl; lia. Qed.

Lemma cmp_of_ext t km km' a b :
  km' !! a = km !! a → km' !! b = km !! b → cmp_of t km' a b = cmp_of t km a b.
Proof. intros Ha Hb. unfold cmp_of, key_of. by rewrite Ha, Hb. Qed.

Lemma indexed_inj o i j e :
  indexed o → vector_at (nodes o) i = Ok e → vector_at (nodes o) j = Ok e → i = j.
Proof. intros Hix Hi%Hix Hj%Hix. congruence. Qed.

Lemma indexed_NoDup o : indexed o → NoDup (nodes o).
Proof.
  intros Hix. apply NoDup_alt. intros n m e Hn Hm.
  assert (Z.of_nat n = Z.of_nat m); [|lia].
  apply (indexed_inj o _ _ e Hix); apply vector_at_Ok; rewrite Nat2Z.id;
    (split; [|done]).
  - apply lookup_lt_Some in Hn. lia.
  - apply lookup_lt_Some in Hm. lia.
Qed.

Lemma indexed_elem_of o e :
  indexed o → e ∈ nodes o ↔ is_Some (index_map (fields o) !! e).
Proof.
  intros Hix. split.
  - intros [i Hi]%elem_of_vector_at. exists i. by apply Hix.
  - intros [i Hi]. apply Hix in Hi. by eapply vector_at_elem_of.
Qed.

Lemma comp_factory_ok t o a b :
  keyed o → a ∈ nodes o → b ∈ nodes o →
  comp (comp_factory_of t) (fields o) a b = Ok (cmp_of t (key_map (fields o)) a b).
Proof.
  intros Hk [ka Ha]%Hk [kb Hb]%Hk.
  unfold comp, cmp_of, key_of.
  destruct t; simpl; unfold min_heap_comp_factory, max_heap_comp_factory, map_at;
    by rewrite Ha, Hb.
Qed.


Lemma swap_nodes_ok km o i j :
  pq_with km o → 0 ≤ i < Heap.size o → 0 ≤ j < Heap.size o → i ≠ j →
  ∃ o', swap_nodes i j o = Ok o' ∧ pq_with km o' ∧ nodes o' = exchange (nodes o) i j.
Proof.
  intros [[Hix Hk] Hkm] Hi Hj Hij. unfold swap_nodes.
  destruct (vector_at_in_range (nodes o) i Hi) as [x Hx].
  destruct (vector_at_in_range (nodes o) j Hj) as [y Hy].
  rewrite Hx, Hy. simpl.
  pose proof (proj2 (Hix _ _) Hx) as Hmx. pose proof (proj2 (Hix _ _) Hy) as Hmy.
  unfold map_at. rewrite Hmx, Hmy. simpl.
  rewrite base_swap_nodes_exchange by done. simpl.
  eexists. split; [done|]. split; [|done].
  assert (x ≠ y) as Hxy by (intros ->; by pose proof (indexed_inj o i j y Hix Hx Hy)).
  split; [split|done].
  - intros e k. simpl. unfold Heap.size in *. rewrite vector_at_exchange by done.
    rewrite !lookup_insert.
    repeat case_decide; subst; split; intros Hq;
      repeat match goal with
      | Hm : index_map _ !! ?a = Some ?b |- _ =>
        lazymatch goal with
        | _ : vector_at (nodes o) b = Ok a |- _ => fail
        | _ => pose proof (proj1 (Hix a b) Hm)
        end
      | Hv : vector_at (nodes o) ?b = Ok ?a |- _ =>
        lazymatch goal with
        | _ : index_map (fields o) !! a = Some b |- _ => fail
        | _ => pose proof (proj2 (Hix a b) Hv)
        end
      end;
      congruence.
  - intros e. simpl. rewrite exchange_Permutation. apply Hk.
Qed.

Lemma hooks t km :
  hooks_ok (comp (comp_factory_of t)) swap_nodes (pq_with km) (cmp_of t km).
Proof.
  split.
  - intros o i j a b [[_ Hk] <-] Ha%vector_at_elem_of Hb%vector_at_elem_of.
    by apply comp_factory_ok.
  - intros. by apply swap_nodes_ok.
Qed.
End PQInv.
End PQInv.

(** ** The sequence after the root is overwritten and the tail dropped *)

Section Popped.
Context {T : Type}.
Implicit Types (v : list T) (i : Z).

Lemma vector_back_Ok v back : vector_back v = Ok back ↔ last v = Some back.
Proof. unfold vector_back. destruct (last v); split; congruence. Qed.

(** The shape of a non-empty sequence and of what [pop] leaves of it. *)
Lemma popped_shape v node back :
  vector_at v 0 = Ok node → last v = Some back →
  (v = [node] ∧ back = node ∧ removelast (<[0%nat := back]> v) = [])
  ∨ (∃ l, v = node :: l ++ [back] ∧ removelast (<[0%nat := back]> v) = back :: l).
Proof.
  intros [_ Hnode]%vector_at_Ok [l' ->]%last_Some.
  destruct l' as [|x l]; simpl in Hnode; simplify_eq.
  - by left.
  - right. exists l. split; [done|].
    change (<[0%nat:=back]> ((node :: l) ++ [back])) with ((back :: l) ++ [back]).
    apply removelast_last.
Qed.

Lemma vector_at_cons_0 (x : T) v : vector_at (x :: v) 0 = Ok x.
Proof. by apply vector_at_Ok; simpl; split; [lia|]. Qed.

Lemma vector_at_cons_pos (x : T) v i e :
  0 < i → vector_at (x :: v) i = Ok e ↔ vector_at v (i - 1) = Ok e.
Proof.
  intros Hi. rewrite !vector_at_Ok. simpl.
  replace (Z.to_nat i) with (Datatypes.S (Z.to_nat (i - 1))) by lia. simpl.
  split; intros [? ?]; (split; [lia|done]).
Qed.

Lemma vector_at_snoc_last v (x : T) :
  vector_at (v ++ [x]) (Z.of_nat (length v)) = Ok x.
Proof.
  apply vector_at_Ok. rewrite length_app, Nat2Z.id. simpl. split; [lia|].
  by rewrite lookup_app_r, Nat.sub_diag.
Qed.

Lemma vector_at_snoc_init v (x : T) i e :
  i < Z.of_nat (length v) → vector_at (v ++ [x]) i = Ok e ↔ vector_at v i = Ok e.
Proof.
  intros Hi. rewrite !vector_at_Ok, length_app. simpl.
  split; intros [? Hl]; (split; [lia|]).
  - by rewrite lookup_app_l in Hl by lia.
  - by rewrite lookup_app_l by lia.
Qed.

Lemma vector_at_snoc v (x : T) i e :
  vector_at (v ++ [x]) i = Ok e ↔
  vector_at v i = Ok e ∨ (i = Z.of_nat (length v) ∧ e = x).
Proof.
  destruct (Z.lt_ge_cases i (Z.of_nat (length v))) as [Hlt|Hge].
  - rewrite vector_at_snoc_init by done. split; [by left|].
    intros [?|[? _]]; [done|lia].
  - split.
    + intros He. right. pose proof (vector_at_range _ _ _ He) as Hr.
      rewrite length_app in Hr. simpl in Hr.
      assert (i = Z.of_nat (length v)) as -> by lia.
      rewrite vector_at_snoc_last in He. by simplify_eq.
    + intros [Hv%vector_at_range|[-> ->]]; [lia|]. apply vector_at_snoc_last.
Qed.

(** Reads of the popped sequence, in terms of the original one. *)
Lemma popped_at v node back l i e :
  v = node :: l ++ [back] →
  vector_at (back :: l) i = Ok e ↔
  (i = 0 ∧ e = back) ∨ (0 < i < Z.of_nat (length v) - 1 ∧ vector_at v i = Ok e).
Proof.
  intros ->. simpl. rewrite length_app. simpl.
  destruct (decide (i = 0)) as [->|Hi0].
  - rewrite vector_at_cons_0. split; [intros [= ->]; by left|].
    intros [[_ ->]|[? _]]; [done|lia].
  - destruct (decide (0 < i)) as [Hpos|Hneg]; cycle 1.
    { split; [intros Hr%vector_at_range; lia|]. intros [[? _]|[? _]]; lia. }
    rewrite vector_at_cons_pos by done. split.
    + intros He. right. pose proof (vector_at_range _ _ _ He).
      split; [lia|]. rewrite vector_at_cons_pos by done.
      by rewrite vector_at_snoc_init by lia.
    + intros [[? _]|[Hr He]]; [lia|].
      rewrite vector_at_cons_pos in He by done.
      by rewrite vector_at_snoc_init in He by lia.
Qed.
End Popped.

(** ** PriorityQueue: the member functions *)

Module PQOps.
Import PriorityQueue PQInv.
Section PQOps.
Context `{Countable T}.
#[local] Abbreviation obj := (object T (members T)).
Variable cls : heap_class T (members T).
Hypothesis cls_ok : class_ok cls.
Variable t : Type_.
Implicit Types (o : obj) (e : T) (km : gmap T Z).

(** The heap property of a queue, read through its current keys. *)
Definition heap_ok o : Prop :=
  heap_ordered (hc_parent cls) (cmp_of t (key_map (fields o))) (nodes o).

(** The order in which keys leave the queue. *)
Definition key_le (k1 k2 : Z) : Prop :=
  match t with min_heap => k1 ≤ k2 | max_heap => k2 ≤ k1 end.

Lemma key_of_insert km e k x :
  key_of (<[e := k]> km) x = if decide (x = e) then k else key_of km x.
Proof.
  unfold key_of. rewrite lookup_insert.
  destruct (decide (e = x)), (decide (x = e)); by simplify_eq.
Qed.

Lemma key_of_delete_ne km e x : x ≠ e → key_of (delete e km) x = key_of km x.
Proof. intros. unfold key_of. by rewrite lookup_delete_ne. Qed.

Lemma cmp_of_false km a b : cmp_of t km a b = false ↔ key_le (key_of km a) (key_of km b).
Proof. unfold cmp_of, key_le. destruct t; lia. Qed.

Lemma heapify_up_pq km i o :
  pq_with km o → Heap.size o ≤ max_size → 0 ≤ i → i < Heap.size o ∨ i = 0 →
  sifts (pq_with km) o (heapify_up cls (comp_factory_of t) i o)
    (λ o', up_inv (hc_parent cls) (cmp_of t km) (nodes o) i →
           heap_ordered (hc_parent cls) (cmp_of t km) (nodes o')).
Proof.
  intros HP Hmax Hi Hr.
  destruct (heapify_up_sifts _ _ _ _ (hooks t km) (hc_parent cls)
              (class_parent_lt _ cls_ok) i o HP Hmax Hi Hr)
    as (o' & Ho' & HP' & Hperm & Hheap).
  exists o'. split_and!; try done. intros. apply Hheap; [apply cmp_of_swo|done].
Qed.

Lemma heapify_down_pq km b i o :
  pq_with km o → Heap.size o ≤ max_size → 0 ≤ i → i < Heap.size o ∨ i = 0 →
  sifts (pq_with km) o (heapify_down cls (comp_factory_of t) i o)
    (λ o', (heap_ordered (hc_parent cls) (cmp_of t km) (nodes o) → o' = o)
         ∧ (b ≤ i → down_inv (hc_parent cls) (cmp_of t km) b (nodes o) i →
            heap_from (hc_parent cls) (cmp_of t km) b (nodes o'))).
Proof.
  intros HP Hmax Hi Hr.
  destruct (class_heapify_down _ cls_ok _ _ _ _ (hooks t km) b i o HP Hmax Hi Hr)
    as (o' & Ho' & HP' & Hperm & Hid & Hheap).
  exists o'. split_and!; try done. intros. apply Hheap; [apply cmp_of_swo|done..].
Qed.

Lemma pq_with_size km o o' :
  nodes o' ≡ₚ nodes o → Heap.size o' = Heap.size o.
Proof. intros Hp. unfold Heap.size. by rewrite Hp. Qed.

(** *** update_key *)

Lemma pq_with_update km o k e :
  pq_with km o → e ∈ nodes o →
  pq_with (<[e := k]> km) (with_key_map (<[e := k]> (key_map (fields o))) o).
Proof.
  intros [[Hix Hk] <-] He. split; [split|done].
  - done.
  - intros e'. simpl. rewrite lookup_insert_is_Some. split.
    + intros [<-|[_ ?]]; [done|]. by apply Hk.
    + intros He'%Hk. destruct (decide (e = e')); [by left|by right].
Qed.

Lemma decrease_up_inv km o k e i :
  t = min_heap → pq_with km o → Heap.size o ≤ max_size →
  vector_at (nodes o) i = Ok e → k ≤ key_of km e → heap_ok o →
  up_inv (hc_parent cls) (cmp_of t (<[e := k]> km)) (nodes o) i.
Proof.
  intros Ht [[Hix Hk] <-] Hmax He Hle Hheap. unfold heap_ok in Hheap.
  assert (∀ c x, 0 < c → vector_at (nodes o) c = Ok x →
                 0 ≤ hc_parent cls c < c) as Hpar.
  { intros c x Hc Hx%vector_at_range. apply (class_parent_lt _ cls_ok).
    unfold Heap.size in *. rewrite modulus_eq, max_size_eq in *. lia. }
  split.
  - intros c x y Hc Hci Hx Hy.
    pose proof (Hheap c x y Hc Hx Hy) as Hold.
    assert (x ≠ e) by (intros ->; by pose proof (indexed_inj o c i e Hix Hx He)).
    unfold cmp_of in *. rewrite Ht in *. rewrite !key_of_insert.
    rewrite decide_False by done. case_decide; subst; lia.
  - intros c x y Hi _ Hc Hpc Hx Hy.
    pose proof (Hpar c x Hc Hx). pose proof (Hpar i e Hi He).
    assert (x ≠ e) by (intros ->; pose proof (indexed_inj o c i e Hix Hx He); lia).
    assert (y ≠ e) by (intros ->; pose proof (indexed_inj o _ i e Hix Hy He); lia).
    pose proof (Hheap i e y Hi He Hy) as Hup.
    rewrite <- Hpc in He. pose proof (Hheap c x e Hc Hx He) as Hdn.
    unfold cmp_of in *. rewrite Ht in *.
    rewrite !key_of_insert, !decide_False by done. lia.
Qed.

(** [update_key] returns; it is the overwrite of one key followed by the
  single repair of the polarity, started at the element's index. *)
Lemma update_key_spec km o k e :
  pq_with km o → Heap.size o ≤ max_size → e ∈ nodes o →
  ∃ i o',
    index_map (fields o) !! e = Some i
    ∧ update_key cls t (comp_factory_of t) k e o = Ok o'
    ∧ (match t with
       | min_heap => heapify_up cls (comp_factory_of t) i
       | max_heap => heapify_down cls (comp_factory_of t) i
       end) (with_key_map (<[e := k]> km) o) = Ok o'
    ∧ pq_with (<[e := k]> km) o'
    ∧ nodes o' ≡ₚ nodes o
    ∧ (t = min_heap → k ≤ key_of km e → heap_ok o → heap_ok o').
Proof.
  intros HP Hmax He. pose proof HP as [[Hix Hk] Hkm].
  pose proof He as [i Hi]%(indexed_elem_of o e Hix).
  pose proof He as [k0 Hk0]%Hk.
  pose proof (proj1 (Hix e i) Hi) as Hat.
  pose proof (vector_at_range _ _ _ Hat) as Hr.
  pose proof (pq_with_update km o k e HP He) as HP1.
  exists i. unfold update_key, map_at. rewrite Hi, Hk0. simpl. rewrite Hkm in *.
  assert (t = min_heap ∨ t = max_heap) as [Ht|Ht] by (destruct t; auto).
  - destruct (heapify_up_pq (<[e:=k]> km) i _ HP1) as (o' & Ho' & HP' & Hperm & Hheap);
      [done|lia|left; unfold Heap.size; simpl; lia|].
    exists o'. split_and!; try done; try (revert Ho'; by rewrite Ht).
    intros _ Hle Hh. unfold heap_ok. rewrite (proj2 HP'). apply Hheap.
    by apply (decrease_up_inv km o k e i).
  - destruct (heapify_down_pq (<[e:=k]> km) 0 i _ HP1)
      as (o' & Ho' & HP' & Hperm & _); [done|lia|left; unfold Heap.size; simpl; lia|].
    exists o'. split_and!; try done; try (revert Ho'; by rewrite Ht).
Qed.

(** *** push *)

Lemma push_spec km o k e :
  pq_with km o → Heap.size o < max_size → e ∉ nodes o →
  ∃ o', push cls (comp_factory_of t) k e o = Ok o'
      ∧ pq_with (<[e := k]> km) o'
      ∧ nodes o' ≡ₚ e :: nodes o
      ∧ (heap_ok o → heap_ok o').
Proof.
  intros [[Hix Hk] Hkm] Hmax He.
  unfold push, Heap.push, vector_emplace_back. simpl.
  destruct (Z.ltb_spec (Z.of_nat (length (nodes o))) max_size) as [_|];
    [|unfold Heap.size in *; lia].
  simpl. unfold size. rewrite Hkm.
  set (o1 := with_nodes _ _).
  assert (pq_with (<[e := k]> km) o1) as HP1.
  { split; [split|done].
    - intros e' i. simpl. rewrite vector_at_snoc, lookup_insert.
      case_decide as Hee; subst.
      + split; [intros [= <-]; by right|].
        intros [Hin|[-> _]]; [|done]. destruct He. by eapply vector_at_elem_of.
      + split.
        * intros Hl%Hix. by left.
        * intros [?|[_ ->]]; [by apply Hix|done].
    - intros e'. simpl. rewrite lookup_insert_is_Some, elem_of_app, list_elem_of_singleton.
      rewrite <- Hkm. split.
      + intros [-> | [_ Hs]]; [by right|left; by apply Hk].
      + intros [Hs | ->]; [apply Hk in Hs|by left].
        destruct (decide (e = e')); [by left|by right]. }
  assert (Heap.size o1 = Heap.size o + 1) as Hsz1.
  { unfold Heap.size. simpl. rewrite length_app. simpl. lia. }
  destruct (heapify_up_pq (<[e:=k]> km) (Heap.size o) o1 HP1)
    as (o' & Ho' & HP' & Hperm & Hheap);
    [lia|unfold Heap.size; lia|lia|].
  exists o'. split_and!; try done.
  - rewrite Hperm. simpl. by rewrite Permutation_app_comm.
  - intros Hh. unfold heap_ok. rewrite (proj2 HP'). apply Hheap.
    unfold heap_ok in Hh. rewrite Hkm in Hh. simpl. split.
    + intros c x y Hc Hne Hx Hy.
      assert (0 ≤ hc_parent cls c < c) as Hpc.
      { apply (class_parent_lt _ cls_ok). apply vector_at_range in Hx.
        rewrite length_app in Hx. simpl in Hx.
        unfold Heap.size in *. rewrite modulus_eq, max_size_eq in *. lia. }
      pose proof (vector_at_range _ _ _ Hx) as Hrx.
      rewrite length_app in Hrx. simpl in Hrx. unfold Heap.size in *.
      rewrite vector_at_snoc_init in Hx, Hy by lia.
      rewrite cmp_of_ext with (km := km); [by eapply Hh|..];
        apply lookup_insert_ne; intros ->; destruct He; by eapply vector_at_elem_of.
    + intros c x y _ _ Hc Hpc Hx%vector_at_range _.
      rewrite length_app in Hx. simpl in Hx.
      assert (0 ≤ hc_parent cls c < c); [|unfold Heap.size in *; lia].
      apply (class_parent_lt _ cls_ok).
      unfold Heap.size in *. rewrite modulus_eq, max_size_eq in *. lia.
Qed.

(** *** pop *)

Lemma popped_pq_with km o node back l :
  pq_with km o → nodes o = node :: l ++ [back] →
  pq_with (delete node km)
    (Object (back :: l)
       (Members (delete node km) (<[back := 0]> (delete node (index_map (fields o)))))).
Proof.
  intros [[Hix Hk] Hkm] Hv.
  assert (vector_at (nodes o) 0 = Ok node) as Hnode
    by (rewrite Hv; apply vector_at_cons_0).
  assert (vector_at (nodes o) (Z.of_nat (length (nodes o)) - 1) = Ok back) as Hback.
  { rewrite Hv. change (node :: l ++ [back]) with ((node :: l) ++ [back]).
    rewrite length_app. simpl length.
    replace (Z.of_nat (Datatypes.S (length l) + 1) - 1)
      with (Z.of_nat (length (node :: l))) by (simpl; lia).
    apply vector_at_snoc_last. }
  assert (1 < Z.of_nat (length (nodes o))) as Hlen
    by (rewrite Hv; simpl; rewrite length_app; simpl; lia).
  assert (node ≠ back) as Hnb
    by (intros ->; pose proof (indexed_inj o _ _ back Hix Hnode Hback); lia).
  split; [split|done].
  - intros e i. simpl. rewrite (popped_at (nodes o) node back l i e Hv).
    rewrite lookup_insert. case_decide as Hbe; [subst e|].
    { split; [intros [= <-]; by left|].
      intros [[-> _]|[Hr He]]; [done|].
      pose proof (indexed_inj o _ _ back Hix He Hback). lia. }
    rewrite lookup_delete. case_decide as Hne; [subst e|].
    { split; [done|]. intros [[_ ->]|[Hr He]]; [done|].
      pose proof (indexed_inj o _ _ node Hix He Hnode). lia. }
    split.
    + intros He%Hix. right. split; [|done].
      pose proof (vector_at_range _ _ _ He).
      assert (i ≠ 0) by (intros ->; congruence).
      assert (i ≠ Z.of_nat (length (nodes o)) - 1) by (intros ->; congruence).
      lia.
    + intros [[_ ->]|[_ He]]; [done|]. by apply Hix.
  - intros e. simpl. rewrite lookup_delete_is_Some, <- Hkm.
    pose proof (indexed_NoDup o Hix) as Hnd. rewrite Hv in Hnd.
    apply NoDup_cons in Hnd as [Hnotin _].
    rewrite (Hk e), Hv. rewrite !elem_of_cons, !elem_of_app, list_elem_of_singleton.
    rewrite elem_of_app, list_elem_of_singleton in Hnotin.
    split.
    + intros [Hne [-> | [? | ->]]]; [done|by right|by left].
    + intros [-> | He]; (split; [intros ->; apply Hnotin; auto|auto]).
Qed.

Lemma pop_spec km o node :
  pq_with km o → Heap.size o ≤ max_size → vector_at (nodes o) 0 = Ok node →
  ∃ o', pop cls (comp_factory_of t) o = Ok o'
      ∧ pq_with (delete node km) o'
      ∧ node :: nodes o' ≡ₚ nodes o
      ∧ (heap_ok o → heap_ok o').
Proof.
  intros HP Hmax Hnode. pose proof HP as [[Hix Hk] Hkm].
  pose proof (vector_at_range _ _ _ Hnode) as Hr.
  destruct (last (nodes o)) as [back|] eqn:Hlast;
    [|apply last_None in Hlast; rewrite Hlast in Hr; simpl in Hr; lia].
  unfold pop, assert, size, Heap.size.
  destruct (Z.ltb_spec 0 (Z.of_nat (length (nodes o)))) as [_|]; [|lia]. simpl.
  rewrite Hnode. simpl. unfold vector_back, vector_set_at. rewrite Hlast. simpl.
  destruct (Z.ltb_spec 0 (Z.of_nat (length (nodes o)))) as [_|]; [|lia]. simpl.
  change (Z.to_nat 0) with 0%nat.
  destruct (popped_shape (nodes o) node back Hnode Hlast)
    as [(Hv & -> & ->)|(l & Hv & ->)]; simpl.
  - (* the queue held one element *)
    eexists. split; [done|]. rewrite Hkm. split_and!.
    + split; [split|done].
      * intros e i. simpl. rewrite lookup_delete. split.
        -- case_decide; [done|]. intros He%Hix. rewrite Hv in He.
           apply vector_at_elem_of, list_elem_of_singleton in He. congruence.
        -- intros ?%vector_at_range. simpl in *. lia.
      * intros e. simpl. rewrite lookup_delete_is_Some. split; [|by intros ?%elem_of_nil].
        intros [Hne He]. rewrite <- Hkm in He. apply Hk in He.
        rewrite Hv in He. apply list_elem_of_singleton in He. congruence.
    + by rewrite Hv.
    + intros _ c x y _ Hx%vector_at_range. simpl in Hx. lia.
  - (* the last element moves to the root and is sifted down *)

    assert (index_map (fields o) !! back = Some (Z.of_nat (length (nodes o)) - 1)
            ∧ node ≠ back) as [Hib Hnb].
    { assert (vector_at (nodes o) (Z.of_nat (length (nodes o)) - 1) = Ok back) as Hback.
      { rewrite Hv. change (node :: l ++ [back]) with ((node :: l) ++ [back]).
        rewrite length_app. simpl length.
        replace (Z.of_nat (Datatypes.S (length l) + 1) - 1)
          with (Z.of_nat (length (node :: l))) by (simpl; lia).
        apply vector_at_snoc_last. }
      split; [by apply Hix|].
      intros ->. pose proof (indexed_inj o _ _ back Hix Hnode Hback) as Heq.
      rewrite Hv in Heq. simpl in Heq. rewrite length_app in Heq. simpl in Heq. lia. }
    unfold map_at. rewrite lookup_delete_ne, Hib by done. simpl.
    pose proof (popped_pq_with km o node back l HP Hv) as HP4.
    rewrite Hkm.
    match goal with |- context [heapify_down _ _ 0 ?x] => set (o4 := x) in * end.
    assert (Heap.size o4 < Heap.size o) as Hsz4.
    { unfold Heap.size. rewrite Hv. simpl. rewrite length_app. simpl. lia. }
    destruct (heapify_down_pq (delete node km) 0 0 o4 HP4)
      as (o' & Ho' & HP' & Hperm & _ & Hheap); [lia|lia|by right|].
    exists o'. split_and!; try done.
    + rewrite Hperm, Hv. simpl. by rewrite Permutation_app_comm.
    + intros Hh. unfold heap_ok. rewrite (proj2 HP'). apply heap_from_0.
      apply Hheap; [lia|]. unfold heap_ok in Hh. rewrite Hkm in Hh. split.
      * intros c x y Hc Hp0 Hpne Hx Hy. simpl in Hx, Hy.
        apply (popped_at (nodes o) node back l _ _ Hv) in Hx as [[? _]|[Hrc Hx]]; [lia|].
        apply (popped_at (nodes o) node back l _ _ Hv) in Hy as [[? _]|[Hrp Hy]]; [lia|].
        rewrite cmp_of_ext with (km := km); [by eapply Hh|..];
          apply lookup_delete_ne; intros ->.
        -- pose proof (indexed_inj o _ _ _ Hix Hy Hnode). lia.
        -- pose proof (indexed_inj o _ _ _ Hix Hx Hnode). lia.
      * intros c x y ?. lia.
Qed.

(** *** construction *)

Lemma index_fold (l : list T) : ∀ a (m : gmap T Z),
  NoDup l → (∀ e, e ∈ l → m !! e = None) →
  ∀ e i,
    foldl (λ local_index_map '(index, node), <[node := index]> local_index_map) m
          (zip (seqZ a (Z.of_nat (length l))) l) !! e = Some i
    ↔ m !! e = Some i ∨ ∃ n : nat, l !! n = Some e ∧ i = a + Z.of_nat n.
Proof.
  induction l as [|x l IH]; intros a m Hnd Hfresh e i.
  { simpl. split; [by left|]. by intros [?|(n & ? & _)]. }
  apply NoDup_cons in Hnd as [Hx Hnd].
  simpl length. rewrite seqZ_cons by lia. simpl.
  replace (Z.pred (Z.of_nat (Datatypes.S (length l)))) with (Z.of_nat (length l)) by lia.
  rewrite IH; [|done|]; cycle 1.
  { intros e' He'. rewrite lookup_insert_ne by (intros ->; done).
    apply Hfresh. by right. }
  rewrite lookup_insert. split.
  - intros [Hm|(n & Hn & ->)].
    + case_decide; simplify_eq; [|by left].
      right. exists 0%nat. split; [done|lia].
    + right. exists (Datatypes.S n). split; [done|lia].
  - intros [Hm|(n & Hn & ->)].
    + left. case_decide; [|done]. subst.
      rewrite Hfresh in Hm by (by left). done.
    + destruct n as [|n]; simpl in Hn; simplify_eq.
      * left. rewrite decide_True by done. f_equal. lia.
      * right. exists n. split; [done|lia].
Qed.

Lemma build_index_map_lookup (l : list T) e i :
  NoDup l → build_index_map l !! e = Some i ↔ vector_at l i = Ok e.
Proof.
  intros Hnd. unfold build_index_map. rewrite index_fold by done.
  rewrite lookup_empty, vector_at_Ok. split.
  - intros [?|(n & Hn & ->)]; [done|].
    pose proof (lookup_lt_Some _ _ _ Hn). rewrite Z.add_0_l, Nat2Z.id. split; [lia|done].
  - intros [Hr Hl]. right. exists (Z.to_nat i). split; [done|lia].
Qed.

Lemma key_fold (l : list T) : ∀ (ks : list Z) (m : gmap T Z),
  length ks = length l → NoDup l →
  let km := foldl (λ local_key_map '(node, key), <[node := key]> local_key_map) m
                  (zip l ks) in
  (∀ e, e ∉ l → km !! e = m !! e)
  ∧ (∀ (n : nat) e k, l !! n = Some e → ks !! n = Some k → km !! e = Some k).
Proof.
  induction l as [|x l IH]; intros ks m Hlen Hnd; simpl.
  { split; [done|]. by intros n e k ?. }
  destruct ks as [|k0 ks]; [done|]. simpl in *.
  apply NoDup_cons in Hnd as [Hx Hnd].
  destruct (IH ks (<[x := k0]> m)) as [Hout Hin]; [lia|done|].
  split.
  - intros e He. apply not_elem_of_cons in He as [Hne He].
    rewrite Hout by done. by rewrite lookup_insert_ne.
  - intros [|n] e k Hn Hk; simpl in *; simplify_eq.
    + rewrite Hout by done. by rewrite lookup_insert_eq.
    + by eapply Hin.
Qed.

Lemma build_key_map_spec (keys : list Z) (inputs : list T) :
  length keys = length inputs → NoDup inputs →
  ∃ km, build_key_map keys inputs = Ok km
      ∧ (∀ e, is_Some (km !! e) ↔ e ∈ inputs)
      ∧ (∀ (n : nat) e k, inputs !! n = Some e → keys !! n = Some k → km !! e = Some k).
Proof.
  intros Hlen Hnd. unfold build_key_map, assert.
  rewrite bool_decide_true by done. simpl. eexists. split; [done|].
  destruct (key_fold inputs keys ∅ Hlen Hnd) as [Hout Hin]. split; [|done].
  intros e. split.
  - intros Hs. destruct (decide (e ∈ inputs)) as [|Hne]; [done|].
    rewrite Hout, lookup_empty in Hs by done. by destruct Hs.
  - intros [n Hn]%list_elem_of_lookup_1.
    destruct (lookup_lt_is_Some_2 keys n) as [k Hk];
      [rewrite Hlen; by eapply lookup_lt_Some|].
    exists k. by eapply Hin.
Qed.

(** The object a constructor hands to [init]. *)
Definition initial (km : gmap T Z) (inputs : list T) : obj :=
  Object inputs (Members km (build_index_map inputs)).

Lemma construct_spec (flag : bool) (keys : list Z) (inputs : list T) :
  NoDup inputs → length keys = length inputs → Z.of_nat (length inputs) ≤ max_size →
  ∃ km o',
    build_key_map keys inputs = Ok km
    ∧ construct cls flag (comp_factory_of t) keys inputs = Ok o'
    ∧ pq_with km o'
    ∧ nodes o' ≡ₚ inputs
    ∧ (∀ (n : nat) e k, inputs !! n = Some e → keys !! n = Some k → km !! e = Some k)
    ∧ (flag = false → heap_ok o')
    ∧ (flag = true ∨ heap_ok (initial km inputs) → o' = initial km inputs).
Proof.
  intros Hnd Hlen Hmax.
  destruct (build_key_map_spec keys inputs Hlen Hnd) as (km & Hkm & Hdom & Hval).
  exists km. unfold construct. rewrite Hkm. simpl.
  assert (pq_with km (initial km inputs)) as HP0.
  { split; [split|done].
    - intros e i. simpl. by apply build_index_map_lookup.
    - intros e. simpl. apply Hdom. }
  fold (initial km inputs). unfold init, Heap.init.
  destruct flag; simpl.
  - exists (initial km inputs). split_and!; try done.
  - destruct (class_build_heap _ cls_ok _ _ _ _ (hooks t km) (initial km inputs) HP0 Hmax)
      as (o' & Ho' & HP' & Hperm & Hid & Hheap).
    exists o'. rewrite Ho'. split_and!; try done.
    + intros _. unfold heap_ok. rewrite (proj2 HP'). apply Hheap, cmp_of_swo.
    + intros [?|Hh]; [done|]. by apply Hid.
Qed.

  (** *** extraction in key order *)

(** A popped pair: the element with the key it had in the queue. *)
Definition keyed_pair km e : Z * T := (key_of km e, e).

Lemma top_key_value_spec km o node :
  pq_with km o → vector_at (nodes o) 0 = Ok node →
  top_key_value o = Ok (keyed_pair km node).
Proof.
  intros [[Hix Hk] Hkm] Hnode.
  pose proof (vector_at_range _ _ _ Hnode) as Hr.
  unfold top_key_value, Heap.top, assert, Heap.size.
  destruct (Z.ltb_spec 0 (Z.of_nat (length (nodes o)))) as [_|]; [|lia]. simpl.
  rewrite Hnode. simpl. unfold key_at, map_at.
  destruct (proj2 (Hk node)) as [k Hkn]; [by eapply vector_at_elem_of|].
  rewrite Hkn. simpl. unfold keyed_pair, key_of. by rewrite <- Hkm, Hkn.
Qed.

Lemma drain_spec (n : nat) : ∀ km o,
  length (nodes o) = n → pq_with km o → Heap.size o ≤ max_size → heap_ok o →
  ∃ kvs, drain cls (comp_factory_of t) (Datatypes.S n) o = Ok kvs
       ∧ kvs ≡ₚ keyed_pair km <$> nodes o
       ∧ StronglySorted key_le kvs.*1.
Proof.
  induction n as [|n IH]; intros km o Hlen HP Hmax Hh.
  { exists []. unfold drain, empty, Heap.empty, Heap.size. rewrite Hlen. simpl.
    apply nil_length_inv in Hlen as ->. split_and!; [done..|constructor]. }
  pose proof HP as [[Hix Hk] Hkm].
  destruct (vector_at_in_range (nodes o) 0) as [node Hnode]; [lia|].
  destruct (pop_spec km o node HP Hmax Hnode) as (o' & Hpop & HP' & Hperm & Hheap).
  assert (length (nodes o') = n) as Hlen'.
  { apply Permutation_length in Hperm. simpl in Hperm. lia. }
  destruct (IH (delete node km) o' Hlen' HP') as (rest & Hrest & Hprest & Hsorted);
    [unfold Heap.size in *; lia|by apply Hheap|].
  pose proof (indexed_NoDup o Hix) as Hnd. rewrite <- Hperm in Hnd.
  apply NoDup_cons in Hnd as [Hnotin _].
  assert (keyed_pair (delete node km) <$> nodes o' = keyed_pair km <$> nodes o') as Hsame.
  { apply list_fmap_ext. intros i e He. unfold keyed_pair.
    rewrite key_of_delete_ne; [done|]. intros ->. apply Hnotin.
    by eapply list_elem_of_lookup_2. }
  exists (keyed_pair km node :: rest).
  split_and!.
  - change (drain cls (comp_factory_of t) (Datatypes.S (Datatypes.S n)) o)
      with (if empty o then Ok []
            else kv ← top_key_value o; o1 ← pop cls (comp_factory_of t) o;
                 rest ← drain cls (comp_factory_of t) (Datatypes.S n) o1; Ok (kv :: rest)).
    unfold empty, Heap.empty, Heap.size. rewrite Hlen.
    change (Z.of_nat (Datatypes.S n) =? 0) with false. cbv iota.
    rewrite (top_key_value_spec km o node HP Hnode), bind_of_Ok.
    rewrite Hpop, bind_of_Ok. by rewrite Hrest.
  - rewrite Hprest, Hsame, <- Hperm. done.
  - simpl. constructor; [done|].
    rewrite Hprest, Hsame. rewrite <- list_fmap_compose.
    apply Forall_fmap, Forall_forall. intros e He. simpl.
    apply cmp_of_false.
    assert (e ∈ nodes o) as [c Hc]%elem_of_vector_at by (rewrite <- Hperm; by right).
    unfold heap_ok in Hh. rewrite Hkm in Hh.
    apply (heap_root_best (hc_parent cls) (cmp_of t km) (nodes o)
             (class_parent_lt _ cls_ok) (cmp_of_swo t km) Hmax Hh c e node Hc Hnode).
Qed.

Lemma pop_all_spec km o :
  pq_with km o → Heap.size o ≤ max_size → heap_ok o →
  ∃ kvs, pop_all cls (comp_factory_of t) o = Ok kvs
       ∧ kvs ≡ₚ keyed_pair km <$> nodes o
       ∧ StronglySorted key_le kvs.*1.
Proof. intros. by apply drain_spec. Qed.
End PQOps.
End PQOps.

(** * The properties of the specification *)

(** The heap classes of the library: [BinaryHeap], and [KHeap<K>] for every
  arity for which the class can be named. *)
Definition library_class {T S} (cls : heap_class T S) : Prop :=
  cls = BinaryHeap.class ∨ ∃ K, K < SizeT.modulus ∧ KHeap.class K = Ok cls.

Lemma library_class_ok {T S} (cls : heap_class T S) : library_class cls → class_ok cls.
Proof.
  intros [->|(K & HK & Hcls)].
  - apply BinaryClass.binary_class_ok.
  - by eapply KClass.k_class_ok.
Qed.

(** ** Index arithmetic of BinaryHeap *)

(** The closed forms of [left], [right] and [parent], and the direction of
  the leaf test that does hold: a position classified as a leaf has no
  child in range. *)
Lemma binary_index_formulas {T S} (o : object T S) (i : Z) :
  Heap.size o ≤ max_size → 0 ≤ i < Heap.size o →
  BinaryHeap.left i = 2 * i + 1
  ∧ BinaryHeap.right i = 2 * i + 2
  ∧ (0 < i → BinaryHeap.parent i = (i - 1) / 2)
  ∧ BinaryHeap.is_leaf o i = (Heap.size o / 2 + 1 <=? i)
  ∧ (BinaryHeap.is_leaf o i = true → Heap.size o ≤ 2 * i + 1).
Proof.
  intros Hmax Hi. split_and!.
  - apply BinaryIndex.left_exact. lia.
  - apply BinaryIndex.right_exact. lia.
  - intros. apply BinaryIndex.parent_exact. rewrite modulus_eq, max_size_eq in *. lia.
  - by apply BinaryIndex.is_leaf_exact.
  - rewrite BinaryIndex.is_leaf_exact by done. intros ?%Z.leb_le. div_lia.
Qed.

(** C6 (code defect).  In a heap of six elements position 3 has no child
    in range ([left 3 = 7], [right 3 = 8]) and satisfies [3 >= size / 2]
    with [size / 2 = 3] exact, so it is a leaf; [BinaryHeap::is_leaf],
    documented to return true iff the position is a leaf, returns false for
    it, because the test is [i >= size / 2 + 1].  The same happens at
    position 3 of a heap of seven elements.  [build_heap] evaluates the
    test at exactly this position, [size >> 1]. *)
Theorem C6_is_leaf_rejects_a_leaf :
  let o6 := Object [30; 1; 50; 20; 40; 60] () in
  let o7 := Object [30; 1; 50; 20; 40; 60; 100] () in
  Heap.size o6 = 6
  ∧ Heap.size o6 / 2 = 3
  ∧ BinaryHeap.left 3 = 7
  ∧ BinaryHeap.right 3 = 8
  ∧ BinaryHeap.parent 3 = 1
  ∧ BinaryHeap.is_leaf o6 3 = false
  ∧ BinaryHeap.is_leaf o6 4 = true
  ∧ Heap.size o7 = 7
  ∧ BinaryHeap.is_leaf o7 3 = false.
Proof. by vm_compute. Qed.

(** ** Construction-time contract of KHeap *)

(** C7.  Naming a k-ary heap or a k-ary priority queue with arity 1 or 2 is
  rejected when the class is instantiated, whatever the remaining
  arguments; and every arity for which the class exists is above 2. *)
Theorem C7_arity_below_three_rejected `{Countable T}
    (K : Z) (flag : bool) (keys ints : list Z) (inputs : list T) :
  K = 1 ∨ K = 2 →
  KHeap.class (T:=T) (S:=unit) K = Fail IllFormed
  ∧ KHeap.make_min_k_heap K flag ints = Fail IllFormed
  ∧ KHeap.make_max_k_heap K flag ints = Fail IllFormed
  ∧ PriorityQueue.make_min_k_priority_queue K flag keys inputs = Fail IllFormed
  ∧ PriorityQueue.make_max_k_priority_queue K flag keys inputs = Fail IllFormed
  ∧ (∀ K' (cls : heap_class T unit), KHeap.class K' = Ok cls → 2 < K').
Proof.
  intros HK. split_and!; try (by destruct HK as [-> | ->]).
  intros K' cls. unfold KHeap.class, enable_if.
  by destruct (Z.ltb_spec 2 K').
Qed.

Lemma C7_arity_below_three_rejected_witness :
  (2 = 1 ∨ 2 = 2)
  ∧ PriorityQueue.make_min_k_priority_queue 2 false [5; 4; 1] ["m"; "i"; "n"]%char
    = Fail IllFormed.
Proof.
  split; [by right|].
  apply (C7_arity_below_three_rejected 2 false [5; 4; 1] [] ["m"; "i"; "n"]%char).
  by right.
Defined.

(** A queue that holds one element. *)
Lemma singleton_pq_inv `{Countable T} (e : T) (k : Z) :
  PQInv.pq_inv (Object [e] (PriorityQueue.Members {[e := k]} {[e := 0]})).
Proof.
  split.
  - intros e' i. simpl. rewrite lookup_singleton. case_decide; subst.
    + split; [by intros [= <-]|].
      intros [Hr He]%vector_at_Ok. simpl in Hr. f_equal. lia.
    + split; [done|]. intros ?%vector_at_elem_of%list_elem_of_singleton. done.
  - intros e'. simpl. rewrite lookup_singleton, list_elem_of_singleton.
    case_decide; subst; split; try done.
Qed.

(** ** Violated preconditions *)

(** C8.  On an empty structure [top], [top_key_value] and [pop] stop at
  their assertion; [update_key] and [key_at] for an element that is not
  in the queue stop at the first checked map access; a constructor given
  key and element sequences of different lengths stops at the assertion
  of [build_key_map].  Each call ends in a fault and returns no object. *)
Theorem C8_contract_violations_fail `{Countable T}
    (cls : heap_class T (PriorityQueue.members T)) (t : PriorityQueue.Type_) (flag : bool)
    (heapify_down : Z → object Z unit → result (object Z unit))
    (h : object Z unit) (empty_q q : object T (PriorityQueue.members T))
    (e : T) (k : Z) (keys : list Z) (inputs : list T) :
  nodes h = [] →
  nodes empty_q = [] →
  PQInv.pq_inv q → e ∉ nodes q →
  length keys ≠ length inputs →
  Heap.top h = Fail AssertionFailed
  ∧ Heap.pop heapify_down h = Fail AssertionFailed
  ∧ PriorityQueue.top empty_q = Fail AssertionFailed
  ∧ PriorityQueue.top_key_value empty_q = Fail AssertionFailed
  ∧ PriorityQueue.pop cls (PriorityQueue.comp_factory_of t) empty_q = Fail AssertionFailed
  ∧ PriorityQueue.update_key cls t (PriorityQueue.comp_factory_of t) k e q = Fail OutOfRange
  ∧ PriorityQueue.key_at e q = Fail OutOfRange
  ∧ PriorityQueue.construct cls flag (PriorityQueue.comp_factory_of t) keys inputs
    = Fail AssertionFailed.
Proof.
  intros Hh Hq [Hix Hk] He Hlen. split_and!.
  - unfold Heap.top, Heap.size. by rewrite Hh.
  - unfold Heap.pop, Heap.size. by rewrite Hh.
  - unfold PriorityQueue.top, Heap.top, Heap.size. by rewrite Hq.
  - unfold PriorityQueue.top_key_value, Heap.top, Heap.size. by rewrite Hq.
  - unfold PriorityQueue.pop, PriorityQueue.size, Heap.size. by rewrite Hq.
  - unfold PriorityQueue.update_key, map_at.
    destruct (PriorityQueue.index_map (fields q) !! e) as [i|] eqn:Hi; [|done].
    destruct He. apply PQInv.indexed_elem_of; eauto.
  - unfold PriorityQueue.key_at, map_at.
    destruct (PriorityQueue.key_map (fields q) !! e) as [k'|] eqn:Hke; [|done].
    destruct He. apply Hk. eauto.
  - unfold PriorityQueue.construct, PriorityQueue.build_key_map.
    by rewrite bool_decide_false.
Qed.

Lemma C8_contract_violations_fail_witness :
  let q := Object ["m"%char] (PriorityQueue.Members {["m"%char := 5]} {["m"%char := 0]}) in
  PriorityQueue.update_key BinaryHeap.class PriorityQueue.min_heap
    PriorityQueue.min_heap_comp_factory 1 "x"%char q = Fail OutOfRange
  ∧ PriorityQueue.construct BinaryHeap.class false
      PriorityQueue.min_heap_comp_factory [1; 2] ["m"%char] = Fail AssertionFailed.
Proof.
  intros q.
  assert ("x"%char ∉ nodes q) as Hnotin.
  { simpl. by intros ?%list_elem_of_singleton. }
  pose proof (C8_contract_violations_fail BinaryHeap.class PriorityQueue.min_heap false
                (BinaryHeap.heapify_down BinaryHeap.std_greater Heap.base_swap_nodes)
                (Object [] ()) (Object [] (PriorityQueue.Members ∅ ∅)) q
                "x"%char 1 [1; 2] ["m"%char] eq_refl eq_refl
                (singleton_pq_inv "m"%char 5) Hnotin)
    as Hall.
  destruct Hall as (_ & _ & _ & _ & _ & Hup & _ & Hctor); [simpl; lia|].
  by split.
Defined.

(** ** Sift-down on a heap that became empty or a singleton *)

Lemma k_challenge_out_of_range {T S} (K : Z) (comp : S → T → T → result bool)
    (o : object T S) (comp_est j : Z) :
  Heap.size o ≤ 1 → 0 ≤ j → j + 1 < SizeT.modulus →
  KHeap.challenge K comp (Heap.size o) 0 o comp_est j = Ok comp_est.
Proof.
  intros Hsz Hj0 Hj. unfold KHeap.challenge, KHeap.child, SizeT.add, SizeT.mul.
  rewrite Z.mul_0_r, (wrap_small 0), Z.add_0_l, (wrap_small j), wrap_small
    by (rewrite ?modulus_eq in *; lia).
  by destruct (Z.ltb_spec (j + 1) (Heap.size o)); [lia|].
Qed.

Lemma k_scan_out_of_range {T S} (K : Z) (comp : S → T → T → result bool)
    (o : object T S) (l : list Z) :
  Heap.size o ≤ 1 → Forall (λ j, 0 ≤ j ∧ j + 1 < SizeT.modulus) l →
  foldlM (KHeap.challenge K comp (Heap.size o) 0 o) 0 l = Ok 0.
Proof.
  intros Hsz Hl. induction Hl as [|j l [Hj0 Hj] _ IH]; [done|].
  simpl. by rewrite k_challenge_out_of_range.
Qed.

(** C9.  [Heap::pop] on a non-empty heap is the shrunk sequence handed to
  [heapify_down(0)], without a test of the new size.  On a heap of at
  most one element [heapify_down(0)] returns the object unchanged, in
  [BinaryHeap] and in [KHeap], whatever the comparator and the swap hook
  are (they are never reached, and no read is out of range), although
  neither leaf test holds at the root: in [KHeap] the subtraction
  [size - 2] wraps around. *)
Theorem C9_heapify_down_on_small_heaps {T S : Type}
    (comp : S → T → T → result bool)
    (swap_nodes : Z → Z → object T S → result (object T S))
    (heapify_down : Z → object T S → result (object T S))
    (K : Z) (o big : object T S) (back : T) :
  Heap.size o ≤ 1 → 2 < K < SizeT.modulus → last (nodes big) = Some back →
  Heap.pop heapify_down big
    = heapify_down 0 (with_nodes (removelast (<[0%nat := back]> (nodes big))) big)
  ∧ BinaryHeap.is_leaf o 0 = false
  ∧ BinaryHeap.heapify_down comp swap_nodes 0 o = Ok o
  ∧ SizeT.sub (Heap.size o) 2 = SizeT.modulus - 2 + Heap.size o
  ∧ KHeap.is_leaf K o 0 = false
  ∧ KHeap.heapify_down K comp swap_nodes 0 o = Ok o.
Proof.
  intros Hsz HK Hback.
  assert (0 ≤ Heap.size o) as Hsz0 by (unfold Heap.size; lia).
  assert (BinaryHeap.is_leaf o 0 = false) as Hbleaf.
  { rewrite BinaryIndex.is_leaf_exact by (rewrite max_size_eq; lia).
    apply Z.leb_gt. div_lia. }
  assert (KHeap.is_leaf K o 0 = false) as Hkleaf
    by (apply (KIndex.is_leaf_wrapped K HK); lia).
  split_and!; try done.
  - unfold Heap.pop, assert, vector_back, vector_set_at, Heap.size.
    rewrite Hback.
    assert (0 < Z.of_nat (length (nodes big))) as Hpos.
    { destruct (nodes big); [done|]. simpl. lia. }
    destruct (Z.ltb_spec 0 (Z.of_nat (length (nodes big)))); [|lia]. done.
  - unfold BinaryHeap.heapify_down.
    change (BinaryHeap.heapify_down_loop comp swap_nodes
              (Datatypes.S (length (nodes o))) (Heap.size o) 0 o)
      with (if BinaryHeap.is_leaf o 0 then Ok o
            else comp_est ← BinaryHeap.challenge comp (Heap.size o) o 0 (BinaryHeap.left 0);
                 comp_est ← BinaryHeap.challenge comp (Heap.size o) o comp_est
                              (BinaryHeap.right 0);
                 if 0 =? comp_est then Ok o
                 else o' ← swap_nodes 0 comp_est o;
                      BinaryHeap.heapify_down_loop comp swap_nodes (length (nodes o))
                        (Heap.size o) comp_est o').
    rewrite Hbleaf. unfold BinaryHeap.challenge.
    change (BinaryHeap.left 0) with 1. change (BinaryHeap.right 0) with 2.
    destruct (Z.ltb_spec 1 (Heap.size o)); [lia|]. simpl.
    destruct (Z.ltb_spec 2 (Heap.size o)); [lia|]. done.
  - unfold SizeT.sub, SizeT.wrap.
    replace (Heap.size o - 2) with (SizeT.modulus - 2 + Heap.size o + (-1) * SizeT.modulus)
      by lia.
    rewrite Z.mod_add by (by rewrite modulus_eq).
    apply Z.mod_small. rewrite modulus_eq. lia.
  - unfold KHeap.heapify_down.
    change (KHeap.heapify_down_loop K comp swap_nodes
              (Datatypes.S (length (nodes o))) (Heap.size o) 0 o)
      with (if KHeap.is_leaf K o 0 then Ok o
            else comp_est ← foldlM (KHeap.challenge K comp (Heap.size o) 0 o) 0 (seqZ 0 K);
                 if 0 =? comp_est then Ok o
                 else o' ← swap_nodes 0 comp_est o;
                      KHeap.heapify_down_loop K comp swap_nodes (length (nodes o))
                        (Heap.size o) comp_est o').
    rewrite Hkleaf, k_scan_out_of_range; [done..|].
    apply Forall_seqZ. intros j Hj. lia.
Qed.

Lemma C9_heapify_down_on_small_heaps_witness :
  let fail_comp := λ (_ : unit) (_ _ : Z), Fail OutOfRange in
  let fail_swap := λ (_ _ : Z) (_ : object Z unit), Fail OutOfRange in
  Heap.pop (KHeap.heapify_down 3 fail_comp fail_swap) (Object [7] ()) = Ok (Object [] ())
  ∧ Heap.pop (BinaryHeap.heapify_down fail_comp fail_swap) (Object [7] ())
    = Ok (Object [] ()).
Proof.
  intros fail_comp fail_swap.
  assert (Heap.size (Object (T:=Z) [] ()) ≤ 1) as Hsz by (by vm_compute).
  assert (2 < 3 < SizeT.modulus) as HK by (by vm_compute).
  destruct (C9_heapify_down_on_small_heaps fail_comp fail_swap
              (KHeap.heapify_down 3 fail_comp fail_swap) 3
              (Object [] ()) (Object [7] ()) 7 Hsz HK eq_refl)
    as (Hpop & _ & _ & _ & _ & Hk).
  destruct (C9_heapify_down_on_small_heaps fail_comp fail_swap
              (BinaryHeap.heapify_down fail_comp fail_swap) 3
              (Object [] ()) (Object [7] ()) 7 Hsz HK eq_refl)
    as (Hpop' & _ & Hb & _).
  split.
  - rewrite Hpop. exact Hk.
  - rewrite Hpop'. exact Hb.
Defined.

(** ** Consistency of the two maps with the backing sequence *)

Section Consistency.
Context `{Countable T}.
Implicit Types (o : object T (PriorityQueue.members T)) (e : T).

(** The key sets of both maps are the set of stored elements, both maps
  have [size()] entries, and [index_map] sends an element to a position
  that holds it. *)
Definition consistent o : Prop :=
  dom (PriorityQueue.key_map (fields o)) = list_to_set (C:=gset T) (nodes o)
  ∧ dom (PriorityQueue.index_map (fields o)) = list_to_set (C:=gset T) (nodes o)
  ∧ Z.of_nat (base.size (PriorityQueue.key_map (fields o))) = Heap.size o
  ∧ Z.of_nat (base.size (PriorityQueue.index_map (fields o))) = Heap.size o
  ∧ ∀ e i, PriorityQueue.index_map (fields o) !! e = Some i → vector_at (nodes o) i = Ok e.

Lemma size_list_to_set_le (l : list T) :
  (base.size (list_to_set (C:=gset T) l) ≤ length l)%nat.
Proof.
  induction l as [|x l IH]; [by rewrite list_to_set_nil, size_empty|].
  rewrite list_to_set_cons. simpl length.
  etransitivity; [apply Nat.eq_le_incl, size_union_alt|].
  rewrite size_singleton.
  assert (base.size (list_to_set (C:=gset T) l ∖ {[x]}) ≤ base.size (list_to_set (C:=gset T) l))%nat
    by (apply subseteq_size, subseteq_difference_l; done).
  lia.
Qed.

Lemma size_list_to_set_NoDup (l : list T) :
  base.size (list_to_set (C:=gset T) l) = length l → NoDup l.
Proof.
  induction l as [|x l IH]; [constructor|].
  rewrite list_to_set_cons. simpl length.
  intros Hsz. pose proof (size_list_to_set_le l) as Hle.
  assert (x ∉ l) as Hx.
  { intros Hin.
    assert ({[x]} ∪ list_to_set (C:=gset T) l = list_to_set l) as Heq.
    { apply subseteq_union_1_L, singleton_subseteq_l. by apply elem_of_list_to_set. }
    rewrite Heq in Hsz. lia. }
  constructor; [done|]. apply IH.
  rewrite size_union in Hsz
    by (apply disjoint_singleton_l; by rewrite elem_of_list_to_set).
  rewrite size_singleton in Hsz. lia.
Qed.

Lemma pq_inv_consistent o : PQInv.pq_inv o ↔ consistent o.
Proof.
  split.
  - intros [Hix Hk]. pose proof (PQInv.indexed_NoDup o Hix) as Hnd.
    assert (dom (PriorityQueue.key_map (fields o)) = list_to_set (C:=gset T) (nodes o)) as Hdk.
    { apply set_eq. intros e. rewrite elem_of_dom, elem_of_list_to_set. apply Hk. }
    assert (dom (PriorityQueue.index_map (fields o)) = list_to_set (C:=gset T) (nodes o)) as Hdi.
    { apply set_eq. intros e. rewrite elem_of_dom, elem_of_list_to_set.
      symmetry. by apply PQInv.indexed_elem_of. }
    split_and!; try done.
    + by rewrite <- size_dom, Hdk, size_list_to_set.
    + by rewrite <- size_dom, Hdi, size_list_to_set.
    + intros e i. apply Hix.
  - intros (Hdk & Hdi & Hsk & Hsi & Hpos).
    assert (NoDup (nodes o)) as Hnd.
    { apply size_list_to_set_NoDup. rewrite <- Hdi, size_dom. unfold Heap.size in Hsi. lia. }
    split.
    + intros e i. split; [apply Hpos|]. intros Hat.
      assert (e ∈ dom (PriorityQueue.index_map (fields o))) as [j Hj]%elem_of_dom.
      { rewrite Hdi, elem_of_list_to_set. by eapply vector_at_elem_of. }
      pose proof (Hpos e j Hj) as Hat'.
      apply vector_at_Ok in Hat as [? Hl]. apply vector_at_Ok in Hat' as [? Hl'].
      pose proof (NoDup_lookup _ _ _ _ Hnd Hl Hl'). rewrite Hj. f_equal. lia.
    + intros e. by rewrite <- elem_of_dom, Hdk, elem_of_list_to_set.
Qed.
End Consistency.

(** C3.  For a queue over pairwise distinct elements the two maps are
  consistent with the backing sequence after construction (with either
  value of the flag) and after [push] of a new element, [pop], and
  [update_key] of a present element with any key, for both polarities and
  every heap class of the library. *)
Theorem C3_maps_consistent_with_sequence `{Countable T}
    (cls : heap_class T (PriorityQueue.members T)) (t : PriorityQueue.Type_) (flag : bool)
    (keys : list Z) (inputs : list T)
    (o : object T (PriorityQueue.members T)) (k : Z) (e : T) :
  library_class cls →
  NoDup inputs → length keys = length inputs → Z.of_nat (length inputs) ≤ max_size →
  consistent o → Heap.size o ≤ max_size →
  (∃ q, PriorityQueue.construct cls flag (PriorityQueue.comp_factory_of t) keys inputs = Ok q
        ∧ consistent q ∧ nodes q ≡ₚ inputs)
  ∧ (e ∉ nodes o → Heap.size o < max_size →
     ∃ o', PriorityQueue.push cls (PriorityQueue.comp_factory_of t) k e o = Ok o'
           ∧ consistent o' ∧ nodes o' ≡ₚ e :: nodes o)
  ∧ (∀ node, vector_at (nodes o) 0 = Ok node →
     ∃ o', PriorityQueue.pop cls (PriorityQueue.comp_factory_of t) o = Ok o'
           ∧ consistent o' ∧ node :: nodes o' ≡ₚ nodes o)
  ∧ (e ∈ nodes o →
     ∃ o', PriorityQueue.update_key cls t (PriorityQueue.comp_factory_of t) k e o = Ok o'
           ∧ consistent o' ∧ nodes o' ≡ₚ nodes o).
Proof.
  intros Hcls%library_class_ok Hnd Hlen Hmax Hcons%pq_inv_consistent Hsz.
  pose proof (conj Hcons (eq_refl (PriorityQueue.key_map (fields o)))) as HP.
  split_and!.
  - destruct (PQOps.construct_spec cls Hcls t flag keys inputs Hnd Hlen Hmax)
      as (km & q & _ & Hq & [Hinv _] & Hperm & _).
    exists q. split_and!; [done| |done]. by apply pq_inv_consistent.
  - intros He Hlt.
    destruct (PQOps.push_spec cls Hcls t _ o k e HP Hlt He) as (o' & Ho' & [Hinv _] & Hperm & _).
    exists o'. split_and!; [done| |done]. by apply pq_inv_consistent.
  - intros node Hnode.
    destruct (PQOps.pop_spec cls Hcls t _ o node HP Hsz Hnode)
      as (o' & Ho' & [Hinv _] & Hperm & _).
    exists o'. split_and!; [done| |done]. by apply pq_inv_consistent.
  - intros He.
    destruct (PQOps.update_key_spec cls Hcls t _ o k e HP Hsz He)
      as (i & o' & _ & Ho' & _ & [Hinv _] & Hperm & _).
    exists o'. split_and!; [done| |done]. by apply pq_inv_consistent.
Qed.

(** C10.  In a min queue [update_key(k, e)] for a present element returns a
  queue whose [key_map] differs from the old one at [e] only, whose
  backing sequence is a permutation of the old one, and whose
  [index_map] still gives the position of every element; the new key may
  be any key. *)
Theorem C10_update_key_frame `{Countable T}
    (cls : heap_class T (PriorityQueue.members T))
    (o : object T (PriorityQueue.members T)) (k : Z) (e : T) :
  library_class cls → PQInv.pq_inv o → Heap.size o ≤ max_size → e ∈ nodes o →
  ∃ o', PriorityQueue.update_key cls PriorityQueue.min_heap
          PriorityQueue.min_heap_comp_factory k e o = Ok o'
      ∧ PriorityQueue.key_map (fields o') !! e = Some k
      ∧ (∀ e', e' ≠ e →
           PriorityQueue.key_map (fields o') !! e' = PriorityQueue.key_map (fields o) !! e')
      ∧ nodes o' ≡ₚ nodes o
      ∧ (∀ e' i, PriorityQueue.index_map (fields o') !! e' = Some i
                 ↔ vector_at (nodes o') i = Ok e').
Proof.
  intros Hcls%library_class_ok Hinv Hsz He.
  pose proof (conj Hinv (eq_refl (PriorityQueue.key_map (fields o)))) as HP.
  destruct (PQOps.update_key_spec cls Hcls PriorityQueue.min_heap _ o k e HP Hsz He)
    as (i & o' & _ & Ho' & _ & [[Hix _] Hkm] & Hperm & _).
  exists o'. split_and!; try done.
  - by rewrite Hkm, lookup_insert_eq.
  - intros e' Hne. by rewrite Hkm, lookup_insert_ne.
Qed.

(** ** update_key in the allowed direction *)

(** The README example: keys [0,2,4,6,8,10,12] over the letters of
  "minheap", then [update_key(5,'e')], [update_key(1,'p')], then the
  queue is drained. *)
Definition update_example (flag : bool) : result (list (Z * ascii)) :=
  q ← PriorityQueue.make_min_priority_queue flag [0; 2; 4; 6; 8; 10; 12]
        ["m"; "i"; "n"; "h"; "e"; "a"; "p"]%char;
  q ← PriorityQueue.update_key BinaryHeap.class PriorityQueue.min_heap
        PriorityQueue.min_heap_comp_factory 5 "e"%char q;
  q ← PriorityQueue.update_key BinaryHeap.class PriorityQueue.min_heap
        PriorityQueue.min_heap_comp_factory 1 "p"%char q;
  PriorityQueue.pop_all BinaryHeap.class PriorityQueue.min_heap_comp_factory q.

(** C4.  In a min queue that satisfies the heap property, [update_key]
  with a key not above the current one of a present element returns; the
  result is the old object with [key_map[element]] overwritten, handed
  to one [heapify_up] from the element's index; it satisfies the heap
  property and keeps the maps consistent.  The example of the README pops
  (0,m) (1,p) (2,i) (4,n) (5,e) (6,h) (10,a), with either value of the
  flag. *)
Theorem C4_decrease_key_sifts_up `{Countable T}
    (cls : heap_class T (PriorityQueue.members T))
    (o : object T (PriorityQueue.members T)) (k : Z) (e : T) :
  library_class cls → PQInv.pq_inv o → Heap.size o ≤ max_size → e ∈ nodes o →
  PQOps.heap_ok cls PriorityQueue.min_heap o →
  k ≤ PQInv.key_of (PriorityQueue.key_map (fields o)) e →
  (∃ i o',
     PriorityQueue.index_map (fields o) !! e = Some i
     ∧ PriorityQueue.update_key cls PriorityQueue.min_heap
         PriorityQueue.min_heap_comp_factory k e o = Ok o'
     ∧ PriorityQueue.heapify_up cls PriorityQueue.min_heap_comp_factory i
         (PriorityQueue.with_key_map (<[e := k]> (PriorityQueue.key_map (fields o))) o)
       = Ok o'
     ∧ PriorityQueue.key_map (fields o') = <[e := k]> (PriorityQueue.key_map (fields o))
     ∧ PQOps.heap_ok cls PriorityQueue.min_heap o'
     ∧ PQInv.pq_inv o')
  ∧ (∀ flag, update_example flag =
       Ok [(0, "m"); (1, "p"); (2, "i"); (4, "n"); (5, "e"); (6, "h"); (10, "a")]%char).
Proof.
  intros Hcls%library_class_ok Hinv Hsz He Hheap Hk.
  pose proof (conj Hinv (eq_refl (PriorityQueue.key_map (fields o)))) as HP.
  split.
  - destruct (PQOps.update_key_spec cls Hcls PriorityQueue.min_heap _ o k e HP Hsz He)
      as (i & o' & Hi & Ho' & Hup & [Hinv' Hkm] & Hperm & Hh).
    exists i, o'. split_and!; try done. by apply Hh.
  - by intros []; vm_compute.
Qed.

(** ** The already-a-heap flag *)

Section PlainHeaps.
Context {T : Type}.
Variable cmp : T → T → bool.
Variable cls : heap_class T unit.
Hypothesis cls_ok : class_ok cls.

(** On an input that is a heap, the constructor of a plain heap builds the
  same object with either value of the flag. *)
Lemma plain_construct_flag (inputs : list T) :
  Z.of_nat (length inputs) ≤ max_size →
  heap_ordered (hc_parent cls) cmp inputs →
  Heap.construct (hc_build_heap cls (λ _ a b, Ok (cmp a b)) Heap.base_swap_nodes)
    true () inputs
  = Heap.construct (hc_build_heap cls (λ _ a b, Ok (cmp a b)) Heap.base_swap_nodes)
      false () inputs.
Proof.
  intros Hmax Hh. unfold Heap.construct, Heap.init. simpl.
  destruct (class_build_heap _ cls_ok _ _ _ _ (plain_hooks (S:=unit) cmp)
              (Object inputs ()) I Hmax) as (o' & -> & _ & _ & Hid & _).
  simpl. by rewrite (Hid Hh).
Qed.
End PlainHeaps.

(** C5.  When the input satisfies the heap property for the comparator,
  the constructor returns the same object with the flag set and with the
  flag clear, so every later observation agrees, the pop order among
  them: for the priority queues and for the plain heaps, binary and
  k-ary, min and max. *)
Theorem C5_already_heap_flag_equivalence `{Countable T}
    (cls : heap_class T (PriorityQueue.members T)) (t : PriorityQueue.Type_)
    (keys : list Z) (inputs : list T) (km : gmap T Z) :
  library_class cls →
  NoDup inputs → length keys = length inputs → Z.of_nat (length inputs) ≤ max_size →
  PriorityQueue.build_key_map keys inputs = Ok km →
  heap_ordered (hc_parent cls) (PQInv.cmp_of t km) inputs →
  PriorityQueue.construct cls true (PriorityQueue.comp_factory_of t) keys inputs
  = PriorityQueue.construct cls false (PriorityQueue.comp_factory_of t) keys inputs
  ∧ (∃ q kvs,
       PriorityQueue.construct cls true (PriorityQueue.comp_factory_of t) keys inputs = Ok q
       ∧ PriorityQueue.construct cls false (PriorityQueue.comp_factory_of t) keys inputs = Ok q
       ∧ PriorityQueue.pop_all cls (PriorityQueue.comp_factory_of t) q = Ok kvs)
  ∧ (∀ ints : list Z, Z.of_nat (length ints) ≤ max_size →
       (heap_ordered BinaryHeap.parent (λ a b, b <? a) ints →
        BinaryHeap.make_min_heap true ints = BinaryHeap.make_min_heap false ints)
       ∧ (heap_ordered BinaryHeap.parent (λ a b, a <? b) ints →
          BinaryHeap.make_max_heap true ints = BinaryHeap.make_max_heap false ints)
       ∧ (∀ K, 2 < K < SizeT.modulus →
          (heap_ordered (KHeap.parent K) (λ a b, b <? a) ints →
           KHeap.make_min_k_heap K true ints = KHeap.make_min_k_heap K false ints)
          ∧ (heap_ordered (KHeap.parent K) (λ a b, a <? b) ints →
             KHeap.make_max_k_heap K true ints = KHeap.make_max_k_heap K false ints))).
Proof.
  intros Hcls%library_class_ok Hnd Hlen Hmax Hkm Hheap.
  destruct (PQOps.construct_spec cls Hcls t true keys inputs Hnd Hlen Hmax)
    as (km1 & q1 & Hkm1 & Hq1 & HP1 & _ & _ & _ & Hid1).
  destruct (PQOps.construct_spec cls Hcls t false keys inputs Hnd Hlen Hmax)
    as (km2 & q2 & Hkm2 & Hq2 & HP2 & _ & _ & Hh2 & Hid2).
  rewrite Hkm in Hkm1, Hkm2. simplify_eq.
  rewrite Hid1 in * by (by left). rewrite Hid2 in * by (by right).
  split_and!.
  - by rewrite Hq1, Hq2.
  - destruct (PQOps.pop_all_spec cls Hcls t km1 _ HP2) as (kvs & Hkvs & _);
      [unfold Heap.size; simpl; lia|by apply Hh2|].
    by exists (PQOps.initial km1 inputs), kvs.
  - intros ints Hints. split_and!.
    + apply (plain_construct_flag (λ a b : Z, b <? a) BinaryHeap.class
               BinaryClass.binary_class_ok ints Hints).
    + apply (plain_construct_flag (λ a b : Z, a <? b) BinaryHeap.class
               BinaryClass.binary_class_ok ints Hints).
    + intros K HK.
      unfold KHeap.make_min_k_heap, KHeap.make_max_k_heap, KHeap.class, enable_if.
      destruct (Z.ltb_spec 2 K); [|lia]. simpl.
      assert (class_ok (T:=Z) (S:=unit)
                (HeapClass (KHeap.parent K) (KHeap.heapify_down K) (KHeap.build_heap K)))
        as Hk.
      { apply (KClass.k_class_ok K); [lia|].
        unfold KHeap.class, enable_if. by destruct (Z.ltb_spec 2 K); [|lia]. }
      split.
      * apply (plain_construct_flag (λ a b : Z, b <? a) _ Hk ints Hints).
      * apply (plain_construct_flag (λ a b : Z, a <? b) _ Hk ints Hints).
Qed.

(** ** Extraction in key order *)

Lemma keyed_pairs_zip `{Countable T} (km : gmap T Z) : ∀ (keys : list Z) (inputs : list T),
  length keys = length inputs →
  (∀ (n : nat) e k, inputs !! n = Some e → keys !! n = Some k → km !! e = Some k) →
  PQOps.keyed_pair km <$> inputs = zip keys inputs.
Proof.
  induction keys as [|k keys IH]; intros [|e inputs] Hlen Hval; try done.
  simpl in *. f_equal.
  - unfold PQOps.keyed_pair, PQInv.key_of. by rewrite (Hval 0%nat e k).
  - apply IH; [lia|]. intros n e' k'. apply (Hval (Datatypes.S n)).
Qed.

(** The order in which a polarity releases keys. *)
Definition release_order (t : PriorityQueue.Type_) : Z → Z → Prop :=
  match t with
  | PriorityQueue.min_heap => Z.le
  | PriorityQueue.max_heap => flip Z.le
  end.

(** A queue built from distinct elements, of any heap class of the library
  and either polarity, pops every pair it was given, in the order of the
  polarity. *)
Lemma constructed_queue_pops_sorted `{Countable T}
    (cls : heap_class T (PriorityQueue.members T)) (t : PriorityQueue.Type_)
    (keys : list Z) (inputs : list T) :
  library_class cls →
  NoDup inputs → length keys = length inputs → Z.of_nat (length inputs) ≤ max_size →
  ∃ q kvs,
    PriorityQueue.construct cls false (PriorityQueue.comp_factory_of t) keys inputs = Ok q
    ∧ PriorityQueue.pop_all cls (PriorityQueue.comp_factory_of t) q = Ok kvs
    ∧ kvs ≡ₚ zip keys inputs
    ∧ StronglySorted (release_order t) kvs.*1.
Proof.
  intros Hcls%library_class_ok Hnd Hlen Hmax.
  destruct (PQOps.construct_spec cls Hcls t false keys inputs Hnd Hlen Hmax)
    as (km & q & Hkm & Hq & HP & Hperm & Hval & Hh & _).
  assert (Heap.size q ≤ max_size) as Hsz by (unfold Heap.size; by rewrite Hperm).
  destruct (PQOps.pop_all_spec cls Hcls t km q HP Hsz (Hh eq_refl))
    as (kvs & Hkvs & Hpkvs & Hsorted).
  exists q, kvs. split_and!; try done.
  - by rewrite Hpkvs, Hperm, (keyed_pairs_zip km keys inputs).
  - by destruct t.
Qed.

(** C1.  A binary min queue built from distinct elements pops all its
  (key, element) pairs in non-decreasing key order, a binary max queue in
  non-increasing key order; the queue of the README pops
  (0,a) (1,n) (2,p) (3,h) (4,i) (5,m) (6,e). *)
Theorem C1_sorted_extraction `{Countable T} (keys : list Z) (inputs : list T) :
  NoDup inputs → length keys = length inputs → Z.of_nat (length inputs) ≤ max_size →
  (∃ q kvs,
     PriorityQueue.make_min_priority_queue false keys inputs = Ok q
     ∧ PriorityQueue.pop_all BinaryHeap.class PriorityQueue.min_heap_comp_factory q = Ok kvs
     ∧ kvs ≡ₚ zip keys inputs
     ∧ StronglySorted Z.le kvs.*1)
  ∧ (∃ q kvs,
       PriorityQueue.make_max_priority_queue false keys inputs = Ok q
       ∧ PriorityQueue.pop_all BinaryHeap.class PriorityQueue.max_heap_comp_factory q = Ok kvs
       ∧ kvs ≡ₚ zip keys inputs
       ∧ StronglySorted (flip Z.le) kvs.*1)
  ∧ (q ← PriorityQueue.make_min_priority_queue false [5; 4; 1; 3; 6; 0; 2]
           ["m"; "i"; "n"; "h"; "e"; "a"; "p"]%char;
     PriorityQueue.pop_all BinaryHeap.class PriorityQueue.min_heap_comp_factory q)
    = Ok [(0, "a"); (1, "n"); (2, "p"); (3, "h"); (4, "i"); (5, "m"); (6, "e")]%char.
Proof.
  intros Hnd Hlen Hmax. split_and!.
  - apply (constructed_queue_pops_sorted BinaryHeap.class PriorityQueue.min_heap);
      [by left|done..].
  - apply (constructed_queue_pops_sorted BinaryHeap.class PriorityQueue.max_heap);
      [by left|done..].
  - by vm_compute.
Qed.

Lemma C1_sorted_extraction_witness :
  ∃ q kvs,
    PriorityQueue.make_max_priority_queue false [5; 4; 1] ["m"; "i"; "n"]%char = Ok q
    ∧ PriorityQueue.pop_all BinaryHeap.class PriorityQueue.max_heap_comp_factory q = Ok kvs
    ∧ kvs ≡ₚ zip [5; 4; 1] ["m"; "i"; "n"]%char
    ∧ StronglySorted (flip Z.le) kvs.*1.
Proof.
  refine (proj1 (proj2 (C1_sorted_extraction [5; 4; 1] ["m"; "i"; "n"]%char _ _ _))).
  - apply (bool_decide_unpack _). by vm_compute.
  - reflexivity.
  - by vm_compute.
Defined.

(** ** The heap property *)

(** The max queue with keys [3,2,1] over a, b, c, and the same queue after
  [update_key(10, 'c')]. *)
Definition max_example : result (object ascii (PriorityQueue.members ascii)) :=
  PriorityQueue.make_max_priority_queue false [3; 2; 1] ["a"; "b"; "c"]%char.

Definition max_example_updated : result (object ascii (PriorityQueue.members ascii)) :=
  q ← max_example;
  PriorityQueue.update_key BinaryHeap.class PriorityQueue.max_heap
    PriorityQueue.max_heap_comp_factory 10 "c"%char q.

(** C2 (code defect).  The max queue built from keys [3,2,1] satisfies the
  heap property; raising the key of 'c' from 1 to 10, the direction a max
  queue allows, runs [heapify_down] from the leaf at index 2 and leaves
  the sequence as it was: the parent at index 0 (key 3) now loses to its
  child at index 2 (key 10), the heap property is broken, and the queue
  pops (3,a) (10,c) (2,b). *)
Theorem C2_max_update_key_breaks_heap_property :
  ∃ q q',
    max_example = Ok q
    ∧ heap_ordered BinaryHeap.parent
        (PQInv.cmp_of PriorityQueue.max_heap (PriorityQueue.key_map (fields q))) (nodes q)
    ∧ PriorityQueue.key_at "c"%char q = Ok 1
    ∧ max_example_updated = Ok q'
    ∧ nodes q' = ["a"; "b"; "c"]%char
    ∧ BinaryHeap.parent 2 = 0
    ∧ PriorityQueue.key_at "a"%char q' = Ok 3
    ∧ PriorityQueue.key_at "c"%char q' = Ok 10
    ∧ PriorityQueue.comp PriorityQueue.max_heap_comp_factory (fields q') "a"%char "c"%char
      = Ok true
    ∧ ¬ heap_ordered BinaryHeap.parent
          (PQInv.cmp_of PriorityQueue.max_heap (PriorityQueue.key_map (fields q'))) (nodes q')
    ∧ PriorityQueue.pop_all BinaryHeap.class PriorityQueue.max_heap_comp_factory q'
      = Ok [(3, "a"); (10, "c"); (2, "b")]%char.
Proof.
  destruct (is_Ok_inv max_example) as [q Hq]; [vm_compute; reflexivity|].
  destruct (is_Ok_inv max_example_updated) as [q' Hq']; [vm_compute; reflexivity|].
  exists q, q'.
  split; [done|].
  split; [apply heap_orderedb_spec; eval_at max_example q Hq|].
  split; [eval_at max_example q Hq|].
  split; [done|].
  split; [eval_at max_example_updated q' Hq'|].
  split; [vm_compute; reflexivity|].
  split; [eval_at max_example_updated q' Hq'|].
  split; [eval_at max_example_updated q' Hq'|].
  split; [eval_at max_example_updated q' Hq'|].
  split; [|eval_at max_example_updated q' Hq'].
  intros Hbad%heap_orderedb_spec.
  assert (heap_orderedb BinaryHeap.parent
            (PQInv.cmp_of PriorityQueue.max_heap (PriorityQueue.key_map (fields q')))
            (nodes q') = false) as Hno by eval_at max_example_updated q' Hq'.
  congruence.
Qed.

(** ** Instances *)

(** The object a constructor starts from satisfies the invariant of the
    maps. *)
Lemma initial_pq_inv `{Countable T} (keys : list Z) (inputs : list T) (km : gmap T Z) :
  NoDup inputs → length keys = length inputs →
  PriorityQueue.build_key_map keys inputs = Ok km →
  PQInv.pq_inv (PQOps.initial km inputs).
Proof.
  intros Hnd Hlen Hkm.
  destruct (PQOps.build_key_map_spec keys inputs Hlen Hnd) as (km' & Hkm' & Hdom & _).
  rewrite Hkm in Hkm'. simplify_eq. split.
  - intros e i. simpl. by apply PQOps.build_index_map_lookup.
  - intros e. simpl. apply Hdom.
Qed.

(** The queue of the README with the sorted keys [0,2,4,6,8,10,12] over the
    letters of "minheap", as the constructor leaves it when the flag is
    set. *)
Definition minheap_keys : gmap ascii Z :=
  foldl (λ local_key_map '(node, key), <[node := key]> local_key_map) ∅
    (zip ["m"; "i"; "n"; "h"; "e"; "a"; "p"]%char [0; 2; 4; 6; 8; 10; 12]).

Definition minheap_queue : object ascii (PriorityQueue.members ascii) :=
  PQOps.initial minheap_keys ["m"; "i"; "n"; "h"; "e"; "a"; "p"]%char.

Lemma minheap_is_heap :
  heap_ordered BinaryHeap.parent (PQInv.cmp_of PriorityQueue.min_heap minheap_keys)
    ["m"; "i"; "n"; "h"; "e"; "a"; "p"]%char.
Proof. apply heap_orderedb_spec. vm_compute. reflexivity. Qed.

Lemma minheap_queue_inv : PQInv.pq_inv minheap_queue.
Proof.
  apply (initial_pq_inv [0; 2; 4; 6; 8; 10; 12]); [|done..].
  apply (bool_decide_unpack _). by vm_compute.
Qed.

Lemma C3_maps_consistent_with_sequence_witness :
  ∃ o', PriorityQueue.push BinaryHeap.class PriorityQueue.min_heap_comp_factory 3 "x"%char
          minheap_queue = Ok o'
      ∧ consistent o'
      ∧ nodes o' ≡ₚ ["x"; "m"; "i"; "n"; "h"; "e"; "a"; "p"]%char.
Proof.
  refine (proj1 (proj2 (C3_maps_consistent_with_sequence BinaryHeap.class
            PriorityQueue.min_heap false [5; 4; 1] ["m"; "i"; "n"]%char
            minheap_queue 3 "x"%char _ _ _ _ _ _)) _ _).
  - by left.
  - apply (bool_decide_unpack _). by vm_compute.
  - reflexivity.
  - by vm_compute.
  - apply pq_inv_consistent, minheap_queue_inv.
  - by vm_compute.
  - apply (bool_decide_unpack _). by vm_compute.
  - by vm_compute.
Defined.

Lemma C10_update_key_frame_witness :
  ∃ o', PriorityQueue.update_key BinaryHeap.class PriorityQueue.min_heap
          PriorityQueue.min_heap_comp_factory 20 "i"%char minheap_queue = Ok o'
      ∧ PriorityQueue.key_map (fields o') !! "i"%char = Some 20
      ∧ nodes o' ≡ₚ nodes minheap_queue.
Proof.
  destruct (C10_update_key_frame BinaryHeap.class minheap_queue 20 "i"%char)
    as (o' & Ho' & Hk & _ & Hperm & _).
  - by left.
  - apply minheap_queue_inv.
  - by vm_compute.
  - apply (bool_decide_unpack _). by vm_compute.
  - by exists o'.
Defined.

Lemma C4_decrease_key_sifts_up_witness :
  ∃ i o',
    PriorityQueue.index_map (fields minheap_queue) !! "e"%char = Some i
    ∧ PriorityQueue.update_key BinaryHeap.class PriorityQueue.min_heap
        PriorityQueue.min_heap_comp_factory 5 "e"%char minheap_queue = Ok o'
    ∧ PriorityQueue.key_map (fields o') = <["e"%char := 5]> minheap_keys
    ∧ PQOps.heap_ok BinaryHeap.class PriorityQueue.min_heap o'.
Proof.
  destruct (C4_decrease_key_sifts_up BinaryHeap.class minheap_queue 5 "e"%char)
    as [(i & o' & Hi & Ho' & _ & Hkm & Hheap & _) _].
  - by left.
  - apply minheap_queue_inv.
  - by vm_compute.
  - apply (bool_decide_unpack _). by vm_compute.
  - apply minheap_is_heap.
  - by vm_compute.
  - by exists i, o'.
Defined.

Lemma C5_already_heap_flag_equivalence_witness :
  PriorityQueue.make_min_priority_queue true [0; 2; 4; 6; 8; 10; 12]
    ["m"; "i"; "n"; "h"; "e"; "a"; "p"]%char
  = PriorityQueue.make_min_priority_queue false [0; 2; 4; 6; 8; 10; 12]
      ["m"; "i"; "n"; "h"; "e"; "a"; "p"]%char.
Proof.
  refine (proj1 (C5_already_heap_flag_equivalence BinaryHeap.class PriorityQueue.min_heap
            [0; 2; 4; 6; 8; 10; 12] ["m"; "i"; "n"; "h"; "e"; "a"; "p"]%char
            minheap_keys _ _ _ _ _ _)).
  - by left.
  - apply (bool_decide_unpack _). by vm_compute.
  - reflexivity.
  - by vm_compute.
  - reflexivity.
  - apply minheap_is_heap.
Defined.

(** ** What does preserve the heap property *)

(** X16.  A queue in heap order with consistent maps, of either polarity
  and any heap class of the library, whatever calls produced it, pops all
  its pairs in the order of the polarity. *)
Lemma ordered_queue_pops_sorted `{Countable T}
    (cls : heap_class T (PriorityQueue.members T)) (t : PriorityQueue.Type_)
    (o : object T (PriorityQueue.members T)) :
  library_class cls → PQInv.pq_inv o → Heap.size o ≤ max_size → PQOps.heap_ok cls t o →
  ∃ kvs, PriorityQueue.pop_all cls (PriorityQueue.comp_factory_of t) o = Ok kvs
       ∧ kvs ≡ₚ PQOps.keyed_pair (PriorityQueue.key_map (fields o)) <$> nodes o
       ∧ StronglySorted (release_order t) kvs.*1.
Proof.
  intros Hcls%library_class_ok Hinv Hsz Hh.
  destruct (PQOps.pop_all_spec cls Hcls t _ o (conj Hinv eq_refl) Hsz Hh)
    as (kvs & Hkvs & Hperm & Hsorted).
  exists kvs. split_and!; try done. by destruct t.
Qed.

(** Construction with the flag clear, or with the flag set on an ordered
  input, [push] of a new element, [pop], and [update_key] of a min queue
  with a key that is not larger: each returns a queue in heap order.
  ([update_key] of a max queue is absent: see the theorem on the max
  queue above.) *)
Theorem heap_property_preserved `{Countable T}
    (cls : heap_class T (PriorityQueue.members T)) (t : PriorityQueue.Type_) (flag : bool)
    (keys : list Z) (inputs : list T) (km : gmap T Z)
    (o : object T (PriorityQueue.members T)) (k : Z) (e : T) :
  library_class cls →
  NoDup inputs → length keys = length inputs → Z.of_nat (length inputs) ≤ max_size →
  PriorityQueue.build_key_map keys inputs = Ok km →
  PQInv.pq_inv o → Heap.size o ≤ max_size → PQOps.heap_ok cls t o →
  (flag = false ∨ heap_ordered (hc_parent cls) (PQInv.cmp_of t km) inputs →
   ∃ q, PriorityQueue.construct cls flag (PriorityQueue.comp_factory_of t) keys inputs = Ok q
        ∧ PQOps.heap_ok cls t q)
  ∧ (e ∉ nodes o → Heap.size o < max_size →
     ∃ o', PriorityQueue.push cls (PriorityQueue.comp_factory_of t) k e o = Ok o'
           ∧ PQOps.heap_ok cls t o')
  ∧ (∀ node, vector_at (nodes o) 0 = Ok node →
     ∃ o', PriorityQueue.pop cls (PriorityQueue.comp_factory_of t) o = Ok o'
           ∧ PQOps.heap_ok cls t o')
  ∧ (e ∈ nodes o → t = PriorityQueue.min_heap →
     k ≤ PQInv.key_of (PriorityQueue.key_map (fields o)) e →
     ∃ o', PriorityQueue.update_key cls t (PriorityQueue.comp_factory_of t) k e o = Ok o'
           ∧ PQOps.heap_ok cls t o').
Proof.
  intros Hcls%library_class_ok Hnd Hlen Hmax Hkm Hinv Hsz Hh.
  pose proof (conj Hinv (eq_refl (PriorityQueue.key_map (fields o)))) as HP.
  split_and!.
  - intros Hflag.
    destruct (PQOps.construct_spec cls Hcls t flag keys inputs Hnd Hlen Hmax)
      as (km' & q & Hkm' & Hq & HPq & _ & _ & Hfalse & Hid).
    rewrite Hkm in Hkm'. simplify_eq. exists q. split; [done|].
    destruct flag; [|by apply Hfalse].
    destruct Hflag as [?|Hheap]; [done|]. by rewrite Hid by (by left).
  - intros He Hlt.
    destruct (PQOps.push_spec cls Hcls t _ o k e HP Hlt He) as (o' & Ho' & _ & _ & Hh').
    exists o'. split; [done|by apply Hh'].
  - intros node Hnode.
    destruct (PQOps.pop_spec cls Hcls t _ o node HP Hsz Hnode) as (o' & Ho' & _ & _ & Hh').
    exists o'. split; [done|by apply Hh'].
  - intros He Ht Hk.
    destruct (PQOps.update_key_spec cls Hcls t _ o k e HP Hsz He)
      as (i & o' & _ & Ho' & _ & _ & _ & Hh').
    exists o'. split; [done|by apply Hh'].
Qed.

(** * Beyond the specification: the plain heaps *)

(** The loop of the test suites, [for (const auto& v : xs) heap.push(v);]. *)
Definition push_all {A O} (push : A → O → result O) (xs : list A) (o : O) : result O :=
  foldlM (λ o x, push x o) o xs.

Lemma foldlM_app {A B} (f : A → B → result A) (a : A) (l1 l2 : list B) :
  foldlM f a (l1 ++ l2) = (a' ← foldlM f a l1; foldlM f a' l2).
Proof.
  revert a. induction l1 as [|b l1 IH]; intros a; simpl.
  - by destruct (foldlM f a l2).
  - destruct (f a b); simpl; [apply IH|done].
Qed.

(** A heap whose comparator is a pure function and whose swap hook is the
    one of [Heap]: the objects of [make_min_heap] and its siblings. *)
Section PlainOps.
Context {T : Type}.
Variable cmp : T → T → bool.
Variable cls : heap_class T unit.
Hypothesis cls_ok : class_ok cls.
Implicit Types (o : object T unit) (v : list T).

Definition plain_comp (_ : unit) (a b : T) : result bool := Ok (cmp a b).

Definition plain_push (x : T) o : result (object T unit) :=
  Heap.push plain_comp (hc_parent cls) Heap.base_swap_nodes x o.

Definition plain_pop o : result (object T unit) :=
  Heap.pop (hc_heapify_down cls plain_comp Heap.base_swap_nodes) o.

Definition plain_pop_all o : result (list T) :=
  Heap.pop_all (hc_heapify_down cls plain_comp Heap.base_swap_nodes) o.

Definition plain_construct (flag : bool) (inputs : list T) : result (object T unit) :=
  Heap.construct (hc_build_heap cls plain_comp Heap.base_swap_nodes) flag () inputs.

(** The order the comparator induces: [a] is not displaced by [b]. *)
Definition stays_above (a b : T) : Prop := cmp a b = false.

Definition plain_heap o : Prop := heap_ordered (hc_parent cls) cmp (nodes o).

Lemma plain_parent_below v c x :
  Z.of_nat (length v) ≤ max_size → 0 < c → vector_at v c = Ok x →
  0 ≤ hc_parent cls c < c.
Proof.
  intros Hmax Hc Hx%vector_at_range. apply (class_parent_lt _ cls_ok).
  rewrite modulus_eq, max_size_eq in *. lia.
Qed.

Lemma plain_construct_spec (flag : bool) (inputs : list T) :
  Z.of_nat (length inputs) ≤ max_size →
  ∃ h, plain_construct flag inputs = Ok h
     ∧ nodes h ≡ₚ inputs
     ∧ (flag = true → h = Object inputs ())
     ∧ (flag = false → strict_weak_order cmp → plain_heap h).
Proof.
  intros Hmax. unfold plain_construct, Heap.construct, Heap.init.
  destruct flag; simpl.
  - exists (Object inputs ()). by split_and!.
  - destruct (class_build_heap _ cls_ok _ _ _ _ (plain_hooks (S:=unit) cmp)
                (Object inputs ()) I Hmax) as (h & Hh & _ & Hperm & _ & Hheap).
    unfold plain_comp. rewrite Hh. simpl.
    exists h. split_and!; [done|done|done|]. intros _ Hswo. by apply Hheap.
Qed.

Lemma plain_push_spec (x : T) o :
  Heap.size o < max_size →
  ∃ o', plain_push x o = Ok o'
      ∧ nodes o' ≡ₚ x :: nodes o
      ∧ (strict_weak_order cmp → plain_heap o → plain_heap o').
Proof.
  intros Hmax. unfold plain_push, Heap.push, vector_emplace_back.
  destruct (Z.ltb_spec (Z.of_nat (length (nodes o))) max_size) as [_|];
    [|unfold Heap.size in *; lia].
  simpl. set (o1 := with_nodes (nodes o ++ [x]) o).
  assert (Heap.size o1 = Heap.size o + 1) as Hsz1.
  { unfold Heap.size. simpl. rewrite length_app. simpl. lia. }
  destruct (heapify_up_sifts _ _ _ _ (plain_hooks (S:=unit) cmp) (hc_parent cls)
              (class_parent_lt _ cls_ok) (Heap.size o) o1 I)
    as (o' & Ho' & _ & Hperm & Hheap); [lia|unfold Heap.size; lia|lia|].
  exists o'. split_and!; [done| |].
  - rewrite Hperm. simpl. by rewrite Permutation_app_comm.
  - intros Hswo Hh. apply Hheap; [done|]. simpl. split.
    + intros c x' y Hc Hne Hx Hy.
      pose proof (vector_at_range _ _ _ Hx) as Hr. rewrite length_app in Hr. simpl in Hr.
      assert (0 ≤ hc_parent cls c < c) as Hpc.
      { apply (plain_parent_below (nodes o ++ [x]) c x'); [|done..].
        rewrite length_app. simpl. unfold Heap.size in *. lia. }
      unfold Heap.size in *.
      rewrite vector_at_snoc_init in Hx, Hy by lia. by eapply Hh.
    + intros c x' y _ _ Hc Hpc Hx _.
      pose proof (vector_at_range _ _ _ Hx) as Hr. rewrite length_app in Hr. simpl in Hr.
      assert (0 ≤ hc_parent cls c < c); [|unfold Heap.size in *; lia].
      apply (plain_parent_below (nodes o ++ [x]) c x'); [|done..].
      rewrite length_app. simpl. unfold Heap.size in *. lia.
Qed.

Lemma plain_pop_spec o (root : T) :
  Heap.size o ≤ max_size → vector_at (nodes o) 0 = Ok root →
  ∃ o', plain_pop o = Ok o'
      ∧ root :: nodes o' ≡ₚ nodes o
      ∧ (strict_weak_order cmp → plain_heap o → plain_heap o').
Proof.
  intros Hmax Hroot. pose proof (vector_at_range _ _ _ Hroot) as Hr.
  destruct (last (nodes o)) as [back|] eqn:Hlast;
    [|apply last_None in Hlast; rewrite Hlast in Hr; simpl in Hr; lia].
  unfold plain_pop, Heap.pop, assert, vector_back, vector_set_at, Heap.size.
  rewrite Hlast.
  destruct (Z.ltb_spec 0 (Z.of_nat (length (nodes o)))) as [_|]; [|lia]. simpl.
  change (Z.to_nat 0) with 0%nat.
  set (o1 := with_nodes _ o).
  assert (Heap.size o1 < Heap.size o ∧ root :: nodes o1 ≡ₚ nodes o
          ∧ (plain_heap o → down_inv (hc_parent cls) cmp 0 (nodes o1) 0))
    as (Hsz1 & Hperm1 & Hinv1).
  { subst o1. unfold Heap.size. simpl.
    destruct (popped_shape (nodes o) root back Hroot Hlast)
      as [(Hv & -> & ->)|(l & Hv & ->)].
    - rewrite Hv. simpl. split_and!; [lia|done|].
      intros _. split; [|intros c x y ?; lia].
      intros c x y _ _ _ Hx%vector_at_range. simpl in Hx. lia.
    - split_and!.
      + rewrite Hv. simpl. rewrite length_app. simpl. lia.
      + rewrite Hv. simpl. by rewrite Permutation_app_comm.
      + intros Hh. split; [|intros c x y ?; lia].
        intros c x y Hc Hp0 Hpne Hx Hy.
        apply (popped_at (nodes o) root back l _ _ Hv) in Hx as [[? _]|[_ Hx]]; [lia|].
        apply (popped_at (nodes o) root back l _ _ Hv) in Hy as [[? _]|[_ Hy]]; [lia|].
        by eapply Hh. }
  destruct (class_heapify_down _ cls_ok _ _ _ _ (plain_hooks (S:=unit) cmp) 0 0 o1 I)
    as (o' & Ho' & _ & Hperm & _ & Hheap); [lia|lia|by right|].
  unfold plain_comp. rewrite Ho'.
  exists o'. split_and!; [done| |].
  - by rewrite Hperm.
  - intros Hswo Hh. apply heap_from_0. apply Hheap; [done|lia|by apply Hinv1].
Qed.

Lemma plain_top_spec o (root : T) :
  vector_at (nodes o) 0 = Ok root → Heap.top o = Ok root.
Proof.
  intros Hroot. pose proof (vector_at_range _ _ _ Hroot) as Hr.
  unfold Heap.top, assert, Heap.size.
  destruct (Z.ltb_spec 0 (Z.of_nat (length (nodes o)))) as [_|]; [|lia]. done.
Qed.

Lemma plain_root_best o (root x : T) :
  Heap.size o ≤ max_size → strict_weak_order cmp → plain_heap o →
  vector_at (nodes o) 0 = Ok root → x ∈ nodes o → stays_above root x.
Proof.
  intros Hmax Hswo Hh Hroot [c Hc]%elem_of_vector_at.
  apply (heap_root_best (hc_parent cls) cmp (nodes o)
           (class_parent_lt _ cls_ok) Hswo Hmax Hh c x root Hc Hroot).
Qed.

Lemma plain_drain_spec (n : nat) : ∀ o,
  length (nodes o) = n → Heap.size o ≤ max_size →
  ∃ l, Heap.drain (hc_heapify_down cls plain_comp Heap.base_swap_nodes) (Datatypes.S n) o
       = Ok l
     ∧ l ≡ₚ nodes o
     ∧ (strict_weak_order cmp → plain_heap o → StronglySorted stays_above l).
Proof.
  induction n as [|n IH]; intros o Hlen Hmax.
  { exists []. unfold Heap.drain, Heap.empty, Heap.size. rewrite Hlen. simpl.
    apply nil_length_inv in Hlen as ->. split_and!; [done..|constructor]. }
  destruct (vector_at_in_range (nodes o) 0) as [root Hroot]; [lia|].
  destruct (plain_pop_spec o root Hmax Hroot) as (o' & Hpop & Hperm & Hheap).
  assert (length (nodes o') = n) as Hlen'.
  { apply Permutation_length in Hperm. simpl in Hperm. lia. }
  destruct (IH o' Hlen') as (rest & Hrest & Hprest & Hsorted);
    [unfold Heap.size in *; lia|].
  exists (root :: rest). split_and!.
  - change (Heap.drain (hc_heapify_down cls plain_comp Heap.base_swap_nodes)
              (Datatypes.S (Datatypes.S n)) o)
      with (if Heap.empty o then Ok []
            else x ← Heap.top o; o1 ← plain_pop o;
                 rest ← Heap.drain (hc_heapify_down cls plain_comp Heap.base_swap_nodes)
                          (Datatypes.S n) o1;
                 Ok (x :: rest)).
    unfold Heap.empty, Heap.size. rewrite Hlen.
    change (Z.of_nat (Datatypes.S n) =? 0) with false. cbv iota.
    rewrite (plain_top_spec o root Hroot), bind_of_Ok, Hpop, bind_of_Ok.
    by rewrite Hrest.
  - by rewrite Hprest, <- Hperm.
  - intros Hswo Hh. constructor; [by apply Hsorted; [|apply Hheap]|].
    rewrite Hprest. apply Forall_forall. intros x Hx.
    apply (plain_root_best o root x Hmax Hswo Hh Hroot).
    rewrite <- Hperm. by right.
Qed.

Lemma plain_pop_all_spec o :
  Heap.size o ≤ max_size →
  ∃ l, plain_pop_all o = Ok l
     ∧ l ≡ₚ nodes o
     ∧ (strict_weak_order cmp → plain_heap o → StronglySorted stays_above l).
Proof. intros. by apply plain_drain_spec. Qed.

Lemma plain_push_all_spec (xs : list T) : ∀ o,
  Heap.size o + Z.of_nat (length xs) ≤ max_size →
  ∃ o', push_all plain_push xs o = Ok o'
      ∧ nodes o' ≡ₚ xs ++ nodes o
      ∧ (strict_weak_order cmp → plain_heap o → plain_heap o').
Proof.
  induction xs as [|x xs IH]; intros o Hmax.
  { exists o. by split_and!. }
  simpl in Hmax. unfold push_all. simpl.
  destruct (plain_push_spec x o) as (o1 & -> & Hperm1 & Hheap1); [lia|]. simpl.
  assert (Heap.size o1 = Heap.size o + 1) as Hsz1.
  { unfold Heap.size. rewrite Hperm1. simpl. lia. }
  destruct (IH o1) as (o' & Ho' & Hperm & Hheap); [lia|].
  exists o'. split_and!; [done| |].
  - rewrite Hperm, Hperm1. by rewrite Permutation_middle.
  - intros Hswo Hh. by apply Hheap, Hheap1.
Qed.
End PlainOps.

(** ** Plain heaps of integers: the factories *)

Lemma greater_swo : strict_weak_order (λ a b : Z, b <? a).
Proof. split; intros *; lia. Qed.

Lemma less_swo : strict_weak_order (λ a b : Z, a <? b).
Proof. split; intros *; lia. Qed.

Lemma StronglySorted_weaken {A} (R1 R2 : A → A → Prop) (l : list A) :
  (∀ a b, R1 a b → R2 a b) → StronglySorted R1 l → StronglySorted R2 l.
Proof.
  intros HR. induction 1 as [|a l _ IH Hall]; constructor; [done|].
  eapply Forall_impl; [done|]. intros b. apply HR.
Qed.

Lemma sorted_by_greater (l : list Z) :
  StronglySorted (stays_above (λ a b, b <? a)) l → StronglySorted Z.le l.
Proof. apply StronglySorted_weaken. unfold stays_above. intros a b. lia. Qed.

Lemma sorted_by_less (l : list Z) :
  StronglySorted (stays_above (λ a b, a <? b)) l → StronglySorted (flip Z.le) l.
Proof. apply StronglySorted_weaken. unfold stays_above, flip. intros a b. lia. Qed.

Lemma flip_le_antisym : AntiSymm (=) (flip Z.le).
Proof. intros a b. unfold flip. lia. Qed.

Lemma le_antisym : AntiSymm (=) Z.le.
Proof. intros a b. lia. Qed.

Lemma k_class_eq {T S} (K : Z) :
  2 < K →
  KHeap.class (T:=T) (S:=S) K
  = Ok (HeapClass (KHeap.parent K) (KHeap.heapify_down K) (KHeap.build_heap K)).
Proof. intros HK. unfold KHeap.class, enable_if. by destruct (Z.ltb_spec 2 K); [|lia]. Qed.

Lemma k_class_record_ok {T S} (K : Z) :
  2 < K < SizeT.modulus →
  class_ok (T:=T) (S:=S)
    (HeapClass (KHeap.parent K) (KHeap.heapify_down K) (KHeap.build_heap K)).
Proof. intros HK. apply (KClass.k_class_ok K); [lia|]. apply k_class_eq. lia. Qed.

(** Construction with the flag clear followed by the extraction loop. *)
Lemma plain_heapsort {T} (cmp : T → T → bool) (cls : heap_class T unit)
    (inputs : list T) :
  class_ok cls → strict_weak_order cmp → Z.of_nat (length inputs) ≤ max_size →
  ∃ h l, plain_construct cmp cls false inputs = Ok h
       ∧ plain_pop_all cmp cls h = Ok l
       ∧ l ≡ₚ inputs
       ∧ StronglySorted (stays_above cmp) l.
Proof.
  intros Hcls Hswo Hmax.
  destruct (plain_construct_spec cmp cls Hcls false inputs Hmax)
    as (h & Hh & Hperm & _ & Hheap).
  destruct (plain_pop_all_spec cmp cls Hcls h) as (l & Hl & Hpl & Hsorted).
  { unfold Heap.size. by rewrite Hperm. }
  exists h, l. split_and!; [done|done|by rewrite Hpl|].
  apply Hsorted; [done|]. by apply Hheap.
Qed.

(** X1.  [make_min_heap] with the flag clear, followed by the loop that
    reads [top] and calls [pop] until the heap is empty, returns every
    input value, duplicates included, in non-decreasing order;
    [make_max_heap] returns them in non-increasing order.  No call in the
    loop fails. *)
Theorem binary_heap_factories_sort (inputs : list Z) :
  Z.of_nat (length inputs) ≤ max_size →
  (∃ h l, BinaryHeap.make_min_heap false inputs = Ok h
        ∧ Heap.pop_all
            (BinaryHeap.heapify_down BinaryHeap.std_greater Heap.base_swap_nodes) h = Ok l
        ∧ l ≡ₚ inputs
        ∧ StronglySorted Z.le l)
  ∧ (∃ h l, BinaryHeap.make_max_heap false inputs = Ok h
          ∧ Heap.pop_all
              (BinaryHeap.heapify_down BinaryHeap.std_less Heap.base_swap_nodes) h = Ok l
          ∧ l ≡ₚ inputs
          ∧ StronglySorted (flip Z.le) l).
Proof.
  intros Hmax. split.
  - destruct (plain_heapsort (λ a b, b <? a) BinaryHeap.class inputs
                BinaryClass.binary_class_ok greater_swo Hmax)
      as (h & l & Hh & Hl & Hperm & Hsorted).
    exists h, l. split_and!; [done..|by apply sorted_by_greater].
  - destruct (plain_heapsort (λ a b, a <? b) BinaryHeap.class inputs
                BinaryClass.binary_class_ok less_swo Hmax)
      as (h & l & Hh & Hl & Hperm & Hsorted).
    exists h, l. split_and!; [done..|by apply sorted_by_less].
Qed.

Lemma binary_heap_factories_sort_witness :
  ∃ h l, BinaryHeap.make_min_heap false [5; 3; 8; 3; 1] = Ok h
       ∧ Heap.pop_all
           (BinaryHeap.heapify_down BinaryHeap.std_greater Heap.base_swap_nodes) h = Ok l
       ∧ l ≡ₚ [5; 3; 8; 3; 1]
       ∧ StronglySorted Z.le l.
Proof.
  refine (proj1 (binary_heap_factories_sort [5; 3; 8; 3; 1] _)).
  by vm_compute.
Defined.

(** X2.  For every arity [K] above 2, [make_min_k_heap] and
    [make_max_k_heap] with the flag clear release the inputs in
    non-decreasing and non-increasing order, and the released sequence is
    the one the binary heap of the same polarity releases: the arity does
    not show in the result. *)
Theorem k_heap_factories_sort (K : Z) (inputs : list Z) :
  2 < K < SizeT.modulus → Z.of_nat (length inputs) ≤ max_size →
  (∃ h l, KHeap.make_min_k_heap K false inputs = Ok h
        ∧ Heap.pop_all
            (KHeap.heapify_down K BinaryHeap.std_greater Heap.base_swap_nodes) h = Ok l
        ∧ l ≡ₚ inputs
        ∧ StronglySorted Z.le l
        ∧ (b ← BinaryHeap.make_min_heap false inputs;
           Heap.pop_all
             (BinaryHeap.heapify_down BinaryHeap.std_greater Heap.base_swap_nodes) b)
          = Ok l)
  ∧ (∃ h l, KHeap.make_max_k_heap K false inputs = Ok h
          ∧ Heap.pop_all
              (KHeap.heapify_down K BinaryHeap.std_less Heap.base_swap_nodes) h = Ok l
          ∧ l ≡ₚ inputs
          ∧ StronglySorted (flip Z.le) l
          ∧ (b ← BinaryHeap.make_max_heap false inputs;
             Heap.pop_all
               (BinaryHeap.heapify_down BinaryHeap.std_less Heap.base_swap_nodes) b)
            = Ok l).
Proof.
  intros HK Hmax.
  unfold KHeap.make_min_k_heap, KHeap.make_max_k_heap.
  rewrite !k_class_eq by lia. simpl.
  split.
  - destruct (plain_heapsort (λ a b, b <? a) _ inputs
                (k_class_record_ok K HK) greater_swo Hmax)
      as (h & l & Hh & Hl & Hperm & Hsorted%sorted_by_greater).
    destruct (plain_heapsort (λ a b, b <? a) BinaryHeap.class inputs
                BinaryClass.binary_class_ok greater_swo Hmax)
      as (h2 & l2 & Hh2 & Hl2 & Hperm2 & Hsorted2%sorted_by_greater).
    exists h, l. split_and!; [done..|].
    transitivity (b ← plain_construct (λ a b, b <? a) BinaryHeap.class false inputs;
                  plain_pop_all (λ a b, b <? a) BinaryHeap.class b); [done|].
    rewrite Hh2, bind_of_Ok, Hl2. f_equal.
    apply (@StronglySorted_unique _ Z.le le_antisym); [done..|].
    by rewrite Hperm, Hperm2.
  - destruct (plain_heapsort (λ a b, a <? b) _ inputs
                (k_class_record_ok K HK) less_swo Hmax)
      as (h & l & Hh & Hl & Hperm & Hsorted%sorted_by_less).
    destruct (plain_heapsort (λ a b, a <? b) BinaryHeap.class inputs
                BinaryClass.binary_class_ok less_swo Hmax)
      as (h2 & l2 & Hh2 & Hl2 & Hperm2 & Hsorted2%sorted_by_less).
    exists h, l. split_and!; [done..|].
    transitivity (b ← plain_construct (λ a b, a <? b) BinaryHeap.class false inputs;
                  plain_pop_all (λ a b, a <? b) BinaryHeap.class b); [done|].
    rewrite Hh2, bind_of_Ok, Hl2. f_equal.
    apply (@StronglySorted_unique _ (flip Z.le) flip_le_antisym); [done..|].
    by rewrite Hperm, Hperm2.
Qed.

Lemma k_heap_factories_sort_witness :
  ∃ h l, KHeap.make_max_k_heap 3 false [5; 3; 8; 3; 1; 9; 2] = Ok h
       ∧ Heap.pop_all
           (KHeap.heapify_down 3 BinaryHeap.std_less Heap.base_swap_nodes) h = Ok l
       ∧ l ≡ₚ [5; 3; 8; 3; 1; 9; 2]
       ∧ StronglySorted (flip Z.le) l
       ∧ (b ← BinaryHeap.make_max_heap false [5; 3; 8; 3; 1; 9; 2];
          Heap.pop_all
            (BinaryHeap.heapify_down BinaryHeap.std_less Heap.base_swap_nodes) b)
         = Ok l.
Proof.
  refine (proj2 (k_heap_factories_sort 3 [5; 3; 8; 3; 1; 9; 2] _ _)).
  - by vm_compute.
  - by vm_compute.
Defined.

(** X3.  Starting from a heap built over no input, with either value of
    the flag, [push] of each value of a list followed by the extraction
    loop returns the list sorted by the comparator: for every heap class
    of the library and every comparator that is a strict weak order.
    Values that compare equal are all kept. *)
Theorem pushed_heap_pops_sorted {T} (cmp : T → T → bool) (cls : heap_class T unit)
    (flag : bool) (xs : list T) :
  library_class cls → strict_weak_order cmp → Z.of_nat (length xs) ≤ max_size →
  ∃ h0 h l,
    Heap.construct (hc_build_heap cls (λ _ a b, Ok (cmp a b)) Heap.base_swap_nodes)
      flag () [] = Ok h0
    ∧ push_all (Heap.push (λ _ a b, Ok (cmp a b)) (hc_parent cls) Heap.base_swap_nodes)
        xs h0 = Ok h
    ∧ Heap.pop_all (hc_heapify_down cls (λ _ a b, Ok (cmp a b)) Heap.base_swap_nodes) h
      = Ok l
    ∧ l ≡ₚ xs
    ∧ StronglySorted (λ a b, cmp a b = false) l.
Proof.
  intros Hcls%library_class_ok Hswo Hmax.
  destruct (plain_construct_spec cmp cls Hcls flag []) as (h0 & Hh0 & Hp0 & _ & _).
  { rewrite max_size_eq. simpl. lia. }
  apply Permutation_nil_r in Hp0.
  assert (plain_heap cmp cls h0) as Hheap0.
  { intros c x y _ Hx%vector_at_range. rewrite Hp0 in Hx. simpl in Hx. lia. }
  destruct (plain_push_all_spec cmp cls Hcls xs h0) as (h & Hh & Hperm & Hheap).
  { unfold Heap.size. rewrite Hp0. simpl. lia. }
  rewrite Hp0, app_nil_r in Hperm.
  destruct (plain_pop_all_spec cmp cls Hcls h) as (l & Hl & Hpl & Hsorted).
  { unfold Heap.size. by rewrite Hperm. }
  exists h0, h, l. split_and!; [done|done|done|by rewrite Hpl|].
  apply Hsorted; [done|]. by apply Hheap.
Qed.

Lemma pushed_heap_pops_sorted_witness :
  ∃ h0 h l,
    BinaryHeap.make_min_heap false [] = Ok h0
    ∧ push_all (Heap.push BinaryHeap.std_greater BinaryHeap.parent Heap.base_swap_nodes)
        [5; 3; 8; 3; 1] h0 = Ok h
    ∧ Heap.pop_all
        (BinaryHeap.heapify_down BinaryHeap.std_greater Heap.base_swap_nodes) h = Ok l
    ∧ l ≡ₚ [5; 3; 8; 3; 1]
    ∧ StronglySorted (λ a b, (b <? a) = false) l.
Proof.
  refine (pushed_heap_pops_sorted (λ a b : Z, b <? a) BinaryHeap.class false
            [5; 3; 8; 3; 1] _ greater_swo _).
  - by left.
  - by vm_compute.
Defined.

(** X4.  In a non-empty heap that satisfies the heap property for a strict
    weak order, [top] returns a stored element that no stored element
    displaces: the comparator is false from it to every other one.  With
    [std::greater] this is a minimum, with [std::less] a maximum. *)
Theorem top_is_extreme {T} (cmp : T → T → bool) (cls : heap_class T unit)
    (o : object T unit) (x : T) :
  library_class cls → strict_weak_order cmp → Heap.size o ≤ max_size →
  heap_ordered (hc_parent cls) cmp (nodes o) → x ∈ nodes o →
  ∃ r, Heap.top o = Ok r ∧ r ∈ nodes o ∧ cmp r x = false.
Proof.
  intros Hcls%library_class_ok Hswo Hmax Hheap Hx.
  destruct (vector_at_in_range (nodes o) 0) as [r Hr].
  { apply elem_of_vector_at in Hx as [c Hc%vector_at_range]. lia. }
  exists r. split_and!.
  - by apply plain_top_spec.
  - by eapply vector_at_elem_of.
  - by apply (plain_root_best cmp cls Hcls o r x).
Qed.

Lemma top_is_extreme_witness :
  ∃ r, Heap.top (Object [1; 4; 2; 9; 5] ()) = Ok r
     ∧ r ∈ [1; 4; 2; 9; 5] ∧ (9 <? r) = false.
Proof.
  refine (top_is_extreme (λ a b : Z, b <? a) BinaryHeap.class
            (Object [1; 4; 2; 9; 5] ()) 9 _ greater_swo _ _ _).
  - by left.
  - by vm_compute.
  - apply heap_orderedb_spec. by vm_compute.
  - apply (bool_decide_unpack _). by vm_compute.
Defined.

(** X5.  [push] on a heap below the maximal size returns a heap that holds
    the old elements and the new one; [pop] on a non-empty heap returns a
    heap that holds the old elements without one occurrence of the element
    [top] returned.  Both hold for any comparator, an order or not: no
    element is lost or invented.  When the comparator is a strict weak
    order, both keep the heap property. *)
Theorem push_pop_keep_heap {T} (cmp : T → T → bool) (cls : heap_class T unit)
    (o : object T unit) (x : T) :
  library_class cls → Heap.size o < max_size →
  (∃ o', Heap.push (λ _ a b, Ok (cmp a b)) (hc_parent cls) Heap.base_swap_nodes x o
         = Ok o'
       ∧ nodes o' ≡ₚ x :: nodes o
       ∧ (strict_weak_order cmp → heap_ordered (hc_parent cls) cmp (nodes o) →
          heap_ordered (hc_parent cls) cmp (nodes o')))
  ∧ (nodes o ≠ [] →
     ∃ r o', Heap.top o = Ok r
           ∧ Heap.pop (hc_heapify_down cls (λ _ a b, Ok (cmp a b)) Heap.base_swap_nodes) o
             = Ok o'
           ∧ r :: nodes o' ≡ₚ nodes o
           ∧ (strict_weak_order cmp → heap_ordered (hc_parent cls) cmp (nodes o) →
              heap_ordered (hc_parent cls) cmp (nodes o'))).
Proof.
  intros Hcls%library_class_ok Hmax. split.
  - apply (plain_push_spec cmp cls Hcls x o Hmax).
  - intros Hne.
    destruct (vector_at_in_range (nodes o) 0) as [r Hr].
    { destruct (nodes o); [done|]. simpl. lia. }
    destruct (plain_pop_spec cmp cls Hcls o r) as (o' & Ho' & Hperm & Hheap);
      [lia|done|].
    exists r, o'. split_and!; [by apply plain_top_spec|done..].
Qed.

Lemma push_pop_keep_heap_witness :
  ∃ r o', Heap.top (Object [9; 4; 5; 1; 2] ()) = Ok r
        ∧ Heap.pop (KHeap.heapify_down 3 BinaryHeap.std_less Heap.base_swap_nodes)
            (Object [9; 4; 5; 1; 2] ()) = Ok o'
        ∧ r :: nodes o' ≡ₚ [9; 4; 5; 1; 2]
        ∧ (strict_weak_order (λ a b : Z, a <? b) →
           heap_ordered (KHeap.parent 3) (λ a b : Z, a <? b) [9; 4; 5; 1; 2] →
           heap_ordered (KHeap.parent 3) (λ a b : Z, a <? b) (nodes o')).
Proof.
  refine (proj2 (push_pop_keep_heap (λ a b : Z, a <? b)
                   (HeapClass (KHeap.parent 3) (KHeap.heapify_down 3) (KHeap.build_heap 3))
                   (Object [9; 4; 5; 1; 2] ()) 0 _ _) _).
  - right. exists 3. split; [done|]. reflexivity.
  - by vm_compute.
  - done.
Defined.

(** ** Inputs that are already heaps *)

Lemma StronglySorted_lookup {A} (R : A → A → Prop) (l : list A) :
  StronglySorted R l →
  ∀ (i j : nat) x y, l !! i = Some x → l !! j = Some y → (i < j)%nat → R x y.
Proof.
  induction 1 as [|a l _ IH Hall]; intros i j x y Hi Hj Hij; [done|].
  destruct j as [|j]; [lia|]. simpl in Hj.
  destruct i as [|i]; simpl in Hi.
  - simplify_eq. rewrite Forall_forall in Hall. apply Hall.
    by eapply list_elem_of_lookup_2.
  - apply (IH i j); [done..|lia].
Qed.

(** A sequence sorted by the comparator satisfies the heap property,
    whatever the parent function, as long as a parent precedes its child. *)
Lemma sorted_heap_ordered {T} (parent : Z → Z) (cmp : T → T → bool) (v : list T) :
  (∀ c, 0 < c < SizeT.modulus → 0 ≤ parent c < c) →
  Z.of_nat (length v) ≤ max_size →
  StronglySorted (λ a b, cmp a b = false) v → heap_ordered parent cmp v.
Proof.
  intros Hpar Hmax Hsorted c x y Hc Hx Hy.
  pose proof (vector_at_range _ _ _ Hx) as Hr.
  destruct (Hpar c) as [Hp0 Hpc]; [rewrite modulus_eq, max_size_eq in *; lia|].
  apply vector_at_Ok in Hx as [_ Hx]. apply vector_at_Ok in Hy as [_ Hy].
  apply (StronglySorted_lookup _ v Hsorted (Z.to_nat (parent c)) (Z.to_nat c));
    [done..|lia].
Qed.

(** X6.  A sequence of integers in non-decreasing order is a min heap for
    every heap class of the library: the constructor with the flag set,
    which skips [build_heap], returns a heap whose extraction loop yields
    exactly the input sequence.  The same holds for a non-increasing
    sequence and the max comparator. *)
Theorem sorted_input_is_a_heap (cls : heap_class Z unit) (inputs : list Z) :
  library_class cls → Z.of_nat (length inputs) ≤ max_size →
  (StronglySorted Z.le inputs →
   heap_ordered (hc_parent cls) (λ a b, b <? a) inputs
   ∧ ∃ h, Heap.construct (hc_build_heap cls BinaryHeap.std_greater Heap.base_swap_nodes)
            true () inputs = Ok h
        ∧ Heap.pop_all
            (hc_heapify_down cls BinaryHeap.std_greater Heap.base_swap_nodes) h
          = Ok inputs)
  ∧ (StronglySorted (flip Z.le) inputs →
     heap_ordered (hc_parent cls) (λ a b, a <? b) inputs
     ∧ ∃ h, Heap.construct (hc_build_heap cls BinaryHeap.std_less Heap.base_swap_nodes)
              true () inputs = Ok h
          ∧ Heap.pop_all
              (hc_heapify_down cls BinaryHeap.std_less Heap.base_swap_nodes) h
            = Ok inputs).
Proof.
  intros Hcls%library_class_ok Hmax. split; intros Hsorted.
  - assert (heap_ordered (hc_parent cls) (λ a b, b <? a) inputs) as Hheap.
    { apply sorted_heap_ordered; [apply (class_parent_lt _ Hcls)|done|].
      eapply StronglySorted_weaken; [|done]. intros a b. simpl. lia. }
    split; [done|]. exists (Object inputs ()). split; [done|].
    destruct (plain_pop_all_spec (λ a b, b <? a) cls Hcls (Object inputs ()) Hmax)
      as (l & Hl & Hperm & Hs).
    etransitivity; [exact Hl|]. f_equal.
    apply (@StronglySorted_unique _ Z.le le_antisym); [|done..].
    apply sorted_by_greater, Hs; [apply greater_swo|done].
  - assert (heap_ordered (hc_parent cls) (λ a b, a <? b) inputs) as Hheap.
    { apply sorted_heap_ordered; [apply (class_parent_lt _ Hcls)|done|].
      eapply StronglySorted_weaken; [|done]. intros a b. unfold flip. lia. }
    split; [done|]. exists (Object inputs ()). split; [done|].
    destruct (plain_pop_all_spec (λ a b, a <? b) cls Hcls (Object inputs ()) Hmax)
      as (l & Hl & Hperm & Hs).
    etransitivity; [exact Hl|]. f_equal.
    apply (@StronglySorted_unique _ (flip Z.le) flip_le_antisym); [|done..].
    apply sorted_by_less, Hs; [apply less_swo|done].
Qed.

Lemma sorted_input_is_a_heap_witness :
  ∃ h, BinaryHeap.make_min_heap true [0; 1; 2; 3; 4; 5; 6; 7; 8] = Ok h
     ∧ Heap.pop_all
         (BinaryHeap.heapify_down BinaryHeap.std_greater Heap.base_swap_nodes) h
       = Ok [0; 1; 2; 3; 4; 5; 6; 7; 8].
Proof.
  refine (proj2 (proj1 (sorted_input_is_a_heap BinaryHeap.class
                          [0; 1; 2; 3; 4; 5; 6; 7; 8] _ _) _)).
  - by left.
  - by vm_compute.
  - repeat (constructor; [|repeat (constructor; [lia|]); constructor]). constructor.
Defined.

(** * Beyond the specification: the priority queue *)

(** ** Lookups *)

Section QueueLookups.
Context `{Countable T}.
Implicit Types (o : object T (PriorityQueue.members T)) (e : T).

Lemma contains_elem_of o e :
  PQInv.pq_inv o → PriorityQueue.contains e o = true ↔ e ∈ nodes o.
Proof.
  intros [Hix _]. unfold PriorityQueue.contains. rewrite bool_decide_eq_true.
  symmetry. by apply PQInv.indexed_elem_of.
Qed.

Lemma contains_not_elem_of o e :
  PQInv.pq_inv o → e ∉ nodes o → PriorityQueue.contains e o = false.
Proof.
  intros Hinv He. destruct (PriorityQueue.contains e o) eqn:E; [|done].
  by apply contains_elem_of in E.
Qed.

Lemma contains_ext o o' e :
  PQInv.pq_inv o → PQInv.pq_inv o' → (e ∈ nodes o' ↔ e ∈ nodes o) →
  PriorityQueue.contains e o' = PriorityQueue.contains e o.
Proof.
  intros [Hix _] [Hix' _] Hiff. unfold PriorityQueue.contains.
  apply bool_decide_ext.
  by rewrite <- (PQInv.indexed_elem_of o e Hix), <- (PQInv.indexed_elem_of o' e Hix').
Qed.

Lemma key_at_elem_of o e :
  PQInv.pq_inv o → e ∈ nodes o →
  PriorityQueue.key_at e o = Ok (PQInv.key_of (PriorityQueue.key_map (fields o)) e).
Proof.
  intros [_ Hk] [k Hke]%Hk. unfold PriorityQueue.key_at, map_at, PQInv.key_of.
  by rewrite Hke.
Qed.

Lemma key_at_not_elem_of o e :
  PQInv.pq_inv o → e ∉ nodes o → PriorityQueue.key_at e o = Fail OutOfRange.
Proof.
  intros [_ Hk] He. unfold PriorityQueue.key_at, map_at.
  destruct (PriorityQueue.key_map (fields o) !! e) eqn:E; [|done].
  destruct He. apply Hk. eauto.
Qed.

Lemma key_at_Ok_elem_of o e k :
  PQInv.pq_inv o → PriorityQueue.key_at e o = Ok k →
  e ∈ nodes o ∧ PQInv.key_of (PriorityQueue.key_map (fields o)) e = k.
Proof.
  intros Hinv Hk. destruct (decide (e ∈ nodes o)) as [He|He].
  - rewrite (key_at_elem_of o e Hinv He) in Hk. by simplify_eq.
  - by rewrite (key_at_not_elem_of o e Hinv He) in Hk.
Qed.
End QueueLookups.

(** X7.  A queue built by a constructor over pairwise distinct elements
    has the size of the input, answers [contains] with true and [key_at]
    with the key given at the same position for every input element, and
    answers [contains] with false and [key_at] with [std::out_of_range]
    for every other element: with either value of the flag, for both
    polarities and every heap class of the library. *)
Theorem construct_then_lookup `{Countable T}
    (cls : heap_class T (PriorityQueue.members T)) (t : PriorityQueue.Type_) (flag : bool)
    (keys : list Z) (inputs : list T) :
  library_class cls →
  NoDup inputs → length keys = length inputs → Z.of_nat (length inputs) ≤ max_size →
  ∃ q, PriorityQueue.construct cls flag (PriorityQueue.comp_factory_of t) keys inputs = Ok q
     ∧ PriorityQueue.size q = Z.of_nat (length inputs)
     ∧ (∀ (n : nat) e k, inputs !! n = Some e → keys !! n = Some k →
          PriorityQueue.contains e q = true ∧ PriorityQueue.key_at e q = Ok k)
     ∧ (∀ e, e ∉ inputs →
          PriorityQueue.contains e q = false
          ∧ PriorityQueue.key_at e q = Fail OutOfRange).
Proof.
  intros Hcls%library_class_ok Hnd Hlen Hmax.
  destruct (PQOps.construct_spec cls Hcls t flag keys inputs Hnd Hlen Hmax)
    as (km & q & _ & Hq & [Hinv Hkm] & Hperm & Hval & _).
  exists q. split_and!; [done| | |].
  - unfold PriorityQueue.size, Heap.size. by rewrite Hperm.
  - intros n e k Hn Hk.
    assert (e ∈ nodes q) as He by (rewrite Hperm; by eapply list_elem_of_lookup_2).
    split; [by apply contains_elem_of|].
    rewrite key_at_elem_of by done. unfold PQInv.key_of.
    by rewrite Hkm, (Hval n e k Hn Hk).
  - intros e He. rewrite <- Hperm in He.
    split; [by apply contains_not_elem_of|by apply key_at_not_elem_of].
Qed.

Lemma construct_then_lookup_witness :
  ∃ q, PriorityQueue.make_max_k_priority_queue 3 false [5; 4; 1; 7]
         ["h"; "e"; "a"; "p"]%char = Ok q
     ∧ PriorityQueue.size q = 4
     ∧ (∀ (n : nat) e k, ["h"; "e"; "a"; "p"]%char !! n = Some e →
          [5; 4; 1; 7] !! n = Some k →
          PriorityQueue.contains e q = true ∧ PriorityQueue.key_at e q = Ok k)
     ∧ (∀ e, e ∉ ["h"; "e"; "a"; "p"]%char →
          PriorityQueue.contains e q = false
          ∧ PriorityQueue.key_at e q = Fail OutOfRange).
Proof.
  refine (construct_then_lookup
            (HeapClass (KHeap.parent 3) (KHeap.heapify_down 3) (KHeap.build_heap 3))
            PriorityQueue.max_heap false [5; 4; 1; 7] ["h"; "e"; "a"; "p"]%char _ _ _ _).
  - right. exists 3. split; [done|]. reflexivity.
  - apply (bool_decide_unpack _). by vm_compute.
  - reflexivity.
  - by vm_compute.
Defined.

(** X8.  [push] of a key with an element that is not in the queue returns
    a queue one larger, in which [contains] finds the element and [key_at]
    returns the pushed key, while both answer as before for every other
    element; the maps stay consistent with the sequence, and a queue in
    heap order stays in heap order. *)
Theorem push_then_lookup `{Countable T}
    (cls : heap_class T (PriorityQueue.members T)) (t : PriorityQueue.Type_)
    (o : object T (PriorityQueue.members T)) (k : Z) (e : T) :
  library_class cls → PQInv.pq_inv o → Heap.size o < max_size → e ∉ nodes o →
  ∃ o', PriorityQueue.push cls (PriorityQueue.comp_factory_of t) k e o = Ok o'
      ∧ PQInv.pq_inv o'
      ∧ PriorityQueue.size o' = PriorityQueue.size o + 1
      ∧ PriorityQueue.contains e o' = true
      ∧ PriorityQueue.key_at e o' = Ok k
      ∧ (∀ e', e' ≠ e →
           PriorityQueue.contains e' o' = PriorityQueue.contains e' o
           ∧ PriorityQueue.key_at e' o' = PriorityQueue.key_at e' o)
      ∧ (PQOps.heap_ok cls t o → PQOps.heap_ok cls t o').
Proof.
  intros Hcls%library_class_ok Hinv Hmax He.
  destruct (PQOps.push_spec cls Hcls t _ o k e (conj Hinv eq_refl) Hmax He)
    as (o' & Ho' & [Hinv' Hkm'] & Hperm & Hheap).
  exists o'. split_and!; [done|done| | | | |done].
  - unfold PriorityQueue.size, Heap.size. rewrite Hperm. simpl. lia.
  - apply contains_elem_of; [done|]. rewrite Hperm. by left.
  - unfold PriorityQueue.key_at, map_at. by rewrite Hkm', lookup_insert_eq.
  - intros e' Hne. split.
    + apply contains_ext; [done..|]. rewrite Hperm, elem_of_cons.
      split; [by intros [?|?]|by right].
    + unfold PriorityQueue.key_at, map_at. by rewrite Hkm', lookup_insert_ne.
Qed.

Lemma push_then_lookup_witness :
  ∃ o', PriorityQueue.push BinaryHeap.class PriorityQueue.min_heap_comp_factory 3 "x"%char
          minheap_queue = Ok o'
      ∧ PQInv.pq_inv o'
      ∧ PriorityQueue.size o' = PriorityQueue.size minheap_queue + 1
      ∧ PriorityQueue.contains "x"%char o' = true
      ∧ PriorityQueue.key_at "x"%char o' = Ok 3
      ∧ (∀ e', e' ≠ "x"%char →
           PriorityQueue.contains e' o' = PriorityQueue.contains e' minheap_queue
           ∧ PriorityQueue.key_at e' o' = PriorityQueue.key_at e' minheap_queue)
      ∧ (PQOps.heap_ok BinaryHeap.class PriorityQueue.min_heap minheap_queue →
         PQOps.heap_ok BinaryHeap.class PriorityQueue.min_heap o').
Proof.
  refine (push_then_lookup BinaryHeap.class PriorityQueue.min_heap minheap_queue
            3 "x"%char _ minheap_queue_inv _ _).
  - by left.
  - by vm_compute.
  - apply (bool_decide_unpack _). by vm_compute.
Defined.

(** X9.  [pop] on a non-empty queue removes exactly the element that
    [top_key_value] reports: the returned queue is one smaller, no longer
    contains that element ([key_at] for it throws), answers [contains] and
    [key_at] as before for every other element, keeps its maps consistent,
    and stays in heap order if it was. *)
Theorem pop_removes_top `{Countable T}
    (cls : heap_class T (PriorityQueue.members T)) (t : PriorityQueue.Type_)
    (o : object T (PriorityQueue.members T)) :
  library_class cls → PQInv.pq_inv o → Heap.size o ≤ max_size → nodes o ≠ [] →
  ∃ k r o',
    PriorityQueue.top_key_value o = Ok (k, r)
    ∧ PriorityQueue.pop cls (PriorityQueue.comp_factory_of t) o = Ok o'
    ∧ PQInv.pq_inv o'
    ∧ PriorityQueue.size o' = PriorityQueue.size o - 1
    ∧ PriorityQueue.contains r o' = false
    ∧ PriorityQueue.key_at r o' = Fail OutOfRange
    ∧ (∀ e', e' ≠ r →
         PriorityQueue.contains e' o' = PriorityQueue.contains e' o
         ∧ PriorityQueue.key_at e' o' = PriorityQueue.key_at e' o)
    ∧ (PQOps.heap_ok cls t o → PQOps.heap_ok cls t o').
Proof.
  intros Hcls%library_class_ok Hinv Hmax Hne.
  destruct (vector_at_in_range (nodes o) 0) as [r Hr].
  { destruct (nodes o); [done|]. simpl. lia. }
  pose proof (conj Hinv (eq_refl (PriorityQueue.key_map (fields o)))) as HP.
  destruct (PQOps.pop_spec cls Hcls t _ o r HP Hmax Hr)
    as (o' & Ho' & [Hinv' Hkm'] & Hperm & Hheap).
  pose proof (PQInv.indexed_NoDup o (proj1 Hinv)) as Hnd.
  rewrite <- Hperm in Hnd. apply NoDup_cons in Hnd as [Hnotin _].
  exists (PQInv.key_of (PriorityQueue.key_map (fields o)) r), r, o'.
  split_and!; [|done|done| | | | |done].
  - apply (PQOps.top_key_value_spec _ o r HP Hr).
  - unfold PriorityQueue.size, Heap.size. rewrite <- Hperm. simpl. lia.
  - by apply contains_not_elem_of.
  - by apply key_at_not_elem_of.
  - intros e' Hne'. split.
    + apply contains_ext; [done..|]. rewrite <- Hperm, elem_of_cons.
      split; [by right|by intros [?|?]].
    + unfold PriorityQueue.key_at, map_at. by rewrite Hkm', lookup_delete_ne.
Qed.

Lemma pop_removes_top_witness :
  ∃ k r o',
    PriorityQueue.top_key_value minheap_queue = Ok (k, r)
    ∧ PriorityQueue.pop BinaryHeap.class PriorityQueue.min_heap_comp_factory minheap_queue
      = Ok o'
    ∧ PQInv.pq_inv o'
    ∧ PriorityQueue.size o' = PriorityQueue.size minheap_queue - 1
    ∧ PriorityQueue.contains r o' = false
    ∧ PriorityQueue.key_at r o' = Fail OutOfRange
    ∧ (∀ e', e' ≠ r →
         PriorityQueue.contains e' o' = PriorityQueue.contains e' minheap_queue
         ∧ PriorityQueue.key_at e' o' = PriorityQueue.key_at e' minheap_queue)
    ∧ (PQOps.heap_ok BinaryHeap.class PriorityQueue.min_heap minheap_queue →
       PQOps.heap_ok BinaryHeap.class PriorityQueue.min_heap o').
Proof.
  refine (pop_removes_top BinaryHeap.class PriorityQueue.min_heap minheap_queue
            _ minheap_queue_inv _ _).
  - by left.
  - by vm_compute.
  - done.
Defined.

Lemma top_Ok {T S} (o : object T S) (root : T) :
  vector_at (nodes o) 0 = Ok root → Heap.top o = Ok root.
Proof.
  intros Hroot. pose proof (vector_at_range _ _ _ Hroot) as Hr.
  unfold Heap.top, assert, Heap.size.
  by destruct (Z.ltb_spec 0 (Z.of_nat (length (nodes o)))) as [_|]; [|lia].
Qed.

(** X10.  In a queue in heap order [top_key_value] returns the stored pair
    whose key comes first in the order of the polarity: the key is the one
    [key_at] reports for the returned element, it is not larger than the
    key of any stored element in a min queue and not smaller in a max
    queue. *)
Theorem top_key_is_extreme `{Countable T}
    (cls : heap_class T (PriorityQueue.members T)) (t : PriorityQueue.Type_)
    (o : object T (PriorityQueue.members T)) (e : T) (ke : Z) :
  library_class cls → PQInv.pq_inv o → Heap.size o ≤ max_size →
  PQOps.heap_ok cls t o → PriorityQueue.key_at e o = Ok ke →
  ∃ k r, PriorityQueue.top_key_value o = Ok (k, r)
       ∧ PriorityQueue.top o = Ok r
       ∧ PriorityQueue.key_at r o = Ok k
       ∧ release_order t k ke.
Proof.
  intros Hcls%library_class_ok Hinv Hmax Hheap Hke.
  destruct (key_at_Ok_elem_of o e ke Hinv Hke) as [He <-].
  destruct (vector_at_in_range (nodes o) 0) as [r Hr].
  { apply elem_of_vector_at in He as [c Hc%vector_at_range]. lia. }
  pose proof (conj Hinv (eq_refl (PriorityQueue.key_map (fields o)))) as HP.
  exists (PQInv.key_of (PriorityQueue.key_map (fields o)) r), r. split_and!.
  - apply (PQOps.top_key_value_spec _ o r HP Hr).
  - unfold PriorityQueue.top. by apply top_Ok.
  - apply key_at_elem_of; [done|]. by eapply vector_at_elem_of.
  - apply elem_of_vector_at in He as [c Hc].
    pose proof (heap_root_best (hc_parent cls) _ (nodes o)
                  (class_parent_lt _ Hcls) (PQInv.cmp_of_swo t _) Hmax Hheap c e r Hc Hr)
      as Hbest.
    apply PQOps.cmp_of_false in Hbest. by destruct t.
Qed.

Lemma top_key_is_extreme_witness :
  ∃ k r, PriorityQueue.top_key_value minheap_queue = Ok (k, r)
       ∧ PriorityQueue.top minheap_queue = Ok r
       ∧ PriorityQueue.key_at r minheap_queue = Ok k
       ∧ k ≤ 8.
Proof.
  refine (top_key_is_extreme BinaryHeap.class PriorityQueue.min_heap minheap_queue
            "e"%char 8 _ minheap_queue_inv _ minheap_is_heap _).
  - by left.
  - by vm_compute.
  - by vm_compute.
Defined.

(** ** update_key on a max queue, where it does work *)

Section MaxUpdate.
Context `{Countable T}.
Variable cls : heap_class T (PriorityQueue.members T).
Hypothesis cls_ok : class_ok cls.
Implicit Types (o : object T (PriorityQueue.members T)) (e : T) (km : gmap T Z).

(** Lowering the key at [i] in a max queue leaves every edge in order but
    those below [i]: what [heapify_down(i)] repairs. *)
Lemma decrease_down_inv km o k e i :
  PQInv.pq_with km o → Heap.size o ≤ max_size →
  vector_at (nodes o) i = Ok e → k ≤ PQInv.key_of km e →
  PQOps.heap_ok cls PriorityQueue.max_heap o →
  down_inv (hc_parent cls) (PQInv.cmp_of PriorityQueue.max_heap (<[e := k]> km)) 0
    (nodes o) i.
Proof.
  intros [[Hix Hk] <-] Hmax He Hle Hheap. unfold PQOps.heap_ok in Hheap.
  assert (∀ c x, 0 < c → vector_at (nodes o) c = Ok x →
                 0 ≤ hc_parent cls c < c) as Hpar.
  { intros c x Hc Hx%vector_at_range. apply (class_parent_lt _ cls_ok).
    unfold Heap.size in *. rewrite modulus_eq, max_size_eq in *. lia. }
  split.
  - intros c x y Hc _ Hci Hx Hy.
    pose proof (Hheap c x y Hc Hx Hy) as Hold.
    assert (y ≠ e) by (intros ->; by pose proof (PQInv.indexed_inj o _ i e Hix Hy He)).
    unfold PQInv.cmp_of in *. rewrite !PQOps.key_of_insert.
    rewrite (decide_False (P:=y = e)) by done. case_decide; subst; lia.
  - intros c x y Hi _ Hc Hpc Hx Hy.
    pose proof (Hpar c x Hc Hx). pose proof (Hpar i e Hi He).
    assert (x ≠ e) by (intros ->; pose proof (PQInv.indexed_inj o c i e Hix Hx He); lia).
    assert (y ≠ e) by (intros ->; pose proof (PQInv.indexed_inj o _ i e Hix Hy He); lia).
    pose proof (Hheap i e y Hi He Hy) as Hup.
    rewrite <- Hpc in He. pose proof (Hheap c x e Hc Hx He) as Hdn.
    unfold PQInv.cmp_of in *.
    rewrite !PQOps.key_of_insert, !decide_False by done. lia.
Qed.
End MaxUpdate.

(** The max queue with the keys [12,10,8,6,4,2,0] over the letters of
    "minheap", as the constructor leaves it when the flag is set. *)
Definition maxheap_keys : gmap ascii Z :=
  foldl (λ local_key_map '(node, key), <[node := key]> local_key_map) ∅
    (zip ["m"; "i"; "n"; "h"; "e"; "a"; "p"]%char [12; 10; 8; 6; 4; 2; 0]).

Definition maxheap_queue : object ascii (PriorityQueue.members ascii) :=
  PQOps.initial maxheap_keys ["m"; "i"; "n"; "h"; "e"; "a"; "p"]%char.

Lemma maxheap_is_heap :
  heap_ordered BinaryHeap.parent (PQInv.cmp_of PriorityQueue.max_heap maxheap_keys)
    ["m"; "i"; "n"; "h"; "e"; "a"; "p"]%char.
Proof. apply heap_orderedb_spec. vm_compute. reflexivity. Qed.

Lemma maxheap_queue_inv : PQInv.pq_inv maxheap_queue.
Proof.
  apply (initial_pq_inv [12; 10; 8; 6; 4; 2; 0]); [|done..].
  apply (bool_decide_unpack _). by vm_compute.
Qed.

(** X11.  In a max queue [update_key] for a stored element returns a
    queue that holds the same elements, has consistent maps, reports the
    new key for the element and the old keys for the others, whatever the
    new key is.  When the new key is not larger than the element's current
    key, a queue in heap order stays in heap order: the repair the max
    queue runs, [heapify_down], is the one a lowered key needs. *)
Theorem max_update_key_lowered `{Countable T}
    (cls : heap_class T (PriorityQueue.members T))
    (o : object T (PriorityQueue.members T)) (k k0 : Z) (e : T) :
  library_class cls → PQInv.pq_inv o → Heap.size o ≤ max_size →
  PriorityQueue.key_at e o = Ok k0 →
  ∃ o', PriorityQueue.update_key cls PriorityQueue.max_heap
          PriorityQueue.max_heap_comp_factory k e o = Ok o'
      ∧ PQInv.pq_inv o'
      ∧ nodes o' ≡ₚ nodes o
      ∧ PriorityQueue.key_at e o' = Ok k
      ∧ (∀ e', e' ≠ e → PriorityQueue.key_at e' o' = PriorityQueue.key_at e' o)
      ∧ (k ≤ k0 → PQOps.heap_ok cls PriorityQueue.max_heap o →
         PQOps.heap_ok cls PriorityQueue.max_heap o').
Proof.
  intros Hcls%library_class_ok Hinv Hmax Hk0.
  destruct (key_at_Ok_elem_of o e k0 Hinv Hk0) as [He <-].
  set (km := PriorityQueue.key_map (fields o)) in *.
  assert (PQInv.pq_with km o) as HP by done.
  destruct (PQOps.update_key_spec cls Hcls PriorityQueue.max_heap km o k e HP Hmax He)
    as (i & o' & Hi & Hup & Hdown & [Hinv' Hkm'] & Hperm & _).
  pose proof (proj1 (proj1 Hinv e i) Hi) as Hat.
  pose proof (vector_at_range _ _ _ Hat) as Hr.
  destruct (PQOps.heapify_down_pq cls Hcls PriorityQueue.max_heap (<[e := k]> km) 0 i
              (PriorityQueue.with_key_map (<[e := k]> km) o))
    as (o'' & Ho'' & _ & _ & _ & Hfix).
  { by apply PQOps.pq_with_update. }
  { done. }
  { lia. }
  { left. unfold Heap.size in *. simpl. lia. }
  pose proof (eq_trans (eq_sym Ho'') Hdown) as [= ->].
  exists o'. split_and!; [done|done|done| | |].
  - unfold PriorityQueue.key_at, map_at. by rewrite Hkm', lookup_insert_eq.
  - intros e' Hne. unfold PriorityQueue.key_at, map_at.
    by rewrite Hkm', lookup_insert_ne.
  - intros Hle Hheap. unfold PQOps.heap_ok. rewrite Hkm'. apply heap_from_0, Hfix; [lia|].
    by apply (decrease_down_inv cls Hcls km o k e i).
Qed.

Lemma max_update_key_lowered_witness :
  ∃ o', PriorityQueue.update_key BinaryHeap.class PriorityQueue.max_heap
          PriorityQueue.max_heap_comp_factory 1 "i"%char maxheap_queue = Ok o'
      ∧ PQInv.pq_inv o'
      ∧ nodes o' ≡ₚ nodes maxheap_queue
      ∧ PriorityQueue.key_at "i"%char o' = Ok 1
      ∧ (∀ e', e' ≠ "i"%char →
           PriorityQueue.key_at e' o' = PriorityQueue.key_at e' maxheap_queue)
      ∧ PQOps.heap_ok BinaryHeap.class PriorityQueue.max_heap o'.
Proof.
  assert (library_class (T:=ascii) (S:=PriorityQueue.members ascii) BinaryHeap.class)
    as Hcls by (by left).
  assert (Heap.size maxheap_queue ≤ max_size) as Hmax by (by vm_compute).
  assert (PriorityQueue.key_at "i"%char maxheap_queue = Ok 10) as Hk0 by (by vm_compute).
  destruct (max_update_key_lowered BinaryHeap.class maxheap_queue 1 10 "i"%char
              Hcls maxheap_queue_inv Hmax Hk0)
    as (o' & Ho' & Hinv' & Hperm & Hk & Hothers & Hheap).
  exists o'. split; [exact Ho'|]. split; [exact Hinv'|]. split; [exact Hperm|].
  split; [exact Hk|]. split; [exact Hothers|].
  apply Hheap; [lia|]. apply maxheap_is_heap.
Defined.

(** ** Queues filled by push *)

Section QueuePushAll.
Context `{Countable T}.
Variable cls : heap_class T (PriorityQueue.members T).
Hypothesis cls_ok : class_ok cls.
Variable t : PriorityQueue.Type_.
Implicit Types (o : object T (PriorityQueue.members T)) (km : gmap T Z).

(** [q.push(key, element)] on a pair. *)
Definition push_pair (ke : Z * T) o : result (object T (PriorityQueue.members T)) :=
  PriorityQueue.push cls (PriorityQueue.comp_factory_of t) ke.1 ke.2 o.

Lemma queue_push_all_spec (kes : list (Z * T)) : ∀ km o,
  PQInv.pq_with km o → Heap.size o + Z.of_nat (length kes) ≤ max_size →
  NoDup (kes.*2 ++ nodes o) → PQOps.heap_ok cls t o →
  ∃ km' o', push_all push_pair kes o = Ok o'
          ∧ PQInv.pq_with km' o'
          ∧ PQOps.heap_ok cls t o'
          ∧ PQOps.keyed_pair km' <$> nodes o' ≡ₚ kes ++ (PQOps.keyed_pair km <$> nodes o).
Proof.
  induction kes as [|[k e] kes IH]; intros km o HP Hmax Hnd Hheap.
  { exists km, o. by split_and!. }
  simpl in Hmax, Hnd. apply NoDup_cons in Hnd as [Hnotin Hnd].
  assert (e ∉ nodes o) as He.
  { intros ?. apply Hnotin, elem_of_app. by right. }
  destruct (PQOps.push_spec cls cls_ok t km o k e HP) as (o1 & Ho1 & HP1 & Hperm1 & Hheap1);
    [lia|done|].
  assert (Heap.size o1 = Heap.size o + 1) as Hsz1.
  { unfold Heap.size. rewrite Hperm1. simpl. lia. }
  destruct (IH (<[e := k]> km) o1 HP1) as (km' & o' & Ho' & HP' & Hheap' & Hpairs).
  { lia. }
  { rewrite Hperm1, <- Permutation_middle. by apply NoDup_cons. }
  { by apply Hheap1. }
  exists km', o'. split_and!; [|done|done|].
  - unfold push_all. simpl. unfold push_pair at 2. simpl. rewrite Ho1. simpl. apply Ho'.
  - rewrite Hpairs, Hperm1, fmap_cons, <- Permutation_middle.
    unfold PQOps.keyed_pair at 1. rewrite PQOps.key_of_insert, decide_True by done.
    rewrite <- app_comm_cons. do 2 f_equiv.
    assert (PQOps.keyed_pair (<[e := k]> km) <$> nodes o
            = PQOps.keyed_pair km <$> nodes o) as ->; [|done].
    apply list_fmap_ext. intros n x Hx. unfold PQOps.keyed_pair.
    rewrite PQOps.key_of_insert, decide_False; [done|].
    intros ->. apply He. by eapply list_elem_of_lookup_2.
Qed.
End QueuePushAll.

(** X12.  Starting from a queue constructed over no input, [push] of each
    pair of a list with pairwise distinct elements, followed by the loop
    that reads [top_key_value] and calls [pop] until the queue is empty,
    returns exactly the pushed pairs, by non-decreasing key for a min
    queue and by non-increasing key for a max queue: for every heap class
    of the library. *)
Theorem pushed_queue_pops_sorted `{Countable T}
    (cls : heap_class T (PriorityQueue.members T)) (t : PriorityQueue.Type_) (flag : bool)
    (kes : list (Z * T)) :
  library_class cls → NoDup kes.*2 → Z.of_nat (length kes) ≤ max_size →
  ∃ q0 q kvs,
    PriorityQueue.construct cls flag (PriorityQueue.comp_factory_of t) [] [] = Ok q0
    ∧ push_all (λ ke, PriorityQueue.push cls (PriorityQueue.comp_factory_of t) ke.1 ke.2)
        kes q0 = Ok q
    ∧ PriorityQueue.pop_all cls (PriorityQueue.comp_factory_of t) q = Ok kvs
    ∧ kvs ≡ₚ kes
    ∧ StronglySorted (release_order t) kvs.*1.
Proof.
  intros Hcls%library_class_ok Hnd Hmax.
  destruct (PQOps.construct_spec cls Hcls t flag [] [])
    as (km & q0 & _ & Hq0 & HP0 & Hperm0%Permutation_nil_r & _);
    [constructor|done|rewrite max_size_eq; simpl; lia|].
  assert (PQOps.heap_ok cls t q0) as Hheap0.
  { intros c x y _ Hx%vector_at_range. rewrite Hperm0 in Hx. simpl in Hx. lia. }
  destruct (queue_push_all_spec cls Hcls t kes km q0 HP0)
    as (km' & q & Hq & HP' & Hheap & Hpairs).
  { unfold Heap.size. rewrite Hperm0. simpl. lia. }
  { by rewrite Hperm0, app_nil_r. }
  { done. }
  rewrite Hperm0, app_nil_r in Hpairs.
  destruct (PQOps.pop_all_spec cls Hcls t km' q HP') as (kvs & Hkvs & Hpkvs & Hsorted).
  { apply Permutation_length in Hpairs. rewrite length_fmap in Hpairs.
    unfold Heap.size. lia. }
  { done. }
  exists q0, q, kvs. split_and!; [done|done|done|by rewrite Hpkvs|by destruct t].
Qed.

Lemma pushed_queue_pops_sorted_witness :
  ∃ q0 q kvs,
    PriorityQueue.make_max_priority_queue false [] [] = Ok q0
    ∧ push_all (λ ke, PriorityQueue.push BinaryHeap.class
                        PriorityQueue.max_heap_comp_factory ke.1 ke.2)
        [(5, "m"); (4, "i"); (1, "n"); (4, "h")]%char q0 = Ok q
    ∧ PriorityQueue.pop_all BinaryHeap.class PriorityQueue.max_heap_comp_factory q = Ok kvs
    ∧ kvs ≡ₚ [(5, "m"); (4, "i"); (1, "n"); (4, "h")]%char
    ∧ StronglySorted (flip Z.le) kvs.*1.
Proof.
  refine (pushed_queue_pops_sorted BinaryHeap.class PriorityQueue.max_heap false
            [(5, "m"); (4, "i"); (1, "n"); (4, "h")]%char _ _ _).
  - by left.
  - apply (bool_decide_unpack _). by vm_compute.
  - by vm_compute.
Defined.

(** ** The k-ary priority queues *)

Lemma release_order_antisym (t : PriorityQueue.Type_) : AntiSymm (=) (release_order t).
Proof. destruct t; [apply le_antisym|apply flip_le_antisym]. Qed.

(** Two heap classes of the library release the keys of the same input in
    the same sequence. *)
Lemma class_independent_keys `{Countable T}
    (cls1 cls2 : heap_class T (PriorityQueue.members T)) (t : PriorityQueue.Type_)
    (keys : list Z) (inputs : list T) :
  library_class cls1 → library_class cls2 →
  NoDup inputs → length keys = length inputs → Z.of_nat (length inputs) ≤ max_size →
  ∃ q kvs,
    PriorityQueue.construct cls1 false (PriorityQueue.comp_factory_of t) keys inputs = Ok q
    ∧ PriorityQueue.pop_all cls1 (PriorityQueue.comp_factory_of t) q = Ok kvs
    ∧ kvs ≡ₚ zip keys inputs
    ∧ StronglySorted (release_order t) kvs.*1
    ∧ (b ← PriorityQueue.construct cls2 false (PriorityQueue.comp_factory_of t) keys inputs;
       l ← PriorityQueue.pop_all cls2 (PriorityQueue.comp_factory_of t) b;
       Ok l.*1) = Ok kvs.*1.
Proof.
  intros Hcls1 Hcls2 Hnd Hlen Hmax.
  destruct (constructed_queue_pops_sorted cls1 t keys inputs Hcls1 Hnd Hlen Hmax)
    as (q & kvs & Hq & Hkvs & Hperm & Hsorted).
  destruct (constructed_queue_pops_sorted cls2 t keys inputs Hcls2 Hnd Hlen Hmax)
    as (q2 & kvs2 & Hq2 & Hkvs2 & Hperm2 & Hsorted2).
  exists q, kvs. split_and!; [done..|].
  rewrite Hq2, bind_of_Ok, Hkvs2, bind_of_Ok. f_equal.
  apply (@StronglySorted_unique _ (release_order t) (release_order_antisym t)); [done..|].
  by rewrite Hperm, Hperm2.
Qed.

(** X13.  For every arity [K] above 2, [make_min_k_priority_queue] and
    [make_max_k_priority_queue] over pairwise distinct elements, with the
    flag clear, pop every pair they were given, by non-decreasing and by
    non-increasing key; the sequence of keys is the one the binary queue
    of the same polarity releases for the same input. *)
Theorem k_queue_sorted_extraction `{Countable T} (K : Z)
    (keys : list Z) (inputs : list T) :
  2 < K < SizeT.modulus →
  NoDup inputs → length keys = length inputs → Z.of_nat (length inputs) ≤ max_size →
  let cls := HeapClass (KHeap.parent K) (KHeap.heapify_down K) (KHeap.build_heap K) in
  (∃ q kvs,
     PriorityQueue.make_min_k_priority_queue K false keys inputs = Ok q
     ∧ PriorityQueue.pop_all cls PriorityQueue.min_heap_comp_factory q = Ok kvs
     ∧ kvs ≡ₚ zip keys inputs
     ∧ StronglySorted Z.le kvs.*1
     ∧ (b ← PriorityQueue.make_min_priority_queue false keys inputs;
        l ← PriorityQueue.pop_all BinaryHeap.class PriorityQueue.min_heap_comp_factory b;
        Ok l.*1) = Ok kvs.*1)
  ∧ (∃ q kvs,
       PriorityQueue.make_max_k_priority_queue K false keys inputs = Ok q
       ∧ PriorityQueue.pop_all cls PriorityQueue.max_heap_comp_factory q = Ok kvs
       ∧ kvs ≡ₚ zip keys inputs
       ∧ StronglySorted (flip Z.le) kvs.*1
       ∧ (b ← PriorityQueue.make_max_priority_queue false keys inputs;
          l ← PriorityQueue.pop_all BinaryHeap.class PriorityQueue.max_heap_comp_factory b;
          Ok l.*1) = Ok kvs.*1).
Proof.
  intros HK Hnd Hlen Hmax cls.
  assert (library_class cls) as Hcls.
  { right. exists K. split; [lia|]. apply k_class_eq. lia. }
  assert (library_class (T:=T) (S:=PriorityQueue.members T) BinaryHeap.class) as Hbin
    by (by left).
  unfold PriorityQueue.make_min_k_priority_queue, PriorityQueue.make_max_k_priority_queue.
  rewrite !k_class_eq by lia. rewrite !bind_of_Ok. split.
  - apply (class_independent_keys cls BinaryHeap.class PriorityQueue.min_heap
             keys inputs Hcls Hbin Hnd Hlen Hmax).
  - apply (class_independent_keys cls BinaryHeap.class PriorityQueue.max_heap
             keys inputs Hcls Hbin Hnd Hlen Hmax).
Qed.

Lemma k_queue_sorted_extraction_witness :
  ∃ q kvs,
    PriorityQueue.make_min_k_priority_queue 4 false [5; 4; 1; 3; 6; 0; 2]
      ["m"; "i"; "n"; "h"; "e"; "a"; "p"]%char = Ok q
    ∧ PriorityQueue.pop_all
        (HeapClass (KHeap.parent 4) (KHeap.heapify_down 4) (KHeap.build_heap 4))
        PriorityQueue.min_heap_comp_factory q = Ok kvs
    ∧ kvs ≡ₚ zip [5; 4; 1; 3; 6; 0; 2] ["m"; "i"; "n"; "h"; "e"; "a"; "p"]%char
    ∧ StronglySorted Z.le kvs.*1
    ∧ (b ← PriorityQueue.make_min_priority_queue false [5; 4; 1; 3; 6; 0; 2]
             ["m"; "i"; "n"; "h"; "e"; "a"; "p"]%char;
       l ← PriorityQueue.pop_all BinaryHeap.class PriorityQueue.min_heap_comp_factory b;
       Ok l.*1) = Ok kvs.*1.
Proof.
  refine (proj1 (k_queue_sorted_extraction 4 [5; 4; 1; 3; 6; 0; 2]
                   ["m"; "i"; "n"; "h"; "e"; "a"; "p"]%char _ _ _ _)).
  - by vm_compute.
  - apply (bool_decide_unpack _). by vm_compute.
  - reflexivity.
  - by vm_compute.
Defined.

(** ** Index arithmetic of KHeap *)

(** X14.  For an arity [K] above 2 and positions that fit in
    [std::size_t], [child(i, j)] is [K * i + j + 1], lies below [i] in the
    sequence, and [parent] leads back from it to [i]; every position but
    the root is the [j]-th child of its parent for exactly one [j] below
    [K], and its parent precedes it. *)
Theorem k_parent_child_round_trip (K i j c : Z) :
  2 < K < SizeT.modulus →
  0 ≤ i → 0 ≤ j < K → K * i + j + 1 < SizeT.modulus → 0 < c < SizeT.modulus →
  KHeap.child K i j = K * i + j + 1
  ∧ i < KHeap.child K i j
  ∧ KHeap.parent K (KHeap.child K i j) = i
  ∧ 0 ≤ KHeap.parent K c < c
  ∧ (∃ j', 0 ≤ j' < K ∧ KHeap.child K (KHeap.parent K c) j' = c)
  ∧ (∀ j1 j2, 0 ≤ j1 < K → 0 ≤ j2 < K →
       KHeap.child K (KHeap.parent K c) j1 = c →
       KHeap.child K (KHeap.parent K c) j2 = c → j1 = j2).
Proof.
  intros HK Hi Hj Hfit Hc.
  pose proof (KIndex.k_parent_lt K HK c Hc) as Hpc.
  pose proof (KIndex.k_parent_exact K HK c Hc) as Hpe.
  assert (K * ((c - 1) / K) ≤ c - 1) as Hmul by (apply Z.mul_div_le; lia).
  assert (0 ≤ (c - 1) mod K < K) as Hmod by (apply Z.mod_pos_bound; lia).
  assert (c - 1 = K * ((c - 1) / K) + (c - 1) mod K) as Hdm by (apply Z.div_mod; lia).
  split_and!.
  - apply (KIndex.child_exact K HK); lia.
  - rewrite (KIndex.child_exact K HK) by lia. nia.
  - apply (KIndex.parent_child K HK); lia.
  - apply Hpc.
  - apply Hpc.
  - exists ((c - 1) mod K). split; [done|].
    rewrite Hpe, (KIndex.child_exact K HK); lia.
  - intros j1 j2 Hj1 Hj2. rewrite Hpe.
    assert (∀ j', KHeap.child K ((c - 1) / K) j'
                  = (K * ((c - 1) / K) + j' + 1) mod SizeT.modulus) as Hwrap.
    { intros j'. unfold KHeap.child, SizeT.add, SizeT.mul, SizeT.wrap.
      by rewrite Zplus_mod_idemp_l, <- Z.add_assoc, Zplus_mod_idemp_l, Z.add_assoc. }
    rewrite !Hwrap. generalize (K * ((c - 1) / K)). intros a H1 H2.
    rewrite modulus_eq in *. clear - HK Hj1 Hj2 H1 H2.
    Z.div_mod_to_equations. nia.
Qed.

Lemma k_parent_child_round_trip_witness :
  KHeap.child 3 4 2 = 15 ∧ KHeap.parent 3 15 = 4 ∧ 0 ≤ KHeap.parent 3 7 < 7.
Proof.
  assert (2 < 3 < SizeT.modulus) as HK by (by vm_compute).
  assert (0 ≤ 4) as Hi by lia.
  assert (0 ≤ 2 < 3) as Hj by lia.
  assert (3 * 4 + 2 + 1 < SizeT.modulus) as Hfit by (by vm_compute).
  assert (0 < 7 < SizeT.modulus) as Hc by (by vm_compute).
  destruct (k_parent_child_round_trip 3 4 2 7 HK Hi Hj Hfit Hc) as (Hch & _ & Hp & Hlt & _).
  split; [exact Hch|]. split; [exact Hp|exact Hlt].
Defined.

(** X15.  In a k-ary heap of at least two elements [KHeap::is_leaf]
    answers true exactly for the positions whose first child, at
    [K * i + 1], is outside the sequence.  (The test of [BinaryHeap] does
    not have this property.) *)
Theorem k_is_leaf_iff_no_child {T S} (K : Z) (o : object T S) (i : Z) :
  2 < K < SizeT.modulus → 2 ≤ Heap.size o ≤ max_size → 0 ≤ i →
  KHeap.is_leaf K o i = true ↔ Heap.size o ≤ K * i + 1.
Proof.
  intros HK Hsz Hi. rewrite (KIndex.k_is_leaf_exact K HK) by done.
  rewrite Z.ltb_lt.
  assert (K * ((Heap.size o - 2) / K) ≤ Heap.size o - 2) as Hmul
    by (apply Z.mul_div_le; lia).
  assert (0 ≤ (Heap.size o - 2) mod K < K) as Hmod by (apply Z.mod_pos_bound; lia).
  assert (Heap.size o - 2 = K * ((Heap.size o - 2) / K) + (Heap.size o - 2) mod K) as Hdm
    by (apply Z.div_mod; lia).
  split; intros; nia.
Qed.

Lemma k_is_leaf_iff_no_child_witness :
  KHeap.is_leaf 3 (Object [1; 4; 2; 9; 5; 7] ()) 2 = true
  ∧ KHeap.is_leaf 3 (Object [1; 4; 2; 9; 5; 7] ()) 1 = false.
Proof.
  assert (2 < 3 < SizeT.modulus) as HK by (by vm_compute).
  assert (2 ≤ Heap.size (Object (S:=unit) [1; 4; 2; 9; 5; 7] ()) ≤ max_size) as Hsz
    by (by vm_compute).
  split.
  - apply (k_is_leaf_iff_no_child 3 (Object [1; 4; 2; 9; 5; 7] ()) 2 HK Hsz); [lia|].
    by vm_compute.
  - destruct (KHeap.is_leaf 3 (Object [1; 4; 2; 9; 5; 7] ()) 1) eqn:E; [|done].
    apply (k_is_leaf_iff_no_child 3 (Object [1; 4; 2; 9; 5; 7] ()) 1 HK Hsz) in E; [|lia].
    by vm_compute in E.
Defined.

(** ** Instances of the extraction of an ordered queue *)

Lemma ordered_queue_pops_sorted_witness :
  ∃ kvs, PriorityQueue.pop_all BinaryHeap.class PriorityQueue.min_heap_comp_factory
           minheap_queue = Ok kvs
       ∧ kvs ≡ₚ PQOps.keyed_pair minheap_keys <$> ["m"; "i"; "n"; "h"; "e"; "a"; "p"]%char
       ∧ StronglySorted Z.le kvs.*1.
Proof.
  refine (ordered_queue_pops_sorted BinaryHeap.class PriorityQueue.min_heap minheap_queue
            _ minheap_queue_inv _ minheap_is_heap).
  - by left.
  - by vm_compute.
Defined.

(** ** Inputs with a repeated element *)

Section LastOccurrence.
Context `{Countable T}.
Implicit Types (l : list T) (e : T).

(** [n] is the last position of [e] in [l]. *)
Definition last_at l (n : nat) e : Prop :=
  l !! n = Some e ∧ ∀ n' : nat, (n < n')%nat → l !! n' ≠ Some e.

Lemma last_at_cons x l n e :
  last_at (x :: l) n e →
  (n = 0%nat ∧ e = x ∧ e ∉ l) ∨ (∃ n0, n = Datatypes.S n0 ∧ last_at l n0 e).
Proof.
  intros [Hn Hlast]. destruct n as [|n0]; simpl in Hn.
  - left. simplify_eq. split_and!; [done..|].
    intros [n' Hn']%list_elem_of_lookup_1. by apply (Hlast (Datatypes.S n')); [lia|].
  - right. exists n0. split; [done|]. split; [done|].
    intros n' Hlt. apply (Hlast (Datatypes.S n')). lia.
Qed.

Lemma index_fold_last l : ∀ a (m : gmap T Z) e,
  let im := foldl (λ local_index_map '(index, node), <[node := index]> local_index_map) m
                  (zip (seqZ a (Z.of_nat (length l))) l) in
  (e ∉ l → im !! e = m !! e)
  ∧ (∀ n, last_at l n e → im !! e = Some (a + Z.of_nat n)).
Proof.
  induction l as [|x l IH]; intros a m e; cbv zeta.
  { simpl. split; [done|]. by intros n [? _]. }
  simpl length. rewrite seqZ_cons by lia. simpl.
  replace (Z.pred (Z.of_nat (Datatypes.S (length l)))) with (Z.of_nat (length l)) by lia.
  destruct (IH (Z.succ a) (<[x := a]> m) e) as [Hout Hin]. split.
  - intros [Hne He]%not_elem_of_cons. rewrite Hout by done. by rewrite lookup_insert_ne.
  - intros n [(-> & -> & He)|(n0 & -> & Hn0)]%last_at_cons.
    + rewrite Hout by done. rewrite lookup_insert_eq. f_equal. lia.
    + rewrite (Hin n0 Hn0). f_equal. lia.
Qed.

Lemma key_fold_last l : ∀ (ks : list Z) (m : gmap T Z) e,
  length ks = length l →
  let km := foldl (λ local_key_map '(node, key), <[node := key]> local_key_map) m
                  (zip l ks) in
  (e ∉ l → km !! e = m !! e)
  ∧ (∀ n, last_at l n e → km !! e = ks !! n).
Proof.
  induction l as [|x l IH]; intros ks m e Hlen; cbv zeta; simpl.
  { split; [done|]. by intros n [? _]. }
  destruct ks as [|k0 ks]; [done|]. simpl in *.
  destruct (IH ks (<[x := k0]> m) e) as [Hout Hin]; [lia|]. split.
  - intros [Hne He]%not_elem_of_cons. rewrite Hout by done. by rewrite lookup_insert_ne.
  - intros n [(-> & -> & He)|(n0 & -> & Hn0)]%last_at_cons.
    + rewrite Hout by done. by rewrite lookup_insert_eq.
    + by rewrite (Hin n0 Hn0).
Qed.
End LastOccurrence.

(** X17.  The constructors accept an input in which an element occurs
    more than once.  [build_key_map] then keeps, for each element, the key
    given at its last occurrence, and [build_index_map] its last position;
    elements outside the input have no entry.  With the flag set the
    constructor returns the input sequence with these maps, so for a
    repeated element the maps are not consistent with the sequence. *)
Theorem maps_keep_last_occurrence `{Countable T}
    (cls : heap_class T (PriorityQueue.members T))
    (comp_factory : gmap T Z → T → T → result bool)
    (keys : list Z) (inputs : list T) :
  length keys = length inputs →
  ∃ km,
    PriorityQueue.build_key_map keys inputs = Ok km
    ∧ PriorityQueue.construct cls true comp_factory keys inputs
      = Ok (Object inputs (PriorityQueue.Members km (PriorityQueue.build_index_map inputs)))
    ∧ (∀ e (n : nat),
         inputs !! n = Some e → (∀ n' : nat, (n < n')%nat → inputs !! n' ≠ Some e) →
         km !! e = keys !! n
         ∧ PriorityQueue.build_index_map inputs !! e = Some (Z.of_nat n))
    ∧ (∀ e, e ∉ inputs →
         km !! e = None ∧ PriorityQueue.build_index_map inputs !! e = None)
    ∧ (¬ NoDup inputs →
       ¬ PQInv.pq_inv
           (Object inputs
              (PriorityQueue.Members km (PriorityQueue.build_index_map inputs)))).
Proof.
  intros Hlen. eexists. split_and!.
  - unfold PriorityQueue.build_key_map, assert. by rewrite bool_decide_true.
  - unfold PriorityQueue.construct, PriorityQueue.build_key_map, assert.
    by rewrite bool_decide_true.
  - intros e n Hn Hlast. split.
    + by apply (key_fold_last inputs keys ∅ e Hlen).
    + unfold PriorityQueue.build_index_map.
      rewrite (proj2 (index_fold_last inputs 0 ∅ e) n); [by rewrite Z.add_0_l|done].
  - intros e He. split.
    + by rewrite (proj1 (key_fold_last inputs keys ∅ e Hlen)).
    + unfold PriorityQueue.build_index_map.
      by rewrite (proj1 (index_fold_last inputs 0 ∅ e)).
  - intros Hdup [Hix _]. by apply Hdup, (PQInv.indexed_NoDup _ Hix).
Qed.

Lemma maps_keep_last_occurrence_witness :
  ∃ km,
    PriorityQueue.build_key_map [1; 2; 3] ["a"; "b"; "a"]%char = Ok km
    ∧ km !! "a"%char = Some 3
    ∧ PriorityQueue.build_index_map ["a"; "b"; "a"]%char !! "a"%char = Some 2.
Proof.
  destruct (maps_keep_last_occurrence BinaryHeap.class PriorityQueue.min_heap_comp_factory
              [1; 2; 3] ["a"; "b"; "a"]%char eq_refl)
    as (km & Hkm & _ & Hlast & _).
  exists km. split; [exact Hkm|].
  apply (Hlast "a"%char 2%nat); [done|].
  intros [|[|[|n']]] Hlt; (lia || done).
Defined.

(** ** Index arithmetic of BinaryHeap *)

(** X18.  For positions of a sequence within [max_size], [left] and
    [right] are [2i + 1] and [2i + 2] and [parent] leads back from both to
    [i]; every position but the root is the left or the right child of its
    parent, which precedes it; [parent(0)] wraps around to [max_size], so
    the root has no parent in the sequence; and a position that
    [is_leaf] accepts has no child in the sequence. *)
Theorem binary_parent_child_round_trip {T S} (o : object T S) (i c : Z) :
  Heap.size o ≤ max_size → 0 ≤ i < max_size → 0 < c ≤ max_size →
  BinaryHeap.left i = 2 * i + 1
  ∧ BinaryHeap.right i = 2 * i + 2
  ∧ BinaryHeap.parent (BinaryHeap.left i) = i
  ∧ BinaryHeap.parent (BinaryHeap.right i) = i
  ∧ BinaryHeap.parent c < c
  ∧ (c = BinaryHeap.left (BinaryHeap.parent c) ∨ c = BinaryHeap.right (BinaryHeap.parent c))
  ∧ BinaryHeap.parent 0 = max_size
  ∧ (BinaryHeap.is_leaf o i = true → Heap.size o ≤ BinaryHeap.left i).
Proof.
  intros Hsz Hi Hc.
  assert (0 < c < SizeT.modulus) as Hc' by (rewrite modulus_eq, max_size_eq in *; lia).
  pose proof (BinaryIndex.parent_lt c Hc') as Hpc.
  split_and!.
  - apply BinaryIndex.left_exact. lia.
  - by apply BinaryIndex.right_exact.
  - by apply BinaryIndex.parent_left.
  - by apply BinaryIndex.parent_right.
  - apply Hpc.
  - apply (BinaryIndex.children c); [done|lia|done].
  - apply BinaryIndex.parent_root.
  - rewrite BinaryIndex.is_leaf_exact, BinaryIndex.left_exact by lia.
    intros ?%Z.leb_le. div_lia.
Qed.

Lemma binary_parent_child_round_trip_witness :
  BinaryHeap.parent (BinaryHeap.left 3) = 3
  ∧ BinaryHeap.parent (BinaryHeap.right 3) = 3
  ∧ BinaryHeap.parent 6 < 6.
Proof.
  assert (Heap.size (Object (S:=unit) [30; 1; 50; 20; 40; 60] ()) ≤ max_size) as Hsz
    by (by vm_compute).
  assert (0 ≤ 3 < max_size) as Hi by (by vm_compute).
  assert (0 < 6 ≤ max_size) as Hc by (by vm_compute).
  destruct (binary_parent_child_round_trip (Object [30; 1; 50; 20; 40; 60] ()) 3 6
              Hsz Hi Hc) as (_ & _ & Hl & Hr & Hp & _).
  split; [exact Hl|]. split; [exact Hr|exact Hp].
Defined.
